(** * csnades-scraper: a shallow embedding of [csnades-scraper.mjs]

    The script discovers nade records in the markup of a listing page,
    fetches one detail page per record under a concurrency limit, and renders
    a text file of positioning commands.  This development embeds the
    command-line parsing, extraction, unescaping, scheduling,
    de-duplication and rendering code and states its properties.

    JavaScript strings are sequences of UTF-16 code units; they are modelled
    as lists of code units of type [N]. *)

From Stdlib Require Import NArith ZArith List String Ascii Bool Lia.
From stdpp Require Import base decidable option list sorting gmap.
Import ListNotations.

Local Open Scope N_scope.

(* ===================================================================== *)
(** * Part I: the model                                                   *)
(* ===================================================================== *)

(** ** JavaScript strings *)

Abbreviation jsstring := (list N).

(** Code units of an ASCII literal, used to write the source's literals. *)
Fixpoint js (s : string) : jsstring :=
  match s with
  | EmptyString => []
  | String a s' => N_of_ascii a :: js s'
  end.

Definition BACKSLASH : N := 92.
Definition DQUOTE : N := 34.
Definition LF : N := 10.

(** The two-character sequence backslash, double quote: the escaped quote
    that surrounds every key and value of the embedded records. *)
Definition EQUOTE : jsstring := [BACKSLASH; DQUOTE].

(** Exceptions the script can raise. *)
Inductive exn :=
| SyntaxError                 (* thrown by JSON.parse *)
| Error (msg : jsstring).     (* new Error(msg), also a rejected fetch *)

(** Result of a computation that may throw (or of a settled promise). *)
Inductive res (A : Type) :=
| Ok (a : A)
| Throw (e : exn).
Arguments Ok {A} a.
Arguments Throw {A} e.

Definition res_bind {A B} (r : res A) (f : A -> res B) : res B :=
  match r with
  | Ok a => f a
  | Throw e => Throw e
  end.

Notation "'try!' x := r 'in' k" := (res_bind r (fun x => k))
  (at level 10, x name, r at level 100, k at level 200).

(** [s.startsWith(p)] on the remaining text. *)
Fixpoint starts_with (p s : jsstring) : bool :=
  match p, s with
  | [], _ => true
  | _ :: _, [] => false
  | a :: p', b :: s' => (a =? b) && starts_with p' s'
  end.

(** Search of [needle] in [s], whose first code unit has index [pos]. *)
Fixpoint find_from (needle s : jsstring) (pos : nat) : option nat :=
  if starts_with needle s then Some pos
  else match s with
       | [] => None
       | _ :: s' => find_from needle s' (S pos)
       end.

(** [s.indexOf(needle, from)]; [None] is the source's [-1].  The start
    position is clamped to the length of [s]. *)
Definition indexOf (s needle : jsstring) (from : nat) : option nat :=
  let start := Nat.min from (length s) in
  find_from needle (drop start s) start.

(** [s.slice(a, b)] for [0 <= a], [0 <= b]. *)
Definition slice (s : jsstring) (a b : nat) : jsstring :=
  take (b - a) (drop a s).

(** ECMAScript WhiteSpace and LineTerminator code units: the class [\s] and
    the characters removed by [trim]. *)
Definition is_space (c : N) : bool :=
  (c =? 9) || (c =? 10) || (c =? 11) || (c =? 12) || (c =? 13) || (c =? 32)
  || (c =? 160) || (c =? 5760) || ((8192 <=? c) && (c <=? 8202))
  || (c =? 8232) || (c =? 8233) || (c =? 8239) || (c =? 8287)
  || (c =? 12288) || (c =? 65279).

Fixpoint trim_start (s : jsstring) : jsstring :=
  match s with
  | c :: s' => if is_space c then trim_start s' else s
  | [] => []
  end.

(** [s.trim()]. *)
Definition trim (s : jsstring) : jsstring :=
  rev (trim_start (rev (trim_start s))).

(** [s.toUpperCase()] on ASCII letters.  The only receiver in the script is
    the [team] field, which the extractor restricts to [ct] and [t]. *)
Definition upper_cu (c : N) : N :=
  if (97 <=? c) && (c <=? 122) then c - 32 else c.

Definition toUpperCase (s : jsstring) : jsstring := map upper_cu s.

(** [parts.join(sep)]. *)
Fixpoint join (sep : jsstring) (parts : list jsstring) : jsstring :=
  match parts with
  | [] => []
  | [p] => p
  | p :: ps => p ++ sep ++ join sep ps
  end.

(** Decimal rendering of a number in a template literal. *)
Fixpoint digits (d : Decimal.uint) : jsstring :=
  match d with
  | Decimal.Nil => []
  | Decimal.D0 d => 48 :: digits d
  | Decimal.D1 d => 49 :: digits d
  | Decimal.D2 d => 50 :: digits d
  | Decimal.D3 d => 51 :: digits d
  | Decimal.D4 d => 52 :: digits d
  | Decimal.D5 d => 53 :: digits d
  | Decimal.D6 d => 54 :: digits d
  | Decimal.D7 d => 55 :: digits d
  | Decimal.D8 d => 56 :: digits d
  | Decimal.D9 d => 57 :: digits d
  end.

Definition string_of_nat (n : nat) : jsstring := digits (Nat.to_uint n).

(** ** JSON.parse on a string literal *)

Definition hex_val (c : N) : option N :=
  if (48 <=? c) && (c <=? 57) then Some (c - 48)
  else if (65 <=? c) && (c <=? 70) then Some (c - 55)
  else if (97 <=? c) && (c <=? 102) then Some (c - 87)
  else None.

(** Value of the four hex digits of a [\uXXXX] escape. *)
Definition hex4 (a b c d : N) : option N :=
  match hex_val a, hex_val b, hex_val c, hex_val d with
  | Some x, Some y, Some z, Some w => Some (((x * 16 + y) * 16 + z) * 16 + w)
  | _, _, _, _ => None
  end.

(** The single-character escapes of the JSON grammar. *)
Definition json_escape (e : N) : option N :=
  if e =? 34 then Some 34          (* escaped double quote *)
  else if e =? 92 then Some 92     (* escaped backslash *)
  else if e =? 47 then Some 47     (* escaped solidus *)
  else if e =? 98 then Some 8      (* b: backspace *)
  else if e =? 102 then Some 12    (* f: form feed *)
  else if e =? 110 then Some 10    (* n: line feed *)
  else if e =? 114 then Some 13    (* r: carriage return *)
  else if e =? 116 then Some 9     (* t: tab *)
  else None.

(** Characters of a JSON string after its opening quote: the decoded value
    and the text left after the closing quote.  A code unit below U+0020,
    an unknown escape or a missing closing quote is a syntax error. *)
Fixpoint json_chars (t : jsstring) : option (jsstring * jsstring) :=
  match t with
  | [] => None
  | c :: t1 =>
      if c =? DQUOTE then Some ([], t1)
      else if c =? BACKSLASH then
        match t1 with
        | [] => None
        | e :: t2 =>
            if e =? 117 then
              match t2 with
              | h1 :: h2 :: h3 :: h4 :: t3 =>
                  match hex4 h1 h2 h3 h4 with
                  | Some u =>
                      match json_chars t3 with
                      | Some (v, r) => Some (u :: v, r)
                      | None => None
                      end
                  | None => None
                  end
              | _ => None
              end
            else
              match json_escape e with
              | Some u =>
                  match json_chars t2 with
                  | Some (v, r) => Some (u :: v, r)
                  | None => None
                  end
              | None => None
              end
        end
      else if c <? 32 then None
      else
        match json_chars t1 with
        | Some (v, r) => Some (c :: v, r)
        | None => None
        end
  end.

(** JSON whitespace: tab, line feed, carriage return, space. *)
Definition json_ws (c : N) : bool :=
  (c =? 9) || (c =? 10) || (c =? 13) || (c =? 32).

Fixpoint skip_json_ws (t : jsstring) : jsstring :=
  match t with
  | c :: t' => if json_ws c then skip_json_ws t' else t
  | [] => []
  end.

(** [JSON.parse(text)] for a text whose value is a string literal, the only
    shape [decodeJsEscapedString] builds.  A text that does not start with a
    string literal is outside this model and is reported as [SyntaxError]
    as well. *)
Definition JSON_parse (text : jsstring) : res jsstring :=
  match skip_json_ws text with
  | c :: t =>
      if c =? DQUOTE then
        match json_chars t with
        | Some (v, r) =>
            match skip_json_ws r with
            | [] => Ok v
            | _ :: _ => Throw SyntaxError
            end
        | None => Throw SyntaxError
        end
      else Throw SyntaxError
  | [] => Throw SyntaxError
  end.

(** [s.replace(/c/g, rep)] for a pattern that is one literal character. *)
Definition replace_char (c : N) (rep s : jsstring) : jsstring :=
  flat_map (fun x => if x =? c then rep else [x]) s.

(** Source lines 52-58. *)
Definition decodeJsEscapedString (maybeEscaped : jsstring) : res jsstring :=
  let safe :=
    replace_char DQUOTE [BACKSLASH; DQUOTE]
      (replace_char BACKSLASH [BACKSLASH; BACKSLASH] maybeEscaped) in
  JSON_parse ([DQUOTE] ++ safe ++ [DQUOTE]).

(** ** Regular expressions

    The patterns of the script use literal characters, character sets
    under [+] (greedy) and [*?] (lazy), alternation and one capturing
    group.  [m] is a backtracking matcher in continuation-passing style:
    the continuation receives the text left and the captures made so far,
    and a failing continuation makes the matcher try its next choice, in
    the order ECMAScript prescribes. *)

Inductive regex :=
| Lit (l : jsstring)                        (* literal characters *)
| PlusGreedy (neg : bool) (set : jsstring)  (* [set]+ or [^set]+ *)
| StarLazy (neg : bool) (set : jsstring)    (* [set]*? or [^set]*? *)
| Alt (a b : regex)                         (* a|b *)
| Cat (a b : regex)                         (* ab *)
| Group (a : regex).                        (* (a) *)

(** The dot under the [s] flag: every code unit. *)
Definition DotStarLazy : regex := StarLazy true [].

Section Matcher.
(** The [i] flag. *)
Variable ignoreCase : bool.

(** ECMAScript's Canonicalize, for patterns whose characters are all
    ASCII: under [i] a code unit is compared through its upper-case form,
    and no code unit above U+007F is equated with an ASCII one. *)
Definition canon (c : N) : N := if ignoreCase then upper_cu c else c.

Definition in_set (neg : bool) (set : jsstring) (c : N) : bool :=
  xorb neg (existsb (fun a => canon a =? canon c) set).

(** The text after the literal [l], when [s] starts with it. *)
Fixpoint eat (l s : jsstring) : option jsstring :=
  match l, s with
  | [], _ => Some s
  | _ :: _, [] => None
  | a :: l', b :: s' => if canon a =? canon b then eat l' s' else None
  end.

Context {R : Type}.

(** Greedy repetition: the longest run first, then shorter ones. *)
Fixpoint star_greedy (p : N -> bool) (s : jsstring)
    (k : jsstring -> option R) : option R :=
  match s with
  | c :: s' =>
      if p c then
        match star_greedy p s' k with
        | Some r => Some r
        | None => k s
        end
      else k s
  | [] => k s
  end.

(** Lazy repetition: the shortest run first, then longer ones. *)
Fixpoint star_lazy (p : N -> bool) (s : jsstring)
    (k : jsstring -> option R) : option R :=
  match k s with
  | Some r => Some r
  | None =>
      match s with
      | c :: s' => if p c then star_lazy p s' k else None
      | [] => None
      end
  end.

Fixpoint m (r : regex) (s : jsstring) (caps : list jsstring)
    (k : jsstring -> list jsstring -> option R) : option R :=
  match r with
  | Lit l =>
      match eat l s with
      | Some s' => k s' caps
      | None => None
      end
  | PlusGreedy neg set =>
      match s with
      | c :: s' =>
          if in_set neg set c
          then star_greedy (in_set neg set) s' (fun s'' => k s'' caps)
          else None
      | [] => None
      end
  | StarLazy neg set => star_lazy (in_set neg set) s (fun s'' => k s'' caps)
  | Alt a b =>
      match m a s caps k with
      | Some x => Some x
      | None => m b s caps k
      end
  | Cat a b => m a s caps (fun s' caps' => m b s' caps' k)
  | Group a =>
      m a s caps
        (fun s' caps' => k s' (caps' ++ [take (length s - length s')%nat s]))
  end.
End Matcher.

(** The array returned by a successful [match]: its [index], element 0
    (the matched text) and the captures. *)
Record match_result := {
  index : nat;
  whole : jsstring;
  groups : list jsstring
}.

(** The match that starts at the first code unit of [s], if any. *)
Definition match_here (ic : bool) (r : regex) (s : jsstring) (pos : nat)
    : option match_result :=
  m ic r s []
    (fun s' caps =>
       Some {| index := pos;
               whole := take (length s - length s')%nat s;
               groups := caps |}).

(** The leftmost match in [s], whose first code unit has index [pos]. *)
Fixpoint exec_from (ic : bool) (r : regex) (s : jsstring) (pos : nat)
    : option match_result :=
  match match_here ic r s pos with
  | Some mt => Some mt
  | None =>
      match s with
      | [] => None
      | _ :: s' => exec_from ic r s' (S pos)
      end
  end.

(** [s.match(r)] for a pattern without the [g] flag; [None] is [null]. *)
Definition str_match (ic : bool) (s : jsstring) (r : regex)
    : option match_result :=
  exec_from ic r s 0.

(** Element 1 of a match array, for a pattern whose group always takes
    part in a match. *)
Definition group1 (mt : match_result) : jsstring := nth 0 (groups mt) [].

(** ** The extractor (source lines 60-128) *)

Definition typeToPath (type : jsstring) : option jsstring :=
  if bool_decide (type = js "smoke") then Some (js "smokes")
  else if bool_decide (type = js "molotov") then Some (js "molotovs")
  else if bool_decide (type = js "flashbang") then Some (js "flashbangs")
  else if bool_decide (type = js "he") then Some (js "hes")
  else None.

Record NadeSummary := {
  id : jsstring;
  slug : jsstring;
  type : jsstring;
  team : option jsstring;
  titleFrom : option jsstring;
  titleTo : option jsstring
}.

(** A key between escaped quotes followed by a colon and the opening
    escaped quote of its value. *)
Definition key_open (k : string) : jsstring :=
  EQUOTE ++ js k ++ EQUOTE ++ js ":" ++ EQUOTE.

(** The class of the patterns that excludes the backslash and the double
    quote, under [+]. *)
Definition NOT_BS_DQ : regex := PlusGreedy true [BACKSLASH; DQUOTE].

Definition idNeedle : jsstring := key_open "id" ++ js "nade_".

Definition idRe : regex :=
  Cat (Lit (key_open "id"))
    (Cat (Group (Cat (Lit (js "nade_")) NOT_BS_DQ)) (Lit EQUOTE)).

Definition slugRe : regex :=
  Cat (Lit (key_open "id" ++ js "nade_"))
    (Cat NOT_BS_DQ
       (Cat (Lit (EQUOTE ++ js "," ++ key_open "slug"))
          (Cat (Group NOT_BS_DQ) (Lit EQUOTE)))).

Definition typeRe : regex :=
  Cat (Lit (key_open "type"))
    (Cat (Group (Alt (Lit (js "smoke"))
                   (Alt (Lit (js "molotov"))
                      (Alt (Lit (js "flashbang")) (Lit (js "he"))))))
       (Lit EQUOTE)).

Definition teamRe : regex :=
  Cat (Lit (key_open "team"))
    (Cat (Group (Alt (Lit (js "ct")) (Lit (js "t")))) (Lit EQUOTE)).

Definition titleFromRe : regex :=
  Cat (Lit (key_open "titleFrom")) (Cat (Group NOT_BS_DQ) (Lit EQUOTE)).

Definition titleToRe : regex :=
  Cat (Lit (key_open "titleTo")) (Cat (Group NOT_BS_DQ) (Lit EQUOTE)).

(** The [while (true)] loop of lines 82-87.  Every iteration moves [idx]
    past a found occurrence, so [S (length html)] iterations are never
    exhausted (lemma [scan_starts_fuel]). *)
Fixpoint scan_starts (fuel : nat) (html : jsstring) (idx : nat) : list nat :=
  match fuel with
  | O => []
  | S fuel' =>
      match indexOf html idNeedle idx with
      | None => []
      | Some found =>
          found :: scan_starts fuel' html (found + length idNeedle)%nat
      end
  end.

Definition starts_of (html : jsstring) : list nat :=
  scan_starts (S (length html)) html 0.

(** The spans: from each start to the next one, the last to the end. *)
Fixpoint chunks_of (html : jsstring) (starts : list nat) : list jsstring :=
  match starts with
  | [] => []
  | start :: rest =>
      let end_ := match rest with
                  | next :: _ => next
                  | [] => length html
                  end in
      slice html start end_ :: chunks_of html rest
  end.

(** Body of the [for] loop of lines 90-112 for one span: [None] is the
    [continue] of line 98. *)
Definition parse_chunk (chunk : jsstring) : option NadeSummary :=
  match str_match false chunk idRe, str_match false chunk slugRe,
        str_match false chunk typeRe with
  | Some idMatch, Some slugMatch, Some typeMatch =>
      Some {| id := group1 idMatch;
              slug := group1 slugMatch;
              type := group1 typeMatch;
              team := option_map group1 (str_match false chunk teamRe);
              titleFrom :=
                option_map group1 (str_match false chunk titleFromRe);
              titleTo := option_map group1 (str_match false chunk titleToRe) |}
  | _, _, _ => None
  end.

Fixpoint collect (chunks : list jsstring) : list NadeSummary :=
  match chunks with
  | [] => []
  | chunk :: rest =>
      match parse_chunk chunk with
      | Some nade => nade :: collect rest
      | None => collect rest
      end
  end.

(** The key of line 117. *)
Definition key_of (nade : NadeSummary) : jsstring :=
  type nade ++ js ":" ++ slug nade.

(** The [filter] of lines 115-121, threading the set [seen]. *)
Fixpoint dedupe_from (seen : gset jsstring) (nades : list NadeSummary)
    : list NadeSummary :=
  match nades with
  | [] => []
  | nade :: rest =>
      let key := key_of nade in
      if decide (key ∈ seen) then dedupe_from seen rest
      else nade :: dedupe_from ({[key]} ∪ seen) rest
  end.

Definition dedupe (nades : list NadeSummary) : list NadeSummary :=
  dedupe_from ∅ nades.

Definition extractNadesFromMapHtml (html : jsstring) : list NadeSummary :=
  dedupe (collect (chunks_of html (starts_of html))).

Definition consoleRe : regex :=
  Cat (Lit (key_open "console")) (Cat (Group DotStarLazy) (Lit EQUOTE)).

Definition extractConsoleFromNadeHtml (html : jsstring)
    : res (option jsstring) :=
  match str_match false html consoleRe with
  | None => Ok None
  | Some mt =>
      try! v := decodeJsEscapedString (group1 mt) in Ok (Some v)
  end.

(** ** The limiter (source lines 130-158)

    [pLimit(limit)] closes over the counter [active] and the array [queue].
    A submitted function is represented by the outcome its promise settles
    with once it runs; the wrapper of lines 149-155 passes that outcome to
    the [resolve] or [reject] of the promise [limiter] returned, identified
    here by its position [slot] in submission order.  [running] lists the
    jobs started by [next] whose [finally] callback has not run yet. *)

Section Limiter.
Context {A : Type}.
Variable limit : Z.

Record job := { slot : nat; fn : res A }.

Record sched := {
  active : Z;
  queue : list job;
  running : list job;
  promises : list (option (res A))   (* [None]: still pending *)
}.

Definition pLimit : sched :=
  {| active := 0; queue := []; running := []; promises := [] |}.

(** Lines 134-145, up to the call [job()]. *)
Definition next (st : sched) : sched :=
  if (limit <=? active st)%Z then st
  else match queue st with
       | [] => st
       | j :: q =>
           {| active := active st + 1;
              queue := q;
              running := running st ++ [j];
              promises := promises st |}
       end.

(** Lines 147-157: the call [limiter(fn)]. *)
Definition limiter (f : res A) (st : sched) : sched :=
  next {| active := active st;
          queue := queue st ++ [{| slot := length (promises st); fn := f |}];
          running := running st;
          promises := promises st ++ [None] |}.

(** The [k]-th running job settles: its promise takes the outcome, then
    the [finally] callback of lines 141-144 runs. *)
Definition settle (k : nat) (st : sched) : option sched :=
  match running st !! k with
  | None => None
  | Some j =>
      Some (next {| active := active st - 1;
                    queue := queue st;
                    running := delete k (running st);
                    promises := <[slot j := Some (fn j)]> (promises st) |})
  end.

(** The events of a limiter: a call of [limiter] and the settlement of
    a running job.  [run] is [None] when an event names a job that is
    not running. *)
Inductive event :=
| Submit (f : res A)
| Settle (k : nat).

Definition step (e : event) (st : sched) : option sched :=
  match e with
  | Submit f => Some (limiter f st)
  | Settle k => settle k st
  end.

Fixpoint run (evs : list event) (st : sched) : option sched :=
  match evs with
  | [] => Some st
  | e :: evs' =>
      match step e st with
      | Some st' => run evs' st'
      | None => None
      end
  end.

(** What the caller's [await Promise.all(...)] observes. *)
Inductive awaited :=
| Resolved (values : list A)
| Rejected (e : exn)
| Pending.

Fixpoint fulfilled (ps : list (option (res A))) : option (list A) :=
  match ps with
  | [] => Some []
  | Some (Ok a) :: ps' =>
      match fulfilled ps' with
      | Some l => Some (a :: l)
      | None => None
      end
  | _ :: _ => None
  end.

(** [Promise.all] over the promises of the limiter, the environment
    choosing which running job settles next ([c] selects among the
    running jobs).  The first rejection rejects the aggregate; it
    resolves, in slot order, when every promise is fulfilled. *)
Fixpoint await_all (choices : list nat) (st : sched) : awaited :=
  match fulfilled (promises st) with
  | Some values => Resolved values
  | None =>
      match choices with
      | [] => Pending
      | c :: cs =>
          let k := (c mod length (running st))%nat in
          match running st !! k, settle k st with
          | Some j, Some st' =>
              match fn j with
              | Throw e => Rejected e
              | Ok _ => await_all cs st'
              end
          | _, _ => Pending
          end
      end
  end.

(** [Promise.all(fns.map((f) => limiter(f)))]: every function is
    submitted before any of them settles. *)
Definition submit_all (fns : list (res A)) : sched :=
  fold_left (fun st f => limiter f st) fns pLimit.

Definition promise_all (fns : list (res A)) (choices : list nat) : awaited :=
  await_all choices (submit_all fns).
End Limiter.

Arguments job : clear implicits.
Arguments sched : clear implicits.
Arguments awaited : clear implicits.
Arguments event : clear implicits.

(** ** Rendering helpers *)

(** [s.replace(/\s+/g, " ")]: every maximal run of white space becomes one
    space.  [in_run] tells that the previous code unit was white space. *)
Fixpoint collapse_spaces (in_run : bool) (s : jsstring) : jsstring :=
  match s with
  | [] => []
  | c :: s' =>
      if is_space c
      then if in_run then collapse_spaces true s'
           else 32 :: collapse_spaces true s'
      else c :: collapse_spaces false s'
  end.

(** Source lines 160-162. *)
Definition sanitizeComment (s : option jsstring) : jsstring :=
  trim (collapse_spaces false (default [] s)).

(** Truthiness of a string and of a string-or-null value. *)
Definition nonempty (s : jsstring) : bool :=
  match s with
  | [] => false
  | _ :: _ => true
  end.

Definition truthy (o : option jsstring) : bool :=
  match o with
  | Some s => nonempty s
  | None => false
  end.

(** The pattern of line 234, matched under the [i] flag.  Its two classes
    are written with doubled backslashes, so they exclude the backslash and
    the letters r and n rather than the carriage return and line feed. *)
Definition pairRe : regex :=
  Cat (Lit (js "setpos "))
    (Cat (PlusGreedy true
            (js ";" ++ [BACKSLASH] ++ js "r" ++ [BACKSLASH] ++ js "n"))
       (Cat (Lit (js ";setang "))
          (PlusGreedy true
             ([BACKSLASH] ++ js "r" ++ [BACKSLASH] ++ js "n")))).

Record NadeResult := {
  nade : NadeSummary;
  console : option jsstring;
  error : option jsstring;
  url : option jsstring
}.

(** Lines 216-221. *)
Definition label_of (r : NadeResult) : jsstring :=
  let titleFrom := sanitizeComment (titleFrom (nade r)) in
  let titleTo := sanitizeComment (titleTo (nade r)) in
  let team := match team (nade r) with
              | Some t => if nonempty t then toUpperCase t else js "ANY"
              | None => js "ANY"
              end in
  join (js " | ")
    (filter (fun s => nonempty s = true)
       [type (nade r); team;
        if nonempty titleFrom && nonempty titleTo
        then titleFrom ++ js " -> " ++ titleTo
        else slug (nade r)]).

(** Lines 233-235. *)
Definition command_line (c : jsstring) : jsstring :=
  match str_match true c pairRe with
  | Some mt => whole mt
  | None => trim c
  end.

(** The lines pushed by one iteration of the loop of lines 215-237. *)
Definition block_of (r : NadeResult) : list jsstring :=
  [js "// " ++ label_of r]
  ++ (match url r with
      | Some u => if nonempty u then [js "// " ++ u] else []
      | None => []
      end)
  ++ (if truthy (console r)
      then [command_line (default [] (console r)); []]
      else [js "// MISSING_CONSOLE"; []]).

(** The loop of lines 214-237: the lines and the counter [missing]. *)
Fixpoint render_loop (results : list NadeResult) (lines : list jsstring)
    (missing : nat) : list jsstring * nat :=
  match results with
  | [] => (lines, missing)
  | r :: rest =>
      render_loop rest (lines ++ block_of r)
        (if truthy (console r) then missing else S missing)
  end.

(** ** [encodeURIComponent] *)

Definition unreserved (c : N) : bool :=
  ((65 <=? c) && (c <=? 90)) || ((97 <=? c) && (c <=? 122))
  || ((48 <=? c) && (c <=? 57))
  || existsb (N.eqb c) (js "-_.!~*'()").

Definition hex_digit (n : N) : N :=
  if n <? 10 then 48 + n else 55 + n.

Definition percent (byte : N) : jsstring :=
  [37; hex_digit (byte / 16); hex_digit (byte mod 16)].

Definition utf8 (cp : N) : list N :=
  if cp <? 128 then [cp]
  else if cp <? 2048 then [192 + cp / 64; 128 + cp mod 64]
  else if cp <? 65536 then
    [224 + cp / 4096; 128 + (cp / 64) mod 64; 128 + cp mod 64]
  else [240 + cp / 262144; 128 + (cp / 4096) mod 64;
        128 + (cp / 64) mod 64; 128 + cp mod 64].

Definition is_high (c : N) : bool := (55296 <=? c) && (c <=? 56319).
Definition is_low (c : N) : bool := (56320 <=? c) && (c <=? 57343).

(** [None] is the URIError raised on a lone surrogate. *)
Fixpoint encodeURIComponent (s : jsstring) : option jsstring :=
  match s with
  | [] => Some []
  | c :: s' =>
      if unreserved c then option_map (cons c) (encodeURIComponent s')
      else if is_low c then None
      else if is_high c then
        match s' with
        | d :: s'' =>
            if is_low d then
              option_map
                (app (flat_map percent
                        (utf8 ((c - 55296) * 1024 + (d - 56320) + 65536))))
                (encodeURIComponent s'')
            else None
        | [] => None
        end
      else option_map (app (flat_map percent (utf8 c))) (encodeURIComponent s')
  end.

Definition encode (s : jsstring) : res jsstring :=
  match encodeURIComponent s with
  | Some e => Ok e
  | None => Throw (Error (js "URIError: URI malformed"))
  end.

(** ** [main] (source lines 164-242)

    The command line is taken as parsed: [baseUrl] without trailing
    slashes, [limitArg] and [maxArg] the values of [Number.parseInt]
    ([None] for NaN), [maxArg] being absent when the flag is.  The
    network is a function from URLs to the outcome of [fetchText]; the
    environment also chooses the order in which the running fetches
    complete.  Progress messages are not modelled. *)

Record config := {
  baseUrl : jsstring;
  mapSlug : jsstring;
  outPath : jsstring;
  limitArg : option Z;
  maxArg : option (option Z)
}.

(** What a run that reaches line 239 hands to [writeFile], and the report
    of line 241. *)
Record output := {
  out_path : jsstring;
  out_data : jsstring;
  out_missing : option jsstring
}.

(** [Number.parseInt(...) || d]: NaN and 0 are falsy. *)
Definition or_default (parsed : option Z) (d : Z) : Z :=
  match parsed with
  | Some n => if (n =? 0)%Z then d else n
  | None => d
  end.

Section Main.
Variable fetchText : jsstring -> res jsstring.
Variable cfg : config.

Definition the_limit : Z := Z.max 1 (or_default (limitArg cfg) 6).

Definition the_max : option Z :=
  option_map (fun p => Z.max 1 (or_default p 1)) (maxArg cfg).

(** The function passed to [limiter] at lines 193-205. *)
Definition fetch_job (n : NadeSummary) : res NadeResult :=
  match typeToPath (type n) with
  | None =>
      Ok {| nade := n; console := None;
            error := Some (js "Unknown type: " ++ type n);
            url := None |}
  | Some typePath =>
      try! m := encode (mapSlug cfg) in
      try! s := encode (slug n) in
      let nadeUrl :=
        baseUrl cfg ++ js "/" ++ m ++ js "/" ++ typePath ++ js "/" ++ s in
      try! html := fetchText nadeUrl in
      try! consoleText := extractConsoleFromNadeHtml html in
      Ok {| nade := n; console := consoleText; error := None;
            url := Some nadeUrl |}
  end.

Definition render (results : list NadeResult) : output :=
  let header :=
    [js "// Generated from " ++ baseUrl cfg ++ js "/" ++ mapSlug cfg;
     js "// Total nades: " ++ string_of_nat (length results);
     []] in
  let '(lines, missing) := render_loop results header 0 in
  {| out_path := outPath cfg;
     out_data := join [LF] lines;
     out_missing :=
       match missing with
       | O => None
       | S _ => Some (js "Missing console: " ++ string_of_nat missing)
       end |}.

(** Lines 174-184: the records that will be scheduled. *)
Definition discover : res (list NadeSummary) :=
  try! m := encode (mapSlug cfg) in
  let mapUrl := baseUrl cfg ++ js "/" ++ m in
  try! mapHtml := fetchText mapUrl in
  let allNades := extractNadesFromMapHtml mapHtml in
  let nades := match the_max with
               | Some mx => take (Z.to_nat mx) allNades
               | None => allNades
               end in
  match nades with
  | [] =>
      Throw (Error (js "Could not find any nades on " ++ mapUrl
                    ++ js ". The site layout may have changed."))
  | _ :: _ => Ok nades
  end.

(** The outcome of the promise [main()], whose rejection the handler of
    lines 244-247 turns into exit status 1.  [None] stands for a run
    whose fetches never all complete. *)
Definition main (choices : list nat) : option (res output) :=
  match discover with
  | Throw e => Some (Throw e)
  | Ok nades =>
      match promise_all the_limit (map fetch_job nades) choices with
      | Resolved results => Some (Ok (render results))
      | Rejected e => Some (Throw e)
      | Pending => None
      end
  end.
End Main.

(** ** The command line (source lines 6-24 and 165-167)

    The object [args] is the finite map of its own properties; none of the
    properties the script reads ([_], [map], [base], [out], [limit], [max])
    is inherited from [Object.prototype].  A property holds [true], a
    string, or the array of positional tokens. *)

Inductive argval :=
| VTrue
| VStr (s : jsstring)
| VArr (l : list jsstring).

Abbreviation args := (gmap jsstring argval).

(** [token.startsWith("--")]. *)
Definition is_flag (token : jsstring) : bool := starts_with (js "--") token.

(** [args[key] = v] for [v] a string or [true]: the setter of
    [Object.prototype.__proto__] ignores a value that is not an object, any
    other key becomes an own property. *)
Definition set_prop (key : jsstring) (v : argval) (o : args) : args :=
  if bool_decide (key = js "__proto__") then o else <[key := v]> o.

(** The loop of lines 8-22, from the token at hand on.  [None] is the
    TypeError of [args._.push] once [_] is no longer the array. *)
Fixpoint parseArgs_from (argv : list jsstring) (o : args) : option args :=
  match argv with
  | [] => Some o
  | token :: rest =>
      if is_flag token then
        let key := drop 2 token in
        match rest with
        | value :: rest' =>
            if is_flag value
            then parseArgs_from rest (set_prop key VTrue o)
            else parseArgs_from rest' (set_prop key (VStr value) o)
        | [] => parseArgs_from rest (set_prop key VTrue o)
        end
      else
        match o !! js "_" with
        | Some (VArr l) =>
            parseArgs_from rest (<[js "_" := VArr (l ++ [token])]> o)
        | _ => None
        end
  end.

Definition parseArgs (argv : list jsstring) : option args :=
  parseArgs_from argv {[ js "_" := VArr [] ]}.

(** How [main] gets past its first lines. *)
Inductive startup (A : Type) :=
| Started (a : A)
| UsageExit          (* [usageAndExit(1)] *)
| TypeErr.           (* a TypeError is thrown *)

Arguments Started {A} a.
Arguments UsageExit {A}.
Arguments TypeErr {A}.

(** Lines 166-167: [args.map ?? args._[0]], which must be a string that is
    not empty. *)
Definition mapSlug_of (o : args) : startup jsstring :=
  match o !! js "map" with
  | Some (VStr s) => if nonempty s then Started s else UsageExit
  | Some _ => UsageExit
  | None =>
      match o !! js "_" with
      | Some (VArr (s :: _)) => if nonempty s then Started s else UsageExit
      | Some (VArr []) => UsageExit
      | Some (VStr (c :: _)) => Started [c]
      | Some (VStr []) => UsageExit
      | Some VTrue => UsageExit
      | None => TypeErr
      end
  end.

(** ** Notions the properties are stated with *)

(** What a pattern matches: [matches ic r w caps] says that [r] matches the
    text [w] and records the captures [caps]. *)
Inductive matches (ic : bool) : regex -> jsstring -> list jsstring -> Prop :=
| M_Lit l w :
    eat ic l w = Some [] ->
    matches ic (Lit l) w []
| M_Plus neg set c w :
    in_set ic neg set c = true ->
    forallb (in_set ic neg set) w = true ->
    matches ic (PlusGreedy neg set) (c :: w) []
| M_Star neg set w :
    forallb (in_set ic neg set) w = true ->
    matches ic (StarLazy neg set) w []
| M_AltL a b w caps :
    matches ic a w caps ->
    matches ic (Alt a b) w caps
| M_AltR a b w caps :
    matches ic b w caps ->
    matches ic (Alt a b) w caps
| M_Cat a b w1 w2 c1 c2 :
    matches ic a w1 c1 ->
    matches ic b w2 c2 ->
    matches ic (Cat a b) (w1 ++ w2) (c1 ++ c2)
| M_Group a w caps :
    matches ic a w caps ->
    matches ic (Group a) w (caps ++ [w]).

(** The element at index [p.1] is the first of the sequence with its key:
    no element before it has the same key. *)
Definition first_of_its_key (l : list NadeSummary)
    (p : nat * NadeSummary) : Prop :=
  Forall (fun n' => key_of n' <> key_of p.2) (take p.1 l).

#[global] Instance first_of_its_key_dec l p : Decision (first_of_its_key l p).
Proof. unfold first_of_its_key. apply _. Defined.

(** The elements of [l] that are the first with their key, in order. *)
Definition first_occurrences (l : list NadeSummary) : list NadeSummary :=
  (filter (first_of_its_key l) (imap pair l)).*2.

(** [needle] occurs in [s] at offset [q]. *)
Definition occurs_at (needle s : jsstring) (q : nat) : Prop :=
  exists pre post, s = pre ++ needle ++ post /\ length pre = q.

(** The escaping the specification attributes to the source website: a
    line feed becomes backslash, n and a double quote becomes backslash,
    double quote. *)
Definition escape_like_source (s : jsstring) : jsstring :=
  flat_map (fun c => if c =? LF then [BACKSLASH; 110]
                     else if c =? DQUOTE then [BACKSLASH; DQUOTE]
                     else [c]) s.

(** Code units U+0000 to U+001F. *)
Definition is_control (c : N) : bool := c <? 32.

(** The two replacements of line 56 seen as one pass over the input. *)
Definition escape1 (c : N) : jsstring :=
  if c =? BACKSLASH then [BACKSLASH; BACKSLASH]
  else if c =? DQUOTE then [BACKSLASH; DQUOTE]
  else [c].

(** Printable characters, double quotes and line feeds. *)
Definition source_char (c : N) : bool := (32 <=? c) || (c =? LF).

(** A character [escape_like_source] leaves as it is. *)
Definition unescaped_char (c : N) : bool :=
  negb (c =? LF) && negb (c =? DQUOTE).

(** *** Invariants of the limiter *)

(** The jobs that have not settled: waiting or running. *)
Abbreviation jobs st := (queue st ++ running st).

(** The counter agrees with the set of running jobs, never exceeds the
    limit, and jobs wait only while the limiter is full. *)
Definition ceiling {A : Type} (limit : Z) (st : sched A) : Prop :=
  active st = Z.of_nat (length (running st))
  /\ (active st <= limit)%Z
  /\ (queue st <> [] -> active st = limit).

(** [tracks fns st]: the promises of [st] are those of the submitted
    functions [fns]; waiting and running jobs carry their function, a
    settled promise holds the outcome of its function, and a pending
    promise still has its job. *)
Definition tracks {A : Type} (fns : list (res A)) (st : sched A) : Prop :=
  length (promises st) = length fns
  /\ (forall j, j ∈ jobs st -> fns !! slot j = Some (fn j))
  /\ (forall i r, promises st !! i = Some (Some r) -> fns !! i = Some r)
  /\ (forall i, promises st !! i = Some None ->
                exists j, j ∈ jobs st /\ slot j = i).

(** No promise of the limiter has been rejected so far. *)
Definition unrejected {A : Type} (st : sched A) : Prop :=
  forall i e, promises st !! i <> Some (Some (Throw e)).

(** *** Records, labels and command lines *)

(** The known grenade types. *)
Definition known_type (t : jsstring) : Prop :=
  t = js "smoke" \/ t = js "molotov" \/ t = js "flashbang" \/ t = js "he".

(** A non-empty text without backslash or double quote. *)
Definition plain_value (v : jsstring) : Prop :=
  v <> [] /\ forallb (in_set false true [BACKSLASH; DQUOTE]) v = true.

(** [text] is a part of [s]. *)
Definition part_of (text s : jsstring) : Prop :=
  exists pre post, s = pre ++ text ++ post.

(** The span holds a match of the pattern. *)
Definition yields (r : regex) (chunk : jsstring) : Prop :=
  exists w caps, part_of w chunk /\ matches false r w caps.

(** The number of results without console text. *)
Definition missing_count (results : list NadeResult) : nat :=
  length (filter (fun r => truthy (console r) = false) results).







(** *** The anchor scan *)

(** Every offset of the list lies at least the length of the anchor after
    the offsets before it. *)
Fixpoint spaced (l : list nat) : Prop :=
  match l with
  | [] => True
  | a :: rest =>
      Forall (fun b => (a + length idNeedle <= b)%nat) rest /\ spaced rest
  end.

(** The span starts with the anchor and holds it nowhere else. *)
Definition anchored (chunk : jsstring) : Prop :=
  (exists rest, chunk = idNeedle ++ rest)
  /\ forall q, occurs_at idNeedle chunk q -> q = 0%nat.

(** *** Comment texts *)

(** The form of a sanitized comment text: its only white space is the
    character U+0020, never twice in a row, neither first nor last. *)
Definition comment_form (s : jsstring) : Prop :=
  (forall c, c ∈ s -> is_space c = true -> c = 32%N)
  /\ ~ part_of [32%N; 32%N] s
  /\ (forall t, s <> 32%N :: t)
  /\ (forall t, s <> t ++ [32%N]).

(** The same without the condition on the last character, as a check
    from left to right; [after_space] tells that a space may not come
    next. *)
Fixpoint tight (after_space : bool) (s : jsstring) : bool :=
  match s with
  | [] => true
  | c :: s' =>
      if is_space c
      then (c =? 32)%N && negb after_space && tight true s'
      else tight false s'
  end.

(** *** The order of the limiter *)

(** First in, first out: the waiting jobs are the last ones submitted, in
    the order of submission; the running jobs are listed in the order of
    submission too, and each of them was submitted before every waiting
    job. *)
Definition fifo {A : Type} (st : sched A) : Prop :=
  let waiting := length (queue st) in
  let first := (length (promises st) - waiting)%nat in
  (waiting <= length (promises st))%nat
  /\ slot <$> queue st = seq first waiting
  /\ StronglySorted lt (slot <$> running st)
  /\ Forall (fun j => (slot j < first)%nat) (running st).

(** The promise of a job that is running or waiting is pending. *)
Definition pending_jobs {A : Type} (st : sched A) : Prop :=
  forall j, j ∈ running st ++ queue st -> promises st !! slot j = Some None.

(** *** Command lines *)

(** The command line is not cut between an option and its value: if [a]
    ends with an option, [b] does not start with a value. *)
Definition clean_cut (a b : list jsstring) : Prop :=
  forall f v,
    last a = Some f -> head b = Some v -> is_flag f = true ->
    is_flag v = true.

(** [args._.push(t)]. *)
Definition push_positional (t : jsstring) (o : args) : option args :=
  match o !! js "_" with
  | Some (VArr l) => Some (<[js "_" := VArr (l ++ [t])]> o)
  | _ => None
  end.

(** *** Addresses *)

(** A text of UTF-16 code units. *)
Definition code_units (s : jsstring) : Prop :=
  Forall (fun c => (c < 65536)%N) s.

(** A character that [encodeURIComponent] leaves as it is, or the percent
    sign. *)
Definition url_safe (c : N) : Prop := unreserved c = true \/ c = 37%N.

(** *** Spans and the records read in them *)





(** *** The first pair of a console text *)


(** *** The words of a title *)





(** ** Sample inputs

    The scenario of the specification: a listing with a smoke record of
    slug a and team t and a flashbang record of slug b without team; the
    detail page of a carries a console value, the one of b does not. *)

Definition record_text (i s t : string) : jsstring :=
  key_open "id" ++ js i ++ EQUOTE ++ js "," ++ key_open "slug" ++ js s ++ EQUOTE
  ++ js "," ++ key_open "type" ++ js t ++ EQUOTE.

Definition listing : jsstring :=
  js "<script>[{" ++ record_text "nade_01" "a" "smoke" ++ js ","
  ++ key_open "team" ++ js "t" ++ EQUOTE ++ js "},{"
  ++ record_text "nade_02" "b" "flashbang" ++ js "}]</script>".

Definition detail_a : jsstring :=
  js "<script>{" ++ key_open "console" ++ js "setpos 1 2 3;setang 4 5 6"
  ++ EQUOTE ++ js "}</script>".

Definition detail_b : jsstring := js "<script>{}</script>".

(** A detail page whose console value holds a raw line feed. *)
Definition detail_raw_lf : jsstring :=
  js "<script>{" ++ key_open "console" ++ js "setpos 1 2 3;" ++ [LF]
  ++ js "setang 4 5 6" ++ EQUOTE ++ js "}</script>".

Definition sample_cfg : config :=
  {| baseUrl := js "https://csnades.gg";
     mapSlug := js "mirage";
     outPath := js "mirage.cfg";
     limitArg := Some 6%Z;
     maxArg := None |}.

Definition not_found (u : jsstring) : res jsstring :=
  Throw (Error (js "HTTP 404 Not Found for " ++ u)).

(** Every page is served. *)
Definition net_ok (u : jsstring) : res jsstring :=
  if bool_decide (u = js "https://csnades.gg/mirage") then Ok listing
  else if bool_decide (u = js "https://csnades.gg/mirage/smokes/a")
  then Ok detail_a
  else if bool_decide (u = js "https://csnades.gg/mirage/flashbangs/b")
  then Ok detail_b
  else not_found u.

(** The detail page of b cannot be fetched. *)
Definition net_b_down (u : jsstring) : res jsstring :=
  if bool_decide (u = js "https://csnades.gg/mirage") then Ok listing
  else if bool_decide (u = js "https://csnades.gg/mirage/smokes/a")
  then Ok detail_a
  else not_found u.

(** The console value of a holds a raw line feed. *)
Definition net_a_raw_lf (u : jsstring) : res jsstring :=
  if bool_decide (u = js "https://csnades.gg/mirage") then Ok listing
  else if bool_decide (u = js "https://csnades.gg/mirage/smokes/a")
  then Ok detail_raw_lf
  else if bool_decide (u = js "https://csnades.gg/mirage/flashbangs/b")
  then Ok detail_b
  else not_found u.









Definition nade_a : NadeSummary :=
  {| id := js "nade_01"; slug := js "a"; type := js "smoke";
     team := Some (js "t"); titleFrom := None; titleTo := None |}.

Definition nade_b : NadeSummary :=
  {| id := js "nade_02"; slug := js "b"; type := js "flashbang";
     team := None; titleFrom := None; titleTo := None |}.

(* ===================================================================== *)
(** * Part II: properties                                                 *)
(* ===================================================================== *)

(** ** The unescaper *)

Lemma replace_char_app c rep s1 s2 :
  replace_char c rep (s1 ++ s2)
  = replace_char c rep s1 ++ replace_char c rep s2.
Proof. unfold replace_char. apply flat_map_app. Qed.

Lemma safe_one_pass s :
  replace_char DQUOTE [BACKSLASH; DQUOTE]
    (replace_char BACKSLASH [BACKSLASH; BACKSLASH] s)
  = flat_map escape1 s.
Proof.
  induction s as [|c s IH]; [reflexivity|].
  change (replace_char BACKSLASH [BACKSLASH; BACKSLASH] (c :: s))
    with ((if c =? BACKSLASH then [BACKSLASH; BACKSLASH] else [c])
          ++ replace_char BACKSLASH [BACKSLASH; BACKSLASH] s).
  rewrite replace_char_app, IH. cbn [flat_map]. f_equal.
  unfold escape1. destruct (N.eqb_spec c BACKSLASH) as [->|Hb]; [reflexivity|].
  cbn. destruct (c =? DQUOTE); reflexivity.
Qed.

Lemma json_chars_escaped s rest :
  json_chars (flat_map escape1 s ++ DQUOTE :: rest)
  = if existsb is_control s then None else Some (s, rest).
Proof.
  induction s as [|c s IH]; [reflexivity|].
  cbn [flat_map existsb]. unfold escape1 at 1.
  destruct (N.eqb_spec c BACKSLASH) as [->|Hb].
  { cbn [app].
    change (json_chars
              (BACKSLASH :: BACKSLASH :: flat_map escape1 s ++ DQUOTE :: rest))
      with (match json_chars (flat_map escape1 s ++ DQUOTE :: rest) with
            | Some (v, r) => Some (BACKSLASH :: v, r)
            | None => None
            end).
    rewrite IH. cbn. destruct (existsb is_control s); reflexivity. }
  destruct (N.eqb_spec c DQUOTE) as [->|Hq].
  { cbn [app].
    change (json_chars
              (BACKSLASH :: DQUOTE :: flat_map escape1 s ++ DQUOTE :: rest))
      with (match json_chars (flat_map escape1 s ++ DQUOTE :: rest) with
            | Some (v, r) => Some (DQUOTE :: v, r)
            | None => None
            end).
    rewrite IH. cbn. destruct (existsb is_control s); reflexivity. }
  cbn [app json_chars].
  destruct (N.eqb_spec c DQUOTE) as [?|_]; [contradiction|].
  destruct (N.eqb_spec c BACKSLASH) as [?|_]; [contradiction|].
  unfold is_control at 1. destruct (c <? 32); [reflexivity|].
  rewrite IH. cbn. destruct (existsb is_control s); reflexivity.
Qed.

Lemma decodeJsEscapedString_spec s :
  decodeJsEscapedString s
  = if existsb is_control s then Throw SyntaxError else Ok s.
Proof.
  unfold decodeJsEscapedString. rewrite safe_one_pass.
  unfold JSON_parse. cbn [app skip_json_ws].
  change (json_ws DQUOTE) with false. cbn iota.
  change (DQUOTE =? DQUOTE) with true. cbn iota.
  rewrite json_chars_escaped.
  destruct (existsb is_control s); reflexivity.
Qed.

(** C10: on an input without control characters [decodeJsEscapedString]
    is the identity, so the two characters backslash, n stay two
    characters and do not become a line feed; on an input with a control
    character (U+0000 to U+001F) the decoding throws. *)
Theorem decode_is_identity_or_throws :
  (forall s : jsstring,
      decodeJsEscapedString s
      = if existsb is_control s then Throw SyntaxError else Ok s)
  /\ decodeJsEscapedString [BACKSLASH; 110] = Ok [BACKSLASH; 110]
  /\ decodeJsEscapedString [BACKSLASH; 110] <> Ok [LF]
  /\ decodeJsEscapedString [LF] = Throw SyntaxError.
Proof.
  split; [exact decodeJsEscapedString_spec|].
  rewrite !decodeJsEscapedString_spec. cbn. repeat split; discriminate.
Qed.

Lemma escape_like_source_no_control s :
  forallb source_char s = true ->
  existsb is_control (escape_like_source s) = false.
Proof.
  induction s as [|c s IH]; [reflexivity|].
  cbn [forallb]. intros [Hc Hs]%andb_prop.
  unfold escape_like_source in *. cbn [flat_map].
  rewrite existsb_app, (IH Hs), orb_false_r.
  destruct (N.eqb_spec c LF) as [->|Hn]; [reflexivity|].
  destruct (N.eqb_spec c DQUOTE) as [->|Hq]; [reflexivity|].
  cbn. unfold source_char in Hc. unfold is_control.
  apply orb_prop in Hc as [Hc|Hc].
  - apply N.leb_le in Hc. rewrite orb_false_r. apply N.ltb_ge. exact Hc.
  - apply N.eqb_eq in Hc. contradiction.
Qed.

Lemma escape_like_source_fixed s :
  escape_like_source s = s <-> forallb unescaped_char s = true.
Proof.
  unfold escape_like_source.
  induction s as [|c s IH]; [split; reflexivity|].
  cbn [flat_map forallb]. unfold unescaped_char at 1.
  destruct (N.eqb_spec c LF) as [->|Hn]; [split; discriminate|].
  destruct (N.eqb_spec c DQUOTE) as [->|Hq]; [split; discriminate|].
  cbn [negb andb app]. rewrite <- IH. split.
  - intros [= H]. exact H.
  - intros ->. reflexivity.
Qed.

(** C3: the round trip of the specification fails.  On a string of
    printable characters, quotes and line feeds the unescaper returns the
    escaped form itself, which is the original string only when there was
    nothing to escape; for the string a, line feed, b it returns the four
    characters a, backslash, n, b. *)
Theorem unescape_round_trip_fails :
  (forall s : jsstring,
      forallb source_char s = true ->
      decodeJsEscapedString (escape_like_source s)
      = Ok (escape_like_source s)
      /\ (decodeJsEscapedString (escape_like_source s) = Ok s
          <-> forallb unescaped_char s = true))
  /\ decodeJsEscapedString (escape_like_source [97; LF; 98])
     = Ok [97; BACKSLASH; 110; 98]
  /\ decodeJsEscapedString (escape_like_source [97; LF; 98])
     <> Ok [97; LF; 98]
  /\ decodeJsEscapedString (escape_like_source [97; DQUOTE; 98])
     <> Ok [97; DQUOTE; 98].
Proof.
  split.
  - intros s Hs. rewrite decodeJsEscapedString_spec.
    rewrite (escape_like_source_no_control s Hs).
    split; [reflexivity|]. rewrite <- escape_like_source_fixed.
    split; [intros [= H]; exact H|intros ->; reflexivity].
  - rewrite !decodeJsEscapedString_spec. cbn. repeat split; discriminate.
Qed.

Lemma unescape_round_trip_fails_witness :
  forallb source_char [97; LF; 98] = true
  /\ decodeJsEscapedString (escape_like_source [97; LF; 98])
     = Ok (escape_like_source [97; LF; 98]).
Proof.
  split; [reflexivity|].
  apply (proj1 unescape_round_trip_fails [97; LF; 98] eq_refl).
Defined.

(** ** The matcher agrees with what a pattern matches *)

Section MatcherFacts.
Variable ic : bool.

Lemma eat_split l s s' :
  eat ic l s = Some s' ->
  exists w, s = w ++ s' /\ eat ic l w = Some [].
Proof.
  revert s. induction l as [|a l IH]; intros s H.
  - exists []. destruct s; inversion H; subst; split; reflexivity.
  - destruct s as [|b s]; [discriminate|]. cbn in H.
    destruct (canon ic a =? canon ic b) eqn:E; [|discriminate].
    destruct (IH _ H) as (w & -> & Hw).
    exists (b :: w). split; [reflexivity|]. cbn. rewrite E. exact Hw.
Qed.

Lemma eat_join l w s' :
  eat ic l w = Some [] -> eat ic l (w ++ s') = Some s'.
Proof.
  revert w. induction l as [|a l IH]; intros w H.
  - destruct w; inversion H. reflexivity.
  - destruct w as [|b w]; [discriminate|]. cbn in *.
    destruct (canon ic a =? canon ic b); [|discriminate]. apply IH, H.
Qed.

Context {R : Type}.

Lemma star_greedy_sound p s (k : jsstring -> option R) x :
  star_greedy p s k = Some x ->
  exists w s', s = w ++ s' /\ forallb p w = true /\ k s' = Some x.
Proof.
  induction s as [|c s IH]; cbn; intros H.
  - exists [], []. auto.
  - destruct (p c) eqn:Hp.
    + destruct (star_greedy p s k) as [y|] eqn:E.
      * inversion H; subst.
        destruct (IH eq_refl) as (w & s' & -> & Hw & Hk).
        exists (c :: w), s'. cbn. rewrite Hp, Hw. auto.
      * exists [], (c :: s). auto.
    + exists [], (c :: s). auto.
Qed.

Lemma star_greedy_complete p s (k : jsstring -> option R) :
  star_greedy p s k = None ->
  forall w s', s = w ++ s' -> forallb p w = true -> k s' = None.
Proof.
  induction s as [|c s IH]; cbn; intros H w s' Hs Hw.
  - destruct w; [|discriminate]. cbn in Hs. subst. exact H.
  - destruct w as [|d w]; cbn in Hs.
    + subst s'. destruct (p c); [|exact H].
      destruct (star_greedy p s k); [discriminate|exact H].
    + inversion Hs; subst. cbn in Hw. apply andb_prop in Hw as [Hd Hw].
      rewrite Hd in H.
      destruct (star_greedy p (w ++ s') k) eqn:E; [discriminate|].
      eapply IH; eauto.
Qed.

Lemma star_lazy_sound p s (k : jsstring -> option R) x :
  star_lazy p s k = Some x ->
  exists w s', s = w ++ s' /\ forallb p w = true /\ k s' = Some x.
Proof.
  induction s as [|c s IH]; cbn; intros H.
  - exists [], []. destruct (k []); [auto|discriminate].
  - destruct (k (c :: s)) eqn:E.
    + exists [], (c :: s). inversion H; subst. auto.
    + destruct (p c) eqn:Hp; [|discriminate].
      destruct (IH H) as (w & s' & -> & Hw & Hk).
      exists (c :: w), s'. cbn. rewrite Hp, Hw. auto.
Qed.

Lemma star_lazy_complete p s (k : jsstring -> option R) :
  star_lazy p s k = None ->
  forall w s', s = w ++ s' -> forallb p w = true -> k s' = None.
Proof.
  induction s as [|c s IH]; cbn; intros H w s' Hs Hw.
  - destruct w; [|discriminate]. cbn in Hs. subst.
    destruct (k []); [discriminate|reflexivity].
  - destruct (k (c :: s)) eqn:E; [discriminate|].
    destruct w as [|d w]; cbn in Hs.
    + subst s'. exact E.
    + inversion Hs; subst. cbn in Hw. apply andb_prop in Hw as [Hd Hw].
      rewrite Hd in H. eapply IH; eauto.
Qed.

Lemma take_consumed (w s' : jsstring) :
  take (length (w ++ s') - length s') (w ++ s') = w.
Proof.
  rewrite length_app, Nat.add_sub. apply take_app_length.
Qed.

Lemma m_sound r :
  forall s caps (k : jsstring -> list jsstring -> option R) x,
    m ic r s caps k = Some x ->
    exists w s' c,
      s = w ++ s' /\ matches ic r w c /\ k s' (caps ++ c) = Some x.
Proof.
  induction r as [l|neg set|neg set|a IHa b IHb|a IHa b IHb|a IHa];
    intros s caps k x H; cbn in H.
  - destruct (eat ic l s) as [s'|] eqn:E; [|discriminate].
    destruct (eat_split _ _ _ E) as (w & -> & Hw).
    exists w, s', []. rewrite app_nil_r. repeat split; auto using M_Lit.
  - destruct s as [|c s]; [discriminate|].
    destruct (in_set ic neg set c) eqn:Hc; [|discriminate].
    destruct (star_greedy_sound _ _ _ _ H) as (w & s' & -> & Hw & Hk).
    exists (c :: w), s', []. rewrite app_nil_r.
    repeat split; auto using M_Plus.
  - destruct (star_lazy_sound _ _ _ _ H) as (w & s' & -> & Hw & Hk).
    exists w, s', []. rewrite app_nil_r. repeat split; auto using M_Star.
  - destruct (m ic a s caps k) as [y|] eqn:E.
    + inversion H; subst.
      destruct (IHa _ _ _ _ E) as (w & s' & c & -> & Hm & Hk).
      exists w, s', c. repeat split; auto using M_AltL.
    + destruct (IHb _ _ _ _ H) as (w & s' & c & -> & Hm & Hk).
      exists w, s', c. repeat split; auto using M_AltR.
  - destruct (IHa _ _ _ _ H) as (w1 & s1 & c1 & -> & Hm1 & Hk1).
    destruct (IHb _ _ _ _ Hk1) as (w2 & s2 & c2 & -> & Hm2 & Hk2).
    exists (w1 ++ w2), s2, (c1 ++ c2).
    split; [apply app_assoc|]. split; [auto using M_Cat|].
    rewrite app_assoc. exact Hk2.
  - destruct (IHa _ _ _ _ H) as (w & s' & c & -> & Hm & Hk).
    rewrite take_consumed in Hk.
    exists w, s', (c ++ [w]). rewrite app_assoc.
    repeat split; auto using M_Group.
Qed.

Lemma m_complete r :
  forall s caps (k : jsstring -> list jsstring -> option R),
    m ic r s caps k = None ->
    forall w s' c,
      s = w ++ s' -> matches ic r w c -> k s' (caps ++ c) = None.
Proof.
  induction r as [l|neg set|neg set|a IHa b IHb|a IHa b IHb|a IHa];
    intros s caps k H w s' c Hs Hm; inversion Hm; subst; cbn in H.
  - rewrite (eat_join _ _ s') in H by assumption.
    rewrite app_nil_r. exact H.
  - cbn in H. match goal with Hc : in_set _ _ _ _ = true |- _ =>
      rewrite Hc in H end.
    rewrite app_nil_r.
    eapply (star_greedy_complete _ _ _ H); eauto.
  - rewrite app_nil_r. eapply (star_lazy_complete _ _ _ H); eauto.
  - destruct (m ic a (w ++ s') caps k) eqn:E; [discriminate|].
    eapply IHa; eauto.
  - destruct (m ic a (w ++ s') caps k) eqn:E; [discriminate|].
    eapply IHb; eauto.
  - rewrite app_assoc. eapply IHb; [|reflexivity|eassumption].
    eapply (IHa _ _ _ H); [|eassumption]. apply eq_sym, app_assoc.
  - rewrite app_assoc.
    pose proof (IHa _ _ _ H w s' _ eq_refl ltac:(eassumption)) as Hk.
    cbn in Hk. rewrite take_consumed in Hk. exact Hk.
Qed.
End MatcherFacts.

Lemma match_here_sound ic r s pos mt :
  match_here ic r s pos = Some mt ->
  exists post,
    s = whole mt ++ post /\ index mt = pos
    /\ matches ic r (whole mt) (groups mt).
Proof.
  unfold match_here. intros H.
  destruct (m_sound _ _ _ _ _ _ H) as (w & s' & cs & -> & Hm & Hk).
  rewrite take_consumed in Hk. inversion Hk; subst; clear Hk. cbn.
  exists s'. auto.
Qed.

Lemma match_here_none ic r s pos :
  match_here ic r s pos = None ->
  forall w post c, s = w ++ post -> ~ matches ic r w c.
Proof.
  unfold match_here. intros H w post c Hs Hm.
  pose proof (m_complete _ _ _ _ _ H w post c Hs Hm). discriminate.
Qed.

(** A successful [match] returns a leftmost occurrence of the pattern. *)
Lemma exec_from_sound ic r s pos mt :
  exec_from ic r s pos = Some mt ->
  exists pre post,
    s = pre ++ whole mt ++ post
    /\ index mt = (pos + length pre)%nat
    /\ matches ic r (whole mt) (groups mt)
    /\ forall pre' w' post' c',
         s = pre' ++ w' ++ post' -> matches ic r w' c' ->
         (length pre <= length pre')%nat.
Proof.
  revert pos. induction s as [|c s IH]; intros pos H; cbn in H.
  - destruct (match_here ic r [] pos) as [mt'|] eqn:E; [|discriminate].
    inversion H; subst.
    destruct (match_here_sound _ _ _ _ _ E) as (post & Hs & Hi & Hm).
    exists [], post. cbn. repeat split; auto with lia.
  - destruct (match_here ic r (c :: s) pos) as [mt'|] eqn:E.
    + inversion H; subst.
      destruct (match_here_sound _ _ _ _ _ E) as (post & Hs & Hi & Hm).
      exists [], post. cbn. repeat split; auto with lia.
    + destruct (IH _ H) as (pre & post & Hs & Hi & Hm & Hleft).
      exists (c :: pre), post. cbn. repeat split; auto with lia.
      * rewrite Hs at 1. reflexivity.
      * intros pre' w' post' c' Hs' Hm'.
        destruct pre' as [|d pre'].
        { exfalso. exact (match_here_none _ _ _ _ E w' post' c' Hs' Hm'). }
        cbn in Hs'. inversion Hs'; subst d.
        cbn. apply le_n_S. eapply Hleft; eauto.
Qed.

(** A failed [match] means the pattern occurs nowhere. *)
Lemma exec_from_none ic r s pos :
  exec_from ic r s pos = None ->
  forall pre w post c, s = pre ++ w ++ post -> ~ matches ic r w c.
Proof.
  revert pos. induction s as [|d s IH]; intros pos H pre w post c Hs Hm;
    cbn in H.
  - destruct (match_here ic r [] pos) eqn:E; [discriminate|].
    symmetry in Hs. apply app_eq_nil in Hs as [-> Hs].
    exact (match_here_none _ _ _ _ E w post c (eq_sym Hs) Hm).
  - destruct (match_here ic r (d :: s) pos) eqn:E; [discriminate|].
    destruct pre as [|e pre].
    + exact (match_here_none _ _ _ _ E w post c Hs Hm).
    + inversion Hs; subst. eapply IH; eauto.
Qed.

(** Conversely, a pattern that occurs somewhere is found. *)
Lemma exec_from_some ic r s pos pre w post c :
  s = pre ++ w ++ post -> matches ic r w c ->
  exists mt, exec_from ic r s pos = Some mt.
Proof.
  intros Hs Hm. destruct (exec_from ic r s pos) as [mt|] eqn:E; [eauto|].
  exfalso. eapply exec_from_none; eauto.
Qed.

(** ** De-duplication *)

Lemma dedupe_from_first_occurrences (l1 l2 : list NadeSummary)
    (seen : gset jsstring) :
  (forall k, k ∈ seen <-> k ∈ key_of <$> l1) ->
  dedupe_from seen l2
  = (filter (first_of_its_key (l1 ++ l2))
       (imap (fun i => pair (length l1 + i)%nat) l2)).*2.
Proof.
  revert l1 seen. induction l2 as [|n l2 IH]; intros l1 seen Hseen.
  - reflexivity.
  - cbn [dedupe_from imap]. rewrite filter_cons.
    assert (Hfirst : first_of_its_key (l1 ++ n :: l2) ((length l1 + 0)%nat, n)
                     <-> key_of n ∉ seen).
    { unfold first_of_its_key. cbn [fst snd].
      rewrite Nat.add_0_r, take_app_length, Hseen, Forall_forall.
      rewrite list_elem_of_fmap. split.
      - intros H (x & Hk & Hx). apply (H x Hx). symmetry. exact Hk.
      - intros H x Hx Hk. apply H. exists x. split; [symmetry|]; assumption. }
    assert (Hext : imap ((fun i => pair (length l1 + i)%nat) ∘ S) l2
                   = imap (fun i => pair (length (l1 ++ [n]) + i)%nat) l2).
    { apply imap_ext. intros i x _. cbn. rewrite length_app. cbn.
      f_equal. lia. }
    rewrite Hext.
    replace (l1 ++ n :: l2) with ((l1 ++ [n]) ++ l2)
      by (rewrite <- app_assoc; reflexivity).
    replace (l1 ++ n :: l2) with ((l1 ++ [n]) ++ l2) in Hfirst
      by (rewrite <- app_assoc; reflexivity).
    destruct (decide (key_of n ∈ seen)) as [Hin|Hnin].
    + rewrite decide_False by (rewrite Hfirst; auto).
      apply IH. intros k. rewrite fmap_app, elem_of_app, <- Hseen. cbn.
      rewrite list_elem_of_singleton. split; [auto|].
      intros [?| ->]; assumption.
    + rewrite decide_True by (rewrite Hfirst; auto).
      cbn [fmap list_fmap snd]. f_equal.
      apply IH. intros k. rewrite fmap_app, elem_of_app, <- Hseen. cbn.
      rewrite list_elem_of_singleton, elem_of_union, elem_of_singleton.
      tauto.
Qed.

Lemma dedupe_is_first_occurrences (l : list NadeSummary) :
  dedupe l = first_occurrences l.
Proof.
  unfold dedupe, first_occurrences.
  rewrite (dedupe_from_first_occurrences [] l ∅); [reflexivity|].
  intros k. cbn. rewrite elem_of_nil. split; [|tauto].
  apply not_elem_of_empty.
Qed.

Lemma dedupe_from_keys (seen : gset jsstring) (l : list NadeSummary) :
  NoDup (key_of <$> dedupe_from seen l)
  /\ forall n, n ∈ dedupe_from seen l -> (key_of n ∉ seen) /\ n ∈ l.
Proof.
  revert seen. induction l as [|n l IH]; intros seen; cbn [dedupe_from].
  - split; [constructor|]. intros n Hn. inversion Hn.
  - destruct (decide (key_of n ∈ seen)) as [Hin|Hnin].
    + destruct (IH seen) as [Hnd Hel]. split; [exact Hnd|].
      intros x Hx. destruct (Hel x Hx). split; [assumption|].
      apply elem_of_cons. auto.
    + destruct (IH ({[key_of n]} ∪ seen)) as [Hnd Hel]. split.
      * cbn. constructor; [|exact Hnd].
        rewrite list_elem_of_fmap. intros (x & Hk & Hx).
        destruct (Hel x Hx) as [Hx' _]. apply Hx'.
        rewrite elem_of_union, elem_of_singleton. auto.
      * intros x [->|Hx]%elem_of_cons.
        { split; [assumption|]. apply elem_of_cons. auto. }
        destruct (Hel x Hx) as [Hx' Hxl].
        split; [intros Hs; apply Hx', elem_of_union; auto|].
        apply elem_of_cons. auto.
Qed.

Lemma dedupe_from_unchanged (seen : gset jsstring) (l : list NadeSummary) :
  NoDup (key_of <$> l) ->
  (forall n, n ∈ l -> key_of n ∉ seen) ->
  dedupe_from seen l = l.
Proof.
  revert seen. induction l as [|n l IH]; intros seen Hnd Hseen; [reflexivity|].
  cbn [dedupe_from]. cbn in Hnd. apply NoDup_cons in Hnd as [Hn Hnd].
  rewrite decide_False by (apply Hseen; apply elem_of_cons; auto).
  f_equal. apply IH; [exact Hnd|].
  intros x Hx. specialize (Hseen x ltac:(apply elem_of_cons; auto)).
  assert (key_of x <> key_of n).
  { intros E. apply Hn. rewrite <- E. apply list_elem_of_fmap. eauto. }
  rewrite elem_of_union, elem_of_singleton. tauto.
Qed.

Lemma dedupe_NoDup (l : list NadeSummary) : NoDup (key_of <$> dedupe l).
Proof. apply dedupe_from_keys. Qed.

(** Distinct keys are distinct (type, slug) pairs. *)
Lemma NoDup_keys_pairs (l : list NadeSummary) :
  NoDup (key_of <$> l) -> NoDup ((fun n => (type n, slug n)) <$> l).
Proof.
  intros H.
  apply (NoDup_fmap_1 (fun p : jsstring * jsstring => p.1 ++ js ":" ++ p.2)).
  rewrite <- list_fmap_compose. exact H.
Qed.

(** C6: de-duplication keeps exactly the records that are the first of the
    sequence with their key [type:slug], in scan order; the keys of its
    output, and so its (type, slug) pairs, are pairwise distinct, which also
    holds of the records the extractor returns and of any prefix of them
    that is scheduled; it is idempotent; and it returns a sequence with
    unique keys unchanged. *)
Theorem dedupe_first_seen_wins (l : list NadeSummary) :
  dedupe l = first_occurrences l
  /\ NoDup (key_of <$> dedupe l)
  /\ NoDup ((fun n => (type n, slug n)) <$> dedupe l)
  /\ dedupe (dedupe l) = dedupe l
  /\ (NoDup (key_of <$> l) -> dedupe l = l)
  /\ (forall html k,
        NoDup ((fun n => (type n, slug n))
                 <$> take k (extractNadesFromMapHtml html))).
Proof.
  split; [apply dedupe_is_first_occurrences|].
  split; [apply dedupe_NoDup|].
  split; [apply NoDup_keys_pairs, dedupe_NoDup|].
  assert (Hu : forall l', NoDup (key_of <$> l') -> dedupe l' = l').
  { intros l' H. apply dedupe_from_unchanged; [exact H|].
    intros n _. apply not_elem_of_empty. }
  split; [apply Hu, dedupe_NoDup|].
  split; [apply Hu|].
  intros html k. apply NoDup_keys_pairs.
  rewrite fmap_take. unfold extractNadesFromMapHtml.
  exact (sublist_NoDup _ _ (dedupe_NoDup _) (sublist_take _ _)).
Qed.

(** ** The limiter *)

Section LimiterFacts.
Context {A : Type}.
Variable limit : Z.
Hypothesis limit_pos : (1 <= limit)%Z.

Lemma next_promises (st : sched A) : promises (next limit st) = promises st.
Proof.
  unfold next. destruct (limit <=? active st)%Z; [reflexivity|].
  destruct (queue st); reflexivity.
Qed.

Lemma next_jobs (st : sched A) j :
  j ∈ jobs (next limit st) <-> j ∈ jobs st.
Proof.
  unfold next. destruct (limit <=? active st)%Z; [tauto|].
  destruct (queue st) as [|j0 q] eqn:E; [rewrite E; tauto|]. cbn.
  repeat (rewrite elem_of_app || rewrite elem_of_cons || rewrite elem_of_nil).
  tauto.
Qed.

Lemma next_count (st : sched A) :
  (length (queue (next limit st)) + length (running (next limit st))
   = length (queue st) + length (running st))%nat.
Proof.
  unfold next. destruct (limit <=? active st)%Z; [reflexivity|].
  destruct (queue st) as [|j0 q] eqn:E; [rewrite E; reflexivity|]. cbn.
  rewrite length_app. cbn. lia.
Qed.

(** [next] restores [ceiling] from a state where at most one admission is
    due. *)
Lemma next_ceiling (st : sched A) :
  active st = Z.of_nat (length (running st)) ->
  (active st <= limit)%Z ->
  (forall j q, queue st = j :: q -> q <> [] -> (limit - 1 <= active st)%Z) ->
  ceiling limit (next limit st).
Proof.
  intros Ha Hl Hq. unfold next, ceiling.
  destruct (Z.leb_spec limit (active st)) as [Hle|Hlt].
  - repeat split; auto. intros _. lia.
  - destruct (queue st) as [|j q] eqn:E; cbn.
    + repeat split; auto. rewrite E. intros Hn. contradiction.
    + rewrite length_app. cbn. repeat split; [lia|lia|].
      intros Hne. specialize (Hq j q eq_refl Hne). lia.
Qed.

Lemma pLimit_ceiling : ceiling limit (@pLimit A).
Proof. unfold ceiling. cbn. repeat split; [lia|]. intros []. reflexivity. Qed.

Lemma limiter_ceiling f (st : sched A) :
  ceiling limit st -> ceiling limit (limiter limit f st).
Proof.
  intros (Ha & Hl & Hq). unfold limiter. apply next_ceiling; cbn; auto.
  intros j q E Hne. destruct (queue st) as [|j' q'] eqn:E'.
  - cbn in E. inversion E; subst. contradiction.
  - rewrite Hq by discriminate. lia.
Qed.

Lemma settle_ceiling k (st st' : sched A) :
  ceiling limit st -> settle limit k st = Some st' -> ceiling limit st'.
Proof.
  intros (Ha & Hl & Hq). unfold settle.
  destruct (running st !! k) as [j|] eqn:E; [|discriminate].
  intros [= <-]. apply next_ceiling; cbn.
  - rewrite length_delete by eauto.
    apply lookup_lt_Some in E. lia.
  - lia.
  - intros j' q Eq _. rewrite Hq by (rewrite Eq; discriminate). lia.
Qed.

Lemma run_ceiling evs (st st' : sched A) :
  ceiling limit st -> run limit evs st = Some st' -> ceiling limit st'.
Proof.
  revert st. induction evs as [|e evs IH]; intros st Hc; cbn.
  - intros [= <-]. exact Hc.
  - destruct (step limit e st) as [st1|] eqn:E; [|discriminate].
    apply IH. destruct e as [f|k]; cbn in E.
    + inversion E; subst. apply limiter_ceiling, Hc.
    + eapply settle_ceiling; eauto.
Qed.

(** What a settlement does to the counter, the running jobs and the
    queue, in a state below or at the ceiling. *)
Lemma settle_admits k (st st' : sched A) :
  ceiling limit st -> settle limit k st = Some st' ->
  match queue st with
  | [] =>
      active st' = (active st - 1)%Z
      /\ running st' = delete k (running st) /\ queue st' = []
  | j :: q =>
      active st' = active st
      /\ running st' = delete k (running st) ++ [j] /\ queue st' = q
  end.
Proof.
  intros (Ha & Hl & Hq). unfold settle.
  destruct (running st !! k) as [j0|] eqn:E; [|discriminate].
  intros [= <-]. unfold next. cbn.
  destruct (Z.leb_spec limit (active st - 1)) as [Hle|Hlt]; [lia|].
  destruct (queue st) as [|j q]; cbn; repeat split; lia.
Qed.

(** *** The promises of the limiter *)

Lemma next_tracks fns (st : sched A) :
  tracks fns st -> tracks fns (next limit st).
Proof.
  intros (H1 & H2 & H3 & H4). unfold tracks.
  rewrite next_promises. repeat split; auto.
  - intros j Hj. apply H2, next_jobs, Hj.
  - intros i Hi. destruct (H4 i Hi) as (j & Hj & Hs).
    exists j. split; [apply next_jobs, Hj|exact Hs].
Qed.

Lemma pLimit_tracks : tracks [] (@pLimit A).
Proof.
  unfold tracks. cbn. repeat split.
  - intros j Hj. inversion Hj.
  - intros i r Hi. rewrite lookup_nil in Hi. discriminate.
  - intros i Hi. rewrite lookup_nil in Hi. discriminate.
Qed.

Lemma limiter_tracks fns f (st : sched A) :
  tracks fns st -> tracks (fns ++ [f]) (limiter limit f st).
Proof.
  intros (H1 & H2 & H3 & H4). unfold limiter. apply next_tracks.
  unfold tracks. cbn. repeat split.
  - rewrite !length_app. cbn. lia.
  - intros j. rewrite <- app_assoc, elem_of_app. cbn.
    rewrite elem_of_cons. intros [Hj|[->|Hj]].
    + rewrite lookup_app_l; [apply H2, elem_of_app; auto|].
      eapply lookup_lt_Some, H2, elem_of_app; eauto.
    + cbn. rewrite H1. apply list_lookup_middle. reflexivity.
    + rewrite lookup_app_l; [apply H2, elem_of_app; auto|].
      eapply lookup_lt_Some, H2, elem_of_app; eauto.
  - intros i r Hi.
    destruct (decide (i < length (promises st))%nat) as [Hlt|Hge].
    + rewrite lookup_app_l in Hi by exact Hlt.
      rewrite lookup_app_l by lia. apply H3, Hi.
    + rewrite lookup_app_r in Hi by lia.
      destruct (i - length (promises st))%nat as [|[|n]]; discriminate.
  - intros i Hi.
    destruct (decide (i < length (promises st))%nat) as [Hlt|Hge].
    + rewrite lookup_app_l in Hi by exact Hlt.
      destruct (H4 i Hi) as (j & Hj & Hs). exists j. split; [|exact Hs].
      rewrite <- app_assoc, elem_of_app. cbn. rewrite elem_of_cons.
      apply elem_of_app in Hj as [Hj|Hj]; auto.
    + assert (i = length (promises st)) as ->.
      { apply lookup_lt_Some in Hi. rewrite length_app in Hi. cbn in Hi. lia. }
      eexists. split.
      * rewrite <- app_assoc, elem_of_app. right. apply elem_of_cons. left.
        reflexivity.
      * reflexivity.
Qed.

Lemma submit_all_from fns0 fns (st : sched A) :
  tracks fns0 st ->
  tracks (fns0 ++ fns) (fold_left (fun st f => limiter limit f st) fns st).
Proof.
  revert fns0 st. induction fns as [|f fns IH]; intros fns0 st Ht; cbn.
  - rewrite app_nil_r. exact Ht.
  - replace (fns0 ++ f :: fns) with ((fns0 ++ [f]) ++ fns)
      by (rewrite <- app_assoc; reflexivity).
    apply IH, limiter_tracks, Ht.
Qed.

Lemma submit_all_tracks (fns : list (res A)) :
  tracks fns (submit_all limit fns).
Proof. apply (submit_all_from [] fns pLimit pLimit_tracks). Qed.

Lemma submit_all_ceiling (fns : list (res A)) :
  ceiling limit (submit_all limit fns).
Proof.
  unfold submit_all. generalize (@pLimit A) pLimit_ceiling.
  induction fns as [|f fns IH]; intros st Hc; cbn; [exact Hc|].
  apply IH, limiter_ceiling, Hc.
Qed.

Lemma settle_tracks fns k (st st' : sched A) :
  tracks fns st -> settle limit k st = Some st' -> tracks fns st'.
Proof.
  intros (H1 & H2 & H3 & H4). unfold settle.
  destruct (running st !! k) as [j0|] eqn:E; [|discriminate].
  intros [= <-]. apply next_tracks.
  assert (Hj0 : fns !! slot j0 = Some (fn j0)).
  { apply H2, elem_of_app. right. eapply list_elem_of_lookup_2, E. }
  assert (Hlt : (slot j0 < length (promises st))%nat).
  { rewrite H1. eapply lookup_lt_Some, Hj0. }
  unfold tracks. cbn. repeat split.
  - rewrite length_insert. exact H1.
  - intros j [Hj|Hj]%elem_of_app; apply H2, elem_of_app; [auto|].
    right. eapply elem_of_sublist; [exact Hj|apply sublist_delete].
  - intros i r Hi. destruct (decide (i = slot j0)) as [->|Hne].
    + rewrite list_lookup_insert_eq in Hi by exact Hlt.
      inversion Hi; subst. exact Hj0.
    + rewrite list_lookup_insert_ne in Hi by auto. apply H3, Hi.
  - intros i Hi. destruct (decide (i = slot j0)) as [->|Hne].
    + rewrite list_lookup_insert_eq in Hi by exact Hlt. discriminate.
    + rewrite list_lookup_insert_ne in Hi by auto.
      destruct (H4 i Hi) as (j & Hj & Hs). exists j. split; [|exact Hs].
      apply elem_of_app in Hj as [Hj|Hj]; apply elem_of_app; [auto|].
      right. apply list_elem_of_lookup in Hj as [i' Hi'].
      destruct (decide (i' = k)) as [->|Hk].
      { rewrite E in Hi'. inversion Hi'; subst. contradiction. }
      apply list_elem_of_lookup.
      destruct (decide (i' < k)%nat).
      * exists i'. rewrite list_lookup_delete_lt by assumption. exact Hi'.
      * exists (i' - 1)%nat. rewrite list_lookup_delete_ge by lia.
        replace (S (i' - 1)) with i' by lia. exact Hi'.
Qed.
End LimiterFacts.

Section AwaitFacts.
Context {A : Type}.
Variable limit : Z.

Lemma fulfilled_Some (ps : list (option (res A))) vs :
  fulfilled ps = Some vs <-> ps = (fun v => Some (Ok v)) <$> vs.
Proof.
  revert vs. induction ps as [|p ps IH]; intros vs; cbn.
  - split.
    + intros [= <-]. reflexivity.
    + destruct vs; [reflexivity|discriminate].
  - destruct p as [[a|e]|].
    + destruct (fulfilled ps) as [l|] eqn:E.
      * split.
        { intros [= <-]. cbn. f_equal. apply IH. reflexivity. }
        { destruct vs as [|v vs]; [discriminate|]. cbn. intros [= -> H].
          apply IH in H. inversion H; subst. reflexivity. }
      * split; [discriminate|].
        destruct vs as [|v vs]; [discriminate|]. cbn. intros [= -> H].
        apply IH in H. discriminate.
    + split; [discriminate|]. destruct vs; discriminate.
    + split; [discriminate|]. destruct vs; discriminate.
Qed.

(** A pending or rejected promise, when not all are fulfilled. *)
Lemma fulfilled_None (ps : list (option (res A))) :
  fulfilled ps = None ->
  exists i, ps !! i = Some None \/ exists e, ps !! i = Some (Some (Throw e)).
Proof.
  induction ps as [|p ps IH]; cbn; [discriminate|].
  destruct p as [[a|e]|].
  - destruct (fulfilled ps); [discriminate|]. intros _.
    destruct (IH eq_refl) as [i Hi]. exists (S i). exact Hi.
  - intros _. exists 0%nat. right. exists e. reflexivity.
  - intros _. exists 0%nat. left. reflexivity.
Qed.

Lemma tracks_fulfilled fns (st : sched A) vs :
  tracks fns st -> fulfilled (promises st) = Some vs -> fns = Ok <$> vs.
Proof.
  intros (H1 & _ & H3 & _) Hf. apply fulfilled_Some in Hf.
  apply list_eq. intros i.
  destruct (vs !! i) as [v|] eqn:E.
  - rewrite list_lookup_fmap, E. cbn. apply H3.
    rewrite Hf, list_lookup_fmap, E. reflexivity.
  - rewrite list_lookup_fmap, E. cbn. apply lookup_ge_None.
    apply lookup_ge_None in E. rewrite <- H1, Hf, length_fmap. exact E.
Qed.

Lemma await_all_resolved fns choices (st : sched A) vs :
  tracks fns st ->
  await_all limit choices st = Resolved vs -> fns = Ok <$> vs.
Proof.
  revert st. induction choices as [|c cs IH]; intros st Ht; cbn.
  - destruct (fulfilled (promises st)) as [l|] eqn:E; [|discriminate].
    intros [= <-]. eapply tracks_fulfilled; eauto.
  - destruct (fulfilled (promises st)) as [l|] eqn:E.
    { intros [= <-]. eapply tracks_fulfilled; eauto. }
    destruct (running st !! (c mod length (running st))%nat) as [j|];
      [|discriminate].
    destruct (settle limit _ st) as [st'|] eqn:Es; [|discriminate].
    destruct (fn j); [|discriminate].
    apply IH. eapply settle_tracks; eauto.
Qed.

Lemma await_all_rejected fns choices (st : sched A) e :
  tracks fns st ->
  await_all limit choices st = Rejected e -> Throw e ∈ fns.
Proof.
  revert st. induction choices as [|c cs IH]; intros st Ht; cbn.
  - destruct (fulfilled (promises st)); discriminate.
  - destruct (fulfilled (promises st)) as [l|]; [discriminate|].
    destruct (running st !! (c mod length (running st))%nat) as [j|] eqn:Ej;
      [|discriminate].
    destruct (settle limit _ st) as [st'|] eqn:Es; [|discriminate].
    destruct (fn j) as [a|e'] eqn:Ef.
    + apply IH. eapply settle_tracks; eauto.
    + intros [= <-]. destruct Ht as (_ & H2 & _).
      eapply list_elem_of_lookup_2. rewrite <- Ef. apply H2.
      apply elem_of_app. right. eapply list_elem_of_lookup_2, Ej.
Qed.

Lemma submit_all_unrejected (fns : list (res A)) :
  unrejected (submit_all limit fns).
Proof.
  unfold submit_all.
  assert (H : forall (st : sched A),
             unrejected st ->
             unrejected (fold_left (fun st f => limiter limit f st) fns st)).
  { induction fns as [|f fns IH]; intros st Hu; [exact Hu|]. cbn.
    apply IH. unfold limiter, unrejected. rewrite next_promises. cbn.
    intros i e Hi. apply lookup_app_Some in Hi as [Hi|[_ Hi]].
    - exact (Hu i e Hi).
    - destruct (i - length (promises st))%nat as [|[|n]]; discriminate. }
  apply H. intros i e Hi. discriminate.
Qed.

Lemma settle_unrejected k (st st' : sched A) j a :
  unrejected st -> running st !! k = Some j -> fn j = Ok a ->
  settle limit k st = Some st' -> unrejected st'.
Proof.
  intros Hu Ej Ef. unfold settle. rewrite Ej. intros [= <-].
  unfold unrejected. rewrite next_promises. cbn. intros i e Hi.
  apply list_lookup_insert_Some in Hi as [(_ & Hi & _)|[_ Hi]].
  - rewrite Ef in Hi. discriminate.
  - exact (Hu i e Hi).
Qed.

Hypothesis limit_pos : (1 <= limit)%Z.

(** With the limit at least 1 some job is running whenever one waits. *)
Lemma ceiling_running (st : sched A) j :
  ceiling limit st -> j ∈ jobs st -> running st <> [].
Proof.
  intros (Ha & Hl & Hq) Hj Hr. rewrite Hr in *. cbn in *.
  destruct (queue st) as [|j' q].
  - cbn in Hj. inversion Hj.
  - specialize (Hq ltac:(discriminate)). lia.
Qed.

Lemma await_all_not_pending fns choices (st : sched A) :
  tracks fns st -> ceiling limit st -> unrejected st ->
  (length (queue st) + length (running st) <= length choices)%nat ->
  await_all limit choices st <> Pending.
Proof.
  revert st. induction choices as [|c cs IH]; intros st Ht Hc Hu Hn.
  - cbn. destruct (fulfilled (promises st)) as [l|] eqn:E; [discriminate|].
    exfalso. destruct (fulfilled_None _ E) as [i [Hi|[e Hi]]].
    + destruct Ht as (_ & _ & _ & H4). destruct (H4 i Hi) as (j & Hj & _).
      cbn in Hn. destruct (queue st), (running st); cbn in Hn; try lia.
      inversion Hj.
    + exact (Hu i e Hi).
  - cbn. destruct (fulfilled (promises st)) as [l|] eqn:E; [discriminate|].
    destruct (fulfilled_None _ E) as [i [Hi|[e Hi]]];
      [|exfalso; exact (Hu i e Hi)].
    pose proof Ht as (_ & _ & _ & H4). destruct (H4 i Hi) as (j0 & Hj0 & _).
    pose proof (ceiling_running _ _ Hc Hj0) as Hr.
    assert (Hk : (c mod length (running st) < length (running st))%nat).
    { apply Nat.mod_upper_bound. destruct (running st); [contradiction|].
      discriminate. }
    destruct (lookup_lt_is_Some_2 _ _ Hk) as [j Ej]. rewrite Ej.
    destruct (settle limit _ st) as [st'|] eqn:Es.
    2:{ unfold settle in Es. rewrite Ej in Es. discriminate. }
    destruct (fn j) as [a|e] eqn:Ef; [|discriminate].
    apply IH.
    + eapply settle_tracks; eauto.
    + eapply settle_ceiling; eauto.
    + eapply settle_unrejected; eauto.
    + unfold settle in Es. rewrite Ej in Es. inversion Es; subst.
      rewrite next_count. cbn [queue running].
      rewrite length_delete by eauto. cbn in Hn. 
      apply lookup_lt_Some in Ej. lia.
Qed.

Lemma submit_all_count (fns : list (res A)) :
  (length (queue (submit_all limit fns))
   + length (running (submit_all limit fns)) = length fns)%nat.
Proof.
  unfold submit_all.
  set (submit := fold_left (fun st f => limiter limit f st)).
  assert (H : forall (st : sched A),
             (length (queue (submit fns st)) + length (running (submit fns st))
              = length (queue st) + length (running st) + length fns)%nat).
  { induction fns as [|f fns IH]; intros st; cbn; [lia|].
    rewrite IH. unfold limiter. rewrite next_count. cbn.
    rewrite length_app. cbn. lia. }
  rewrite H. reflexivity.
Qed.

(** [Promise.all] settles once every job had the occasion to. *)
Lemma promise_all_settles (fns : list (res A)) choices :
  (length fns <= length choices)%nat ->
  promise_all limit fns choices <> (Pending : awaited A).
Proof.
  intros Hn. unfold promise_all.
  apply (await_all_not_pending fns);
    auto using submit_all_tracks, submit_all_ceiling, submit_all_unrejected.
  rewrite submit_all_count. exact Hn.
Qed.
End AwaitFacts.

(** ** The claims about the limiter and the run *)

Lemma Ok_fmap_inj {A : Type} (vs vs' : list A) :
  Ok <$> vs = Ok <$> vs' -> vs = vs'.
Proof.
  revert vs'. induction vs as [|v vs IH]; intros [|v' vs'] H;
    try discriminate; [reflexivity|].
  cbn in H. inversion H; subst. f_equal. apply IH. assumption.
Qed.

Lemma run_app {A : Type} (limit : Z) (evs evs' : list (event A))
    (st : sched A) :
  run limit (evs ++ evs') st = run limit evs st ≫= run limit evs'.
Proof.
  revert st. induction evs as [|e evs IH]; intros st; [reflexivity|].
  cbn [app run]. destruct (step limit e st); [apply IH|reflexivity].
Qed.

(** C5: with a limit of at least 1, in every state the limiter reaches by
    any sequence of submissions and settlements the number of running jobs
    equals the counter [active] and does not exceed the limit, and jobs
    wait only while the limiter is full.  Every running job can settle;
    its settlement is the next state of the limiter, it gives the promise
    of the job its outcome, decrements the counter and at once admits the
    job at the head of the queue, if there is one.  A submission is taken
    too: the function runs at once while the limiter is not full and is
    put at the end of the queue otherwise. *)
Theorem concurrency_ceiling {A : Type} (limit : Z) (evs : list (event A))
    (st : sched A) :
  (1 <= limit)%Z ->
  run limit evs pLimit = Some st ->
  (Z.of_nat (length (running st)) <= limit)%Z
  /\ active st = Z.of_nat (length (running st))
  /\ (queue st <> [] -> Z.of_nat (length (running st)) = limit)
  /\ (forall k j,
        running st !! k = Some j ->
        exists st',
          settle limit k st = Some st'
          /\ run limit (evs ++ [Settle k]) pLimit = Some st'
          /\ promises st' = <[slot j := Some (fn j)]> (promises st)
          /\ match queue st with
             | [] =>
                 active st' = (active st - 1)%Z
                 /\ running st' = delete k (running st) /\ queue st' = []
             | j' :: q =>
                 active st' = active st
                 /\ running st' = delete k (running st) ++ [j']
                 /\ queue st' = q
             end)
  /\ (forall f,
        exists st',
          run limit (evs ++ [Submit f]) pLimit = Some st'
          /\ promises st' = promises st ++ [None]
          /\ let j := {| slot := length (promises st); fn := f |} in
             if (active st <? limit)%Z
             then running st' = running st ++ [j] /\ queue st' = []
                  /\ active st' = (active st + 1)%Z
             else running st' = running st /\ queue st' = queue st ++ [j]
                  /\ active st' = active st).
Proof.
  intros Hl Hrun.
  assert (Hc : ceiling limit st).
  { eapply run_ceiling; [apply pLimit_ceiling, Hl|exact Hrun]. }
  pose proof Hc as (Ha & Hle & Hq).
  split; [lia|]. split; [exact Ha|]. split; [|split].
  - intros Hne. rewrite <- Ha. apply Hq, Hne.
  - intros k j Hk.
    assert (Hs : settle limit k st
                 = Some (next limit
                           {| active := active st - 1;
                              queue := queue st;
                              running := delete k (running st);
                              promises :=
                                <[slot j := Some (fn j)]> (promises st) |})).
    { unfold settle. rewrite Hk. reflexivity. }
    eexists. split; [exact Hs|]. split; [|split].
    + rewrite run_app, Hrun. cbn [mbind option_bind run step].
      rewrite Hs. reflexivity.
    + rewrite next_promises. reflexivity.
    + eapply settle_admits; eauto.
  - intros f. exists (limiter limit f st). split; [|split].
    + rewrite run_app, Hrun. reflexivity.
    + unfold limiter. rewrite next_promises. reflexivity.
    + cbn zeta. unfold limiter, next. cbn [active queue running promises].
      destruct (Z.ltb_spec (active st) limit) as [Hlt|Hge].
      * destruct (Z.leb_spec limit (active st)); [lia|].
        destruct (queue st) as [|j' q] eqn:Eq.
        -- cbn [app active queue running]. auto.
        -- exfalso. assert (active st = limit) by (apply Hq; discriminate).
           lia.
      * destruct (Z.leb_spec limit (active st)); [|lia].
        cbn [active queue running]. auto.
Qed.

Lemma render_loop_spec results lines missing :
  render_loop results lines missing
  = (lines ++ concat (block_of <$> results),
     (missing + missing_count results)%nat).
Proof.
  revert lines missing. induction results as [|r results IH];
    intros lines missing; cbn [render_loop].
  - cbn. rewrite app_nil_r, Nat.add_0_r. reflexivity.
  - rewrite IH. unfold missing_count. rewrite filter_cons.
    cbn [fmap list_fmap concat].
    rewrite <- app_assoc. f_equal.
    destruct (truthy (console r)) eqn:E.
    + rewrite decide_False by discriminate. reflexivity.
    + rewrite decide_True by reflexivity. cbn [length]. lia.
Qed.

Lemma the_limit_pos cfg : (1 <= the_limit cfg)%Z.
Proof. unfold the_limit. lia. Qed.

(** A job that returns a result returns the result of its own record. *)
Lemma fetch_job_nade fetchText cfg n r :
  fetch_job fetchText cfg n = Ok r -> nade r = n.
Proof.
  unfold fetch_job. destruct (typeToPath (type n)).
  - destruct (encode (mapSlug cfg)); [|discriminate]. cbn [res_bind].
    destruct (encode (slug n)); [|discriminate]. cbn [res_bind].
    destruct (fetchText _); [|discriminate]. cbn [res_bind].
    destruct (extractConsoleFromNadeHtml _); [|discriminate]. cbn [res_bind].
    intros [= <-]. reflexivity.
  - intros [= <-]. reflexivity.
Qed.

Lemma fetch_jobs_nades fetchText cfg (nades : list NadeSummary)
    (results : list NadeResult) :
  map (fetch_job fetchText cfg) nades = Ok <$> results ->
  nade <$> results = nades.
Proof.
  revert results. induction nades as [|n nades IH]; intros [|r results] Hf;
    try discriminate; [reflexivity|].
  cbn in Hf. injection Hf as Hr Hrest. cbn. f_equal; [|apply IH, Hrest].
  exact (fetch_job_nade _ _ _ _ Hr).
Qed.

Lemma all_jobs_return fetchText cfg (nades : list NadeSummary) :
  (forall n, n ∈ nades -> exists r, fetch_job fetchText cfg n = Ok r) ->
  exists results, map (fetch_job fetchText cfg) nades = Ok <$> results.
Proof.
  induction nades as [|n nades IH]; intros H.
  - exists []. reflexivity.
  - destruct (H n) as [r Hr]; [left|].
    destruct IH as [results Hres].
    { intros n' Hn'. apply H. right. exact Hn'. }
    exists (r :: results). cbn. rewrite Hr, Hres. reflexivity.
Qed.

(** Once every job has succeeded the aggregate promise resolves with their
    values, whatever the order of completion. *)
Lemma promise_all_resolves {A : Type} (limit : Z) (fns : list (res A))
    (choices : list nat) vs :
  (1 <= limit)%Z -> fns = Ok <$> vs ->
  (length fns <= length choices)%nat ->
  promise_all limit fns choices = Resolved vs.
Proof.
  intros Hl Hf Hn.
  destruct (promise_all limit fns choices) as [vs'|e|] eqn:E.
  - unfold promise_all in E.
    pose proof (await_all_resolved limit fns choices _ vs'
                  (submit_all_tracks limit fns) E) as Hf'.
    rewrite Hf in Hf'. f_equal. symmetry. apply Ok_fmap_inj, Hf'.
  - exfalso. unfold promise_all in E.
    pose proof (await_all_rejected limit fns choices _ e
                  (submit_all_tracks limit fns) E) as Hin.
    rewrite Hf in Hin. apply list_elem_of_fmap in Hin as (v & Hv & _).
    discriminate.
  - exfalso. eapply promise_all_settles; eauto.
Qed.

(** C4: for any number of submitted jobs and any order of completion, when
    the aggregate promise resolves its i-th value is the outcome of the
    i-th submitted job; it does resolve, whatever the order, once every job
    has completed successfully.  Hence [main]: when the job of every
    scheduled record returns and every fetch completes, [main] returns,
    whatever the order of completion, and what it writes is the header
    followed by one block per scheduled record, the i-th block being that
    of the result of the i-th record; and any run of [main] that writes
    an output wrote these blocks in this order. *)
Theorem results_in_submission_order {A : Type} (limit : Z)
    (fns : list (res A)) (choices : list nat) :
  (forall vs, promise_all limit fns choices = Resolved vs -> fns = Ok <$> vs)
  /\ (forall vs,
        (1 <= limit)%Z -> fns = Ok <$> vs ->
        (length fns <= length choices)%nat ->
        promise_all limit fns choices = Resolved vs)
  /\ (forall fetchText cfg nades,
        discover fetchText cfg = Ok nades ->
        (forall n, n ∈ nades -> exists r, fetch_job fetchText cfg n = Ok r) ->
        (length nades <= length choices)%nat ->
        exists results out,
          main fetchText cfg choices = Some (Ok out)
          /\ map (fetch_job fetchText cfg) nades = Ok <$> results
          /\ nade <$> results = nades
          /\ out_data out
             = join [LF]
                 ([js "// Generated from " ++ baseUrl cfg ++ js "/"
                   ++ mapSlug cfg;
                   js "// Total nades: " ++ string_of_nat (length results);
                   []]
                  ++ concat (block_of <$> results)))
  /\ (forall fetchText cfg out,
        main fetchText cfg choices = Some (Ok out) ->
        exists nades results,
          discover fetchText cfg = Ok nades
          /\ map (fetch_job fetchText cfg) nades = Ok <$> results
          /\ nade <$> results = nades
          /\ out_data out
             = join [LF]
                 ([js "// Generated from " ++ baseUrl cfg ++ js "/"
                   ++ mapSlug cfg;
                   js "// Total nades: " ++ string_of_nat (length results);
                   []]
                  ++ concat (block_of <$> results))).
Proof.
  split; [|split; [|split]].
  - intros vs H. unfold promise_all in H.
    eapply await_all_resolved; [|exact H].
    apply submit_all_tracks.
  - intros vs. apply promise_all_resolves.
  - intros fetchText cfg nades Hd Hjobs Hlen.
    destruct (all_jobs_return _ _ _ Hjobs) as [results Hres].
    exists results, (render cfg results). split; [|split; [exact Hres|split]].
    + unfold main. rewrite Hd.
      rewrite (promise_all_resolves (the_limit cfg) _ choices results
                 (the_limit_pos cfg) Hres)
        by (rewrite length_map; exact Hlen).
      reflexivity.
    + exact (fetch_jobs_nades _ _ _ _ Hres).
    + unfold render. rewrite render_loop_spec. reflexivity.
  - intros fetchText cfg out. unfold main.
    destruct (discover fetchText cfg) as [nades|e]; [|discriminate].
    destruct (promise_all _ _ choices) as [results|e|] eqn:E; try discriminate.
    intros [= <-]. exists nades, results. split; [reflexivity|].
    unfold promise_all in E.
    pose proof (await_all_resolved _ _ choices _ results
                  (submit_all_tracks _ _) E) as Hf.
    split; [exact Hf|]. split; [exact (fetch_jobs_nades _ _ _ _ Hf)|].
    unfold render. rewrite render_loop_spec. reflexivity.
Qed.

(** A scheduled record whose job throws keeps [main] from completing. *)
Lemma main_not_ok fetchText cfg nades n e choices out :
  discover fetchText cfg = Ok nades ->
  n ∈ nades ->
  fetch_job fetchText cfg n = Throw e ->
  main fetchText cfg choices <> Some (Ok out).
Proof.
  intros Hd Hn He. unfold main. rewrite Hd.
  destruct (promise_all _ _ choices) as [results|e'|] eqn:E; try discriminate.
  intros _. unfold promise_all in E.
  pose proof (await_all_resolved _ _ choices _ results
                (submit_all_tracks _ _) E) as Hf.
  assert (Hin : fetch_job fetchText cfg n ∈ Ok <$> results).
  { rewrite <- Hf. apply list_elem_of_fmap. eauto. }
  rewrite He in Hin. apply list_elem_of_fmap in Hin as (r & Hr & _).
  discriminate.
Qed.

(** Once every job had the occasion to settle, [main] has ended with an
    exception thrown by one of them. *)
Lemma main_throws fetchText cfg nades n e choices :
  discover fetchText cfg = Ok nades ->
  n ∈ nades ->
  fetch_job fetchText cfg n = Throw e ->
  (length nades <= length choices)%nat ->
  exists e', main fetchText cfg choices = Some (Throw e')
             /\ Throw e' ∈ map (fetch_job fetchText cfg) nades.
Proof.
  intros Hd Hn He Hlen.
  pose proof (main_not_ok fetchText cfg nades n e choices) as Hno.
  unfold main in *. rewrite Hd in *.
  destruct (promise_all _ _ choices) as [results|e'|] eqn:E.
  - exfalso. eapply Hno; eauto.
  - exists e'. split; [reflexivity|]. unfold promise_all in E.
    eapply await_all_rejected; [apply submit_all_tracks|exact E].
  - exfalso. eapply (promise_all_settles _ (the_limit_pos cfg)); [|exact E].
    rewrite length_map. exact Hlen.
Qed.

(** C1, as the code behaves: when the detail page of a scheduled record
    cannot be fetched, the job of that record throws, the aggregate promise
    is rejected and [main] ends with that exception; no result sequence is
    rendered and nothing is written, whatever the order of completion.  By
    contrast a record of unknown type yields a result with an [error]
    field. *)
Theorem item_fetch_failure_aborts_run fetchText cfg nades n typePath m s e
    choices :
  discover fetchText cfg = Ok nades ->
  n ∈ nades ->
  typeToPath (type n) = Some typePath ->
  encode (mapSlug cfg) = Ok m ->
  encode (slug n) = Ok s ->
  fetchText (baseUrl cfg ++ js "/" ++ m ++ js "/" ++ typePath ++ js "/" ++ s)
  = Throw e ->
  fetch_job fetchText cfg n = Throw e
  /\ (forall out, main fetchText cfg choices <> Some (Ok out))
  /\ ((length nades <= length choices)%nat ->
      exists e', main fetchText cfg choices = Some (Throw e'))
  /\ (forall n', typeToPath (type n') = None ->
        exists r, fetch_job fetchText cfg n' = Ok r
                  /\ error r = Some (js "Unknown type: " ++ type n')).
Proof.
  intros Hd Hn Ht Hm Hs Hf.
  assert (Hj : fetch_job fetchText cfg n = Throw e).
  { unfold fetch_job. rewrite Ht, Hm. cbn [res_bind]. rewrite Hs.
    cbn [res_bind]. rewrite Hf. reflexivity. }
  split; [exact Hj|]. split; [|split].
  - intros out. eapply main_not_ok; eauto.
  - intros Hlen.
    destruct (main_throws fetchText cfg nades n e choices Hd Hn Hj Hlen)
      as (e' & He' & _).
    eauto.
  - intros n' Hn'. unfold fetch_job. rewrite Hn'. eexists.
    split; reflexivity.
Qed.

Lemma discover_sample :
  discover net_ok sample_cfg = Ok [nade_a; nade_b]
  /\ discover net_b_down sample_cfg = Ok [nade_a; nade_b]
  /\ discover net_a_raw_lf sample_cfg = Ok [nade_a; nade_b].
Proof. repeat split; vm_compute; reflexivity. Qed.

(** The scenario of the specification, the second fetch completing first:
    two blocks in the order of the records, the type shown as extracted. *)
Lemma end_to_end_sample :
  main net_ok sample_cfg [1; 0]%nat
  = Some (Ok {| out_path := js "mirage.cfg";
                out_data :=
                  join [LF]
                    [js "// Generated from https://csnades.gg/mirage";
                     js "// Total nades: 2";
                     [];
                     js "// smoke | T | a";
                     js "// https://csnades.gg/mirage/smokes/a";
                     js "setpos 1 2 3;setang 4 5 6";
                     [];
                     js "// flashbang | ANY | b";
                     js "// https://csnades.gg/mirage/flashbangs/b";
                     js "// MISSING_CONSOLE";
                     []];
                out_missing := Some (js "Missing console: 1") |}).
Proof. vm_compute. reflexivity. Qed.

Lemma item_fetch_failure_aborts_run_witness :
  main net_b_down sample_cfg [0; 0]%nat
  = Some (Throw (Error (js "HTTP 404 Not Found for "
                        ++ js "https://csnades.gg/mirage/flashbangs/b")))
  /\ forall out, main net_b_down sample_cfg [0; 0]%nat <> Some (Ok out).
Proof.
  split; [vm_compute; reflexivity|].
  refine (proj1 (proj2
    (item_fetch_failure_aborts_run net_b_down sample_cfg [nade_a; nade_b]
       nade_b (js "flashbangs") (js "mirage") (js "b")
       (Error (js "HTTP 404 Not Found for "
               ++ js "https://csnades.gg/mirage/flashbangs/b"))
       [0; 0]%nat _ _ _ _ _ _))).
  - vm_compute; reflexivity.
  - apply elem_of_cons. right. apply elem_of_cons. left. reflexivity.
  - vm_compute; reflexivity.
  - vm_compute; reflexivity.
  - vm_compute; reflexivity.
  - vm_compute; reflexivity.
Defined.

(** ** Witnesses *)

Lemma concurrency_ceiling_witness :
  let st := {| active := 2;
               queue := [];
               running := [{| slot := 1; fn := Ok 2%nat |};
                           {| slot := 2; fn := Ok 3%nat |}];
               promises := [Some (Ok 1%nat); None; None] |} in
  (Z.of_nat (length (running st)) <= 2)%Z
  /\ active st = Z.of_nat (length (running st))
  /\ exists st',
       settle 2 1 st = Some st'
       /\ run 2 ([Submit (Ok 1%nat); Submit (Ok 2%nat); Submit (Ok 3%nat);
                  Settle 0%nat] ++ [Settle 1%nat]) pLimit
          = Some st'
       /\ promises st' = [Some (Ok 1%nat); None; Some (Ok 3%nat)]
       /\ active st' = 1%Z
       /\ running st' = [{| slot := 1; fn := Ok 2%nat |}]
       /\ queue st' = [].
Proof.
  cbn zeta.
  destruct (concurrency_ceiling 2
              [Submit (Ok 1%nat); Submit (Ok 2%nat); Submit (Ok 3%nat);
               Settle 0%nat]
              {| active := 2;
                 queue := [];
                 running := [{| slot := 1; fn := Ok 2%nat |};
                             {| slot := 2; fn := Ok 3%nat |}];
                 promises := [Some (Ok 1%nat); None; None] |}
              ltac:(lia) eq_refl) as (H1 & H2 & _ & H4 & _).
  split; [exact H1|]. split; [exact H2|].
  destruct (H4 1%nat {| slot := 2; fn := Ok 3%nat |} eq_refl)
    as (st' & Hs & Hr & Hp & Ha & Hrun & Hq).
  exists st'. repeat split; assumption.
Defined.

Lemma results_in_submission_order_witness :
  promise_all 2 [Ok 10%nat; Ok 20%nat; Ok 30%nat] [1; 0; 0]%nat
  = Resolved [10; 20; 30]%nat
  /\ exists results out,
       main net_ok sample_cfg [1; 0]%nat = Some (Ok out)
       /\ map (fetch_job net_ok sample_cfg) [nade_a; nade_b] = Ok <$> results
       /\ nade <$> results = [nade_a; nade_b]
       /\ out_data out
          = join [LF]
              ([js "// Generated from " ++ baseUrl sample_cfg ++ js "/"
                ++ mapSlug sample_cfg;
                js "// Total nades: " ++ string_of_nat (length results);
                []]
               ++ concat (block_of <$> results)).
Proof.
  split.
  - refine (proj1 (proj2 (results_in_submission_order 2
              [Ok 10%nat; Ok 20%nat; Ok 30%nat] [1; 0; 0]%nat))
              [10; 20; 30]%nat _ _ _).
    + lia.
    + reflexivity.
    + cbn. lia.
  - refine (proj1 (proj2 (proj2 (results_in_submission_order 2
              [Ok 10%nat; Ok 20%nat; Ok 30%nat] [1; 0]%nat)))
              net_ok sample_cfg [nade_a; nade_b] _ _ _).
    + vm_compute. reflexivity.
    + intros n Hn. apply elem_of_cons in Hn as [->|Hn].
      * eexists. vm_compute. reflexivity.
      * apply elem_of_cons in Hn as [->|Hn]; [|inversion Hn].
        eexists. vm_compute. reflexivity.
    + cbn. lia.
Defined.

Lemma dedupe_first_seen_wins_witness :
  NoDup (key_of <$> [nade_a; nade_b])
  /\ dedupe [nade_a; nade_b] = [nade_a; nade_b].
Proof.
  assert (H : NoDup (key_of <$> [nade_a; nade_b])).
  { refine (bool_decide_unpack (NoDup (key_of <$> [nade_a; nade_b])) _).
    vm_compute. exact I. }
  split; [exact H|].
  exact (proj1 (proj2 (proj2 (proj2 (proj2
           (dedupe_first_seen_wins [nade_a; nade_b]))))) H).
Defined.

(** ** The patterns of the extractor *)

#[local] Arguments js : simpl never.
#[local] Arguments key_open : simpl never.

Lemma eat_exact l w : eat false l w = Some [] -> w = l.
Proof.
  revert w. induction l as [|a l IH]; intros [|b w] H; cbn in H;
    try discriminate; [reflexivity|].
  unfold canon in H. destruct (N.eqb_spec a b) as [->|]; [|discriminate].
  f_equal. apply IH, H.
Qed.

Lemma eat_literal l : eat false l l = Some [].
Proof.
  induction l as [|a l IH]; [reflexivity|]. cbn. unfold canon.
  rewrite N.eqb_refl. exact IH.
Qed.

(** Inversion of a match, constructor by constructor. *)
Lemma matches_Cat ic a b w caps :
  matches ic (Cat a b) w caps ->
  exists w1 w2 c1 c2,
    w = w1 ++ w2 /\ caps = c1 ++ c2
    /\ matches ic a w1 c1 /\ matches ic b w2 c2.
Proof. intros H. inversion H; subst. eauto 10. Qed.

Lemma matches_Group ic a w caps :
  matches ic (Group a) w caps ->
  exists c, caps = c ++ [w] /\ matches ic a w c.
Proof. intros H. inversion H; subst. eauto. Qed.

Lemma matches_Alt ic a b w caps :
  matches ic (Alt a b) w caps -> matches ic a w caps \/ matches ic b w caps.
Proof. intros H. inversion H; subst; auto. Qed.

Lemma matches_Lit l w caps :
  matches false (Lit l) w caps -> w = l /\ caps = [].
Proof. intros H. inversion H; subst. split; [apply eat_exact|]; auto. Qed.

Lemma matches_Plus ic neg set w caps :
  matches ic (PlusGreedy neg set) w caps ->
  caps = [] /\ w <> [] /\ forallb (in_set ic neg set) w = true.
Proof.
  intros H. inversion H; subst. split; [reflexivity|].
  split; [discriminate|]. cbn. apply andb_true_intro. auto.
Qed.

Lemma matches_Star ic neg set w caps :
  matches ic (StarLazy neg set) w caps ->
  caps = [] /\ forallb (in_set ic neg set) w = true.
Proof. intros H. inversion H; subst. auto. Qed.

(** A key, a captured plain value and the closing escaped quote. *)
Lemma keyed_value_matches k w caps :
  matches false (Cat (Lit k) (Cat (Group NOT_BS_DQ) (Lit EQUOTE))) w caps ->
  exists v, plain_value v /\ caps = [v] /\ w = k ++ v ++ EQUOTE.
Proof.
  intros H.
  apply matches_Cat in H as (w1 & w2 & c1 & c2 & -> & -> & H1 & H2).
  apply matches_Lit in H1 as [-> ->].
  apply matches_Cat in H2 as (w3 & w4 & c3 & c4 & -> & -> & H3 & H4).
  apply matches_Group in H3 as (c5 & -> & H3).
  apply matches_Plus in H3 as (-> & Hne & Hall).
  apply matches_Lit in H4 as [-> ->].
  exists w3. repeat split; auto.
Qed.

Lemma idRe_matches w caps :
  matches false idRe w caps ->
  exists x, plain_value x
            /\ caps = [js "nade_" ++ x]
            /\ w = key_open "id" ++ (js "nade_" ++ x) ++ EQUOTE.
Proof.
  unfold idRe. intros H.
  apply matches_Cat in H as (w1 & w2 & c1 & c2 & -> & -> & H1 & H2).
  apply matches_Lit in H1 as [-> ->].
  apply matches_Cat in H2 as (w3 & w4 & c3 & c4 & -> & -> & H3 & H4).
  apply matches_Group in H3 as (c5 & -> & H3).
  apply matches_Cat in H3 as (w5 & w6 & c6 & c7 & -> & -> & H5 & H6).
  apply matches_Lit in H5 as [-> ->].
  apply matches_Plus in H6 as (-> & Hne & Hall).
  apply matches_Lit in H4 as [-> ->].
  exists w6. repeat split; auto.
Qed.

Lemma slugRe_matches w caps :
  matches false slugRe w caps ->
  exists x v, plain_value x /\ plain_value v
              /\ caps = [v]
              /\ w = (key_open "id" ++ js "nade_") ++ x
                     ++ (EQUOTE ++ js "," ++ key_open "slug") ++ v ++ EQUOTE.
Proof.
  unfold slugRe. intros H.
  apply matches_Cat in H as (w1 & w2 & c1 & c2 & -> & -> & H1 & H2).
  apply matches_Lit in H1 as [-> ->].
  apply matches_Cat in H2 as (w3 & w4 & c3 & c4 & -> & -> & H3 & H4).
  apply matches_Plus in H3 as (-> & Hne & Hall).
  apply matches_Cat in H4 as (w5 & w6 & c5 & c6 & -> & -> & H5 & H6).
  apply matches_Lit in H5 as [-> ->].
  apply matches_Cat in H6 as (w7 & w8 & c7 & c8 & -> & -> & H7 & H8).
  apply matches_Group in H7 as (c9 & -> & H7).
  apply matches_Plus in H7 as (-> & Hne' & Hall').
  apply matches_Lit in H8 as [-> ->].
  exists w3, w7. repeat split; auto.
Qed.

Lemma typeRe_matches w caps :
  matches false typeRe w caps ->
  exists t, known_type t /\ caps = [t] /\ w = key_open "type" ++ t ++ EQUOTE.
Proof.
  unfold typeRe, known_type. intros H.
  apply matches_Cat in H as (w1 & w2 & c1 & c2 & -> & -> & H1 & H2).
  apply matches_Lit in H1 as [-> ->].
  apply matches_Cat in H2 as (w3 & w4 & c3 & c4 & -> & -> & H3 & H4).
  apply matches_Group in H3 as (c5 & -> & H3).
  apply matches_Lit in H4 as [-> ->].
  exists w3. split; [|split; [|reflexivity]].
  - apply matches_Alt in H3 as [H|H]; [apply matches_Lit in H as [-> _]; auto|].
    apply matches_Alt in H as [H|H]; [apply matches_Lit in H as [-> _]; auto|].
    apply matches_Alt in H as [H|H]; apply matches_Lit in H as [-> _]; auto.
  - apply matches_Alt in H3 as [H|H]; [apply matches_Lit in H as [_ ->]; auto|].
    apply matches_Alt in H as [H|H]; [apply matches_Lit in H as [_ ->]; auto|].
    apply matches_Alt in H as [H|H]; apply matches_Lit in H as [_ ->]; auto.
Qed.

Lemma teamRe_matches w caps :
  matches false teamRe w caps ->
  exists t, (t = js "ct" \/ t = js "t")
            /\ caps = [t] /\ w = key_open "team" ++ t ++ EQUOTE.
Proof.
  unfold teamRe. intros H.
  apply matches_Cat in H as (w1 & w2 & c1 & c2 & -> & -> & H1 & H2).
  apply matches_Lit in H1 as [-> ->].
  apply matches_Cat in H2 as (w3 & w4 & c3 & c4 & -> & -> & H3 & H4).
  apply matches_Group in H3 as (c5 & -> & H3).
  apply matches_Lit in H4 as [-> ->].
  exists w3. split; [|split; [|reflexivity]].
  - apply matches_Alt in H3 as [H|H]; apply matches_Lit in H as [-> _]; auto.
  - apply matches_Alt in H3 as [H|H]; apply matches_Lit in H as [_ ->]; auto.
Qed.

Lemma titleFromRe_matches w caps :
  matches false titleFromRe w caps ->
  exists v, plain_value v /\ caps = [v]
            /\ w = key_open "titleFrom" ++ v ++ EQUOTE.
Proof. apply keyed_value_matches. Qed.

Lemma titleToRe_matches w caps :
  matches false titleToRe w caps ->
  exists v, plain_value v /\ caps = [v]
            /\ w = key_open "titleTo" ++ v ++ EQUOTE.
Proof. apply keyed_value_matches. Qed.

(** A successful [match]: where the matched text lies and what it is. *)
Lemma str_match_sound ic s r mt :
  str_match ic s r = Some mt ->
  matches ic r (whole mt) (groups mt)
  /\ exists pre post, s = pre ++ whole mt ++ post.
Proof.
  unfold str_match. intros H.
  destruct (exec_from_sound _ _ _ _ _ H) as (pre & post & Hs & _ & Hm & _).
  eauto.
Qed.

(** The fields of a record the extractor builds from a span. *)
Lemma parse_chunk_fields chunk n :
  parse_chunk chunk = Some n ->
  (exists x, plain_value x /\ id n = js "nade_" ++ x
             /\ part_of (key_open "id" ++ id n ++ EQUOTE) chunk)
  /\ (plain_value (slug n)
      /\ part_of (EQUOTE ++ js "," ++ key_open "slug" ++ slug n ++ EQUOTE)
           chunk)
  /\ (known_type (type n)
      /\ part_of (key_open "type" ++ type n ++ EQUOTE) chunk)
  /\ (forall t, team n = Some t -> t = js "ct" \/ t = js "t")
  /\ (forall v, titleFrom n = Some v -> plain_value v)
  /\ (forall v, titleTo n = Some v -> plain_value v).
Proof.
  unfold parse_chunk.
  destruct (str_match false chunk idRe) as [mi|] eqn:Ei; [|discriminate].
  destruct (str_match false chunk slugRe) as [ms|] eqn:Es; [|discriminate].
  destruct (str_match false chunk typeRe) as [mt|] eqn:Et; [|discriminate].
  intros [= <-]. cbn [id slug type team titleFrom titleTo].
  apply str_match_sound in Ei as [Hi (prei & posti & Hci)].
  apply str_match_sound in Es as [Hs (pres & posts & Hcs)].
  apply str_match_sound in Et as [Ht (pret & postt & Hct)].
  apply idRe_matches in Hi as (x & Hx & Hgi & Hwi).
  apply slugRe_matches in Hs as (y & v & Hy & Hv & Hgs & Hws).
  apply typeRe_matches in Ht as (t & Hkt & Hgt & Hwt).
  unfold group1. rewrite Hgi, Hgs, Hgt. cbn [nth].
  split; [|split; [|split; [|split; [|split]]]].
  - exists x. split; [exact Hx|]. split; [reflexivity|].
    exists prei, posti. rewrite Hci, Hwi. reflexivity.
  - split; [exact Hv|].
    exists (pres ++ (key_open "id" ++ js "nade_") ++ y), posts.
    rewrite Hcs, Hws. repeat rewrite <- app_assoc. reflexivity.
  - split; [exact Hkt|]. exists pret, postt. rewrite Hct, Hwt. reflexivity.
  - intros t'. destruct (str_match false chunk teamRe) as [m'|] eqn:E;
      [|discriminate].
    apply str_match_sound in E as [E _].
    apply teamRe_matches in E as (t0 & Ht0 & Hg & _).
    cbn. rewrite Hg. cbn. intros [= <-]. exact Ht0.
  - intros v'. destruct (str_match false chunk titleFromRe) as [m'|] eqn:E;
      [|discriminate].
    apply str_match_sound in E as [E _].
    apply titleFromRe_matches in E as (v0 & Hv0 & Hg & _).
    cbn. rewrite Hg. cbn. intros [= <-]. exact Hv0.
  - intros v'. destruct (str_match false chunk titleToRe) as [m'|] eqn:E;
      [|discriminate].
    apply str_match_sound in E as [E _].
    apply titleToRe_matches in E as (v0 & Hv0 & Hg & _).
    cbn. rewrite Hg. cbn. intros [= <-]. exact Hv0.
Qed.

Lemma collect_elem chunks n :
  n ∈ collect chunks ->
  exists chunk, chunk ∈ chunks /\ parse_chunk chunk = Some n.
Proof.
  induction chunks as [|c chunks IH]; cbn; [intros H; inversion H|].
  destruct (parse_chunk c) as [n'|] eqn:E.
  - intros [->|H]%elem_of_cons.
    + exists c. split; [apply elem_of_cons; auto|exact E].
    + destruct (IH H) as (c' & Hc' & Hp). exists c'.
      split; [apply elem_of_cons; auto|exact Hp].
  - intros H. destruct (IH H) as (c' & Hc' & Hp). exists c'.
    split; [apply elem_of_cons; auto|exact Hp].
Qed.

(** Every record the extractor returns was parsed from one of the spans. *)
Lemma extracted_from_chunk html n :
  n ∈ extractNadesFromMapHtml html ->
  exists chunk, chunk ∈ chunks_of html (starts_of html)
                /\ parse_chunk chunk = Some n.
Proof.
  unfold extractNadesFromMapHtml, dedupe. intros H.
  apply dedupe_from_keys in H as [_ H]. apply collect_elem, H.
Qed.

(** ** Rendering *)









(** ** The command line *)






(** ** The anchor scan *)

Lemma starts_with_spec p s :
  starts_with p s = true <-> exists post, s = p ++ post.
Proof.
  revert s. induction p as [|a p IH]; intros s; cbn.
  - split; [eauto|reflexivity].
  - destruct s as [|b s].
    + split; [discriminate|]. intros [post H]. discriminate.
    + rewrite andb_true_iff, N.eqb_eq, IH. split.
      * intros [-> [post ->]]. eauto.
      * intros [post [= -> ->]]. eauto.
Qed.

Lemma occurs_at_nil needle s post :
  s = needle ++ post -> occurs_at needle s 0.
Proof. intros ->. exists [], post. auto. Qed.

Lemma occurs_at_cons needle c s q :
  occurs_at needle (c :: s) (S q) <-> occurs_at needle s q.
Proof.
  split.
  - intros ([|d pre] & post & Hs & Hl); [discriminate|].
    cbn in Hs, Hl. inversion Hs; subst. exists pre, post. auto.
  - intros (pre & post & -> & <-). exists (c :: pre), post. auto.
Qed.

Lemma find_from_None needle s pos :
  find_from needle s pos = None -> forall q, ~ occurs_at needle s q.
Proof.
  revert pos. induction s as [|c s IH]; intros pos; cbn.
  - destruct (starts_with needle []) eqn:E; [discriminate|]. intros _ q.
    intros (pre & post & Hs & _).
    symmetry in Hs. apply app_eq_nil in Hs as [_ Hs].
    apply app_eq_nil in Hs as [-> _]. discriminate.
  - destruct (starts_with needle (c :: s)) eqn:E; [discriminate|].
    intros H [|q] Ho.
    + destruct Ho as ([|d pre] & post & Hs & Hl); [|discriminate].
      assert (starts_with needle (c :: s) = true)
        by (apply starts_with_spec; eauto).
      congruence.
    + apply occurs_at_cons in Ho. exact (IH _ H q Ho).
Qed.

Lemma find_from_Some needle s pos k :
  find_from needle s pos = Some k ->
  (pos <= k)%nat
  /\ occurs_at needle s (k - pos)
  /\ forall q, occurs_at needle s q -> (k - pos <= q)%nat.
Proof.
  revert pos. induction s as [|c s IH]; intros pos; cbn.
  - destruct (starts_with needle []) eqn:E; [|discriminate].
    intros [= <-]. rewrite Nat.sub_diag.
    apply starts_with_spec in E as [post E].
    split; [lia|]. split; [eapply occurs_at_nil; eauto|]. intros; lia.
  - destruct (starts_with needle (c :: s)) eqn:E.
    + intros [= <-]. rewrite Nat.sub_diag.
      apply starts_with_spec in E as [post E].
      split; [lia|]. split; [eapply occurs_at_nil; eauto|]. intros; lia.
    + intros H. destruct (IH _ H) as (Hle & Ho & Hmin).
      split; [lia|].
      replace (k - pos)%nat with (S (k - S pos)) by lia.
      split; [apply occurs_at_cons, Ho|].
      intros [|q] Hq.
      * exfalso. destruct Hq as ([|d pre] & post & Hs & Hl); [|discriminate].
        assert (starts_with needle (c :: s) = true)
          by (apply starts_with_spec; eauto).
        congruence.
      * apply occurs_at_cons in Hq. apply le_n_S, Hmin, Hq.
Qed.

Lemma occurs_at_drop needle (s : jsstring) from q :
  (from <= length s)%nat ->
  occurs_at needle (drop from s) q <-> occurs_at needle s (from + q).
Proof.
  intros Hle. split.
  - intros (pre & post & Hs & <-).
    exists (take from s ++ pre), post. split.
    + rewrite <- app_assoc, <- Hs, take_drop. reflexivity.
    + rewrite length_app, length_take. lia.
  - intros (pre & post & -> & Hl).
    exists (drop from pre), post. split.
    + rewrite drop_app_le by lia. reflexivity.
    + rewrite length_drop. lia.
Qed.

Lemma occurs_at_bound needle (s : jsstring) q :
  occurs_at needle s q -> (q + length needle <= length s)%nat.
Proof. intros (pre & post & -> & <-). rewrite !length_app. lia. Qed.

Lemma indexOf_None s needle from :
  indexOf s needle from = None ->
  forall q, (from <= q)%nat -> ~ occurs_at needle s q.
Proof.
  unfold indexOf. intros H q Hq Ho.
  pose proof (occurs_at_bound _ _ _ Ho) as Hb.
  apply (find_from_None _ _ _ H (q - Nat.min from (length s))%nat).
  apply occurs_at_drop; [lia|].
  replace (Nat.min from (length s) + (q - Nat.min from (length s)))%nat
    with q by lia.
  exact Ho.
Qed.

Lemma indexOf_Some s needle from k :
  indexOf s needle from = Some k ->
  (Nat.min from (length s) <= k)%nat
  /\ occurs_at needle s k
  /\ forall q, (from <= q)%nat -> occurs_at needle s q -> (k <= q)%nat.
Proof.
  unfold indexOf. intros H.
  destruct (find_from_Some _ _ _ _ H) as (Hle & Ho & Hmin).
  split; [exact Hle|]. split.
  - apply occurs_at_drop in Ho; [|lia].
    replace (Nat.min from (length s) + (k - Nat.min from (length s)))%nat
      with k in Ho by lia.
    exact Ho.
  - intros q Hq Hoq. pose proof (occurs_at_bound _ _ _ Hoq) as Hb.
    assert (Hd : occurs_at needle (drop (Nat.min from (length s)) s)
                   (q - Nat.min from (length s))).
    { apply occurs_at_drop; [lia|].
      replace (Nat.min from (length s) + (q - Nat.min from (length s)))%nat
        with q by lia.
      exact Hoq. }
    specialize (Hmin _ Hd). lia.
Qed.

Lemma idNeedle_length : length idNeedle = 14%nat.
Proof. vm_compute. reflexivity. Qed.

(** The loop of lines 82-87 ends before its fuel does. *)
Lemma scan_starts_fuel fuel html idx :
  (length html < fuel + idx)%nat ->
  scan_starts fuel html idx = scan_starts (S fuel) html idx.
Proof.
  revert idx. induction fuel as [|fuel IH]; intros idx Hlt.
  - cbn [scan_starts].
    destruct (indexOf html idNeedle idx) as [k|] eqn:E; [|reflexivity].
    exfalso. destruct (indexOf_Some _ _ _ _ E) as (Hle & Ho & _).
    apply occurs_at_bound in Ho. rewrite idNeedle_length in Ho. lia.
  - cbn [scan_starts].
    destruct (indexOf html idNeedle idx) as [k|] eqn:E; [|reflexivity].
    f_equal. apply IH.
    destruct (indexOf_Some _ _ _ _ E) as (Hle & Ho & _).
    apply occurs_at_bound in Ho. rewrite idNeedle_length in *. lia.
Qed.

Lemma starts_of_fuel html extra :
  scan_starts (S (length html) + extra) html 0 = starts_of html.
Proof.
  unfold starts_of. induction extra as [|extra IH].
  - rewrite Nat.add_0_r. reflexivity.
  - rewrite <- IH. rewrite Nat.add_succ_r. symmetry.
    apply scan_starts_fuel. lia.
Qed.

Lemma starts_of_no_anchor html :
  (forall q, ~ occurs_at idNeedle html q) -> starts_of html = [].
Proof.
  intros H. unfold starts_of. cbn [scan_starts].
  destruct (indexOf html idNeedle 0) as [k|] eqn:E; [|reflexivity].
  exfalso. destruct (indexOf_Some _ _ _ _ E) as (_ & Ho & _).
  exact (H k Ho).
Qed.


(** An executable test that the anchor occurs exactly once, at [p]. *)
Lemma one_anchor_check html p :
  indexOf html idNeedle 0 = Some p ->
  indexOf html idNeedle (S p) = None ->
  forall q, occurs_at idNeedle html q <-> q = p.
Proof.
  intros H1 H2 q. destruct (indexOf_Some _ _ _ _ H1) as (_ & Ho & Hmin).
  split.
  - intros Hq. pose proof (Hmin q ltac:(lia) Hq).
    destruct (decide (q = p)) as [|Hne]; [assumption|].
    exfalso. exact (indexOf_None _ _ _ H2 q ltac:(lia) Hq).
  - intros ->. exact Ho.
Qed.

(** ** The extractor *)

Lemma str_match_yields s r :
  (exists mt, str_match false s r = Some mt) <-> yields r s.
Proof.
  split.
  - intros [mt H]. apply str_match_sound in H as [Hm Hp].
    exists (whole mt), (groups mt). auto.
  - intros (w & caps & (pre & post & Hs) & Hm).
    eapply exec_from_some; eauto.
Qed.






(** The sample listing cut after its first record holds one anchor and
    yields that record alone. *)
Lemma one_record_sample :
  let html := js "<script>[{" ++ record_text "nade_01" "a" "smoke"
              ++ js "}]</script>" in
  extractNadesFromMapHtml html
  = [{| id := js "nade_01"; slug := js "a"; type := js "smoke";
        team := None; titleFrom := None; titleTo := None |}]
  /\ forall q, occurs_at idNeedle html q <-> q = 10%nat.
Proof.
  split; [vm_compute; reflexivity|].
  apply one_anchor_check; vm_compute; reflexivity.
Qed.

(* ===================================================================== *)
(** * Part III: further properties of the code                            *)
(* ===================================================================== *)

(** ** [typeToPath] and the job of a record *)

(** X1: [typeToPath] maps the four grenade types, and nothing else, to a
    path segment, which is the type followed by the letter s; no two types
    share a segment. *)
Theorem typeToPath_plural :
  (forall t p, typeToPath t = Some p <-> known_type t /\ p = t ++ js "s")
  /\ (forall t, typeToPath t = None <-> ~ known_type t)
  /\ (forall t1 t2 p,
        typeToPath t1 = Some p -> typeToPath t2 = Some p -> t1 = t2).
Proof.
  assert (H1 : forall t p,
             typeToPath t = Some p <-> known_type t /\ p = t ++ js "s").
  { intros t p. unfold typeToPath, known_type.
    repeat case_bool_decide; subst; split.
    all: try (intros [= <-]; split; [tauto|reflexivity]).
    all: try (intros [_ ->]; reflexivity).
    all: try discriminate.
    intros [[?|[?|[?|?]]] _]; contradiction. }
  split; [exact H1|]. split.
  - intros t. split.
    + intros Hn Hk.
      pose proof (proj2 (H1 t (t ++ js "s")) (conj Hk eq_refl)) as E.
      rewrite Hn in E. discriminate.
    + intros Hk. destruct (typeToPath t) as [p|] eqn:E; [|reflexivity].
      exfalso. apply Hk. apply (H1 t p). exact E.
  - intros t1 t2 p E1 E2.
    apply H1 in E1 as [_ ->]. apply H1 in E2 as [_ E2].
    apply (app_inv_tail _ _ _ E2).
Qed.

Lemma typeToPath_known t :
  known_type t -> typeToPath t = Some (t ++ js "s").
Proof.
  intros [->|[->|[->| ->]]]; reflexivity.
Qed.

(** X2: the job of a record the extractor returned never takes the
    unknown-type branch.  When it succeeds, its result carries the record,
    no error, the URL made of the base, the encoded map, the plural of the
    type and the encoded slug, and the console text extracted from the
    page fetched at that URL. *)
Theorem scheduled_job_result fetchText cfg html (n : NadeSummary)
    (r : NadeResult) :
  n ∈ extractNadesFromMapHtml html ->
  fetch_job fetchText cfg n = Ok r ->
  nade r = n
  /\ error r = None
  /\ exists m s page,
       encode (mapSlug cfg) = Ok m
       /\ encode (slug n) = Ok s
       /\ url r = Some (baseUrl cfg ++ js "/" ++ m ++ js "/"
                        ++ (type n ++ js "s") ++ js "/" ++ s)
       /\ fetchText (baseUrl cfg ++ js "/" ++ m ++ js "/"
                     ++ (type n ++ js "s") ++ js "/" ++ s) = Ok page
       /\ extractConsoleFromNadeHtml page = Ok (console r).
Proof.
  intros Hin Hjob.
  apply extracted_from_chunk in Hin as (chunk & _ & Hp).
  destruct (parse_chunk_fields _ _ Hp) as (_ & _ & [Htype _] & _).
  unfold fetch_job in Hjob. rewrite (typeToPath_known _ Htype) in Hjob.
  destruct (encode (mapSlug cfg)) as [m|] eqn:Em; [|discriminate].
  cbn [res_bind] in Hjob.
  destruct (encode (slug n)) as [s|] eqn:Es; [|discriminate].
  cbn [res_bind] in Hjob.
  destruct (fetchText _) as [page|] eqn:Ef; [|discriminate].
  cbn [res_bind] in Hjob.
  destruct (extractConsoleFromNadeHtml page) as [c|] eqn:Ec; [|discriminate].
  cbn [res_bind] in Hjob. inversion Hjob; subst r; clear Hjob.
  cbn [nade error url console]. split; [reflexivity|]. split; [reflexivity|].
  exists m, s, page. auto.
Qed.

Lemma scheduled_job_result_witness :
  nade_a ∈ extractNadesFromMapHtml listing
  /\ fetch_job net_ok sample_cfg nade_a
     = Ok {| nade := nade_a;
             console := Some (js "setpos 1 2 3;setang 4 5 6");
             error := None;
             url := Some (js "https://csnades.gg/mirage/smokes/a") |}
  /\ error {| nade := nade_a;
              console := Some (js "setpos 1 2 3;setang 4 5 6");
              error := None;
              url := Some (js "https://csnades.gg/mirage/smokes/a") |}
     = None.
Proof.
  assert (H1 : nade_a ∈ extractNadesFromMapHtml listing).
  { vm_compute. apply elem_of_cons. left. reflexivity. }
  assert (H2 : fetch_job net_ok sample_cfg nade_a
               = Ok {| nade := nade_a;
                       console := Some (js "setpos 1 2 3;setang 4 5 6");
                       error := None;
                       url := Some (js "https://csnades.gg/mirage/smokes/a") |}).
  { vm_compute. reflexivity. }
  split; [exact H1|]. split; [exact H2|].
  exact (proj1 (proj2 (scheduled_job_result net_ok sample_cfg listing
                         nade_a _ H1 H2))).
Defined.

(** ** The anchor scan and the spans *)

(** The anchor does not overlap itself: no proper suffix of it is one of
    its prefixes. *)
Lemma idNeedle_border d :
  (0 < d < length idNeedle)%nat ->
  drop d idNeedle <> take (length idNeedle - d) idNeedle.
Proof.
  rewrite idNeedle_length. intros Hd.
  assert (Hc : d ∈ seq 1 13) by (apply elem_of_seq; lia).
  revert Hc. clear Hd. vm_compute.
  intros H. repeat (apply elem_of_cons in H as [->|H]; [discriminate|]).
  inversion H.
Qed.

Lemma occurs_at_take_drop needle (s : jsstring) q :
  occurs_at needle s q <->
  (q + length needle <= length s)%nat
  /\ take (length needle) (drop q s) = needle.
Proof.
  split.
  - intros (pre & post & -> & <-). split.
    + rewrite !length_app. lia.
    + rewrite drop_app_length, take_app_length. reflexivity.
  - intros [Hl Ht]. exists (take q s), (drop (length needle) (drop q s)).
    split.
    + rewrite <- Ht at 1. rewrite take_drop, take_drop. reflexivity.
    + rewrite length_take. lia.
Qed.

Lemma needle_no_overlap (s : jsstring) q1 q2 :
  occurs_at idNeedle s q1 -> occurs_at idNeedle s q2 ->
  (q1 < q2)%nat -> (q1 + length idNeedle <= q2)%nat.
Proof.
  pose proof idNeedle_length as HL.
  intros (pre1 & post1 & Hs1 & Hl1) (pre2 & post2 & Hs2 & Hl2) Hlt.
  destruct (le_lt_dec (q1 + length idNeedle) q2) as [|Hov]; [assumption|].
  exfalso. set (d := (q2 - q1)%nat).
  apply (idNeedle_border d); [unfold d; lia|].
  assert (H1 : drop q1 s = idNeedle ++ post1).
  { rewrite Hs1, <- Hl1. apply drop_app_length. }
  assert (H2 : drop q2 s = idNeedle ++ post2).
  { rewrite Hs2, <- Hl2. apply drop_app_length. }
  assert (H3 : drop d idNeedle ++ post1 = idNeedle ++ post2).
  { rewrite <- H2. replace q2 with (q1 + d)%nat by (unfold d; lia).
    rewrite <- drop_drop, H1. rewrite drop_app_le by (unfold d; lia).
    reflexivity. }
  apply (f_equal (take (length idNeedle - d))) in H3.
  rewrite take_app_le in H3 by (rewrite length_drop; lia).
  rewrite take_ge in H3 by (rewrite length_drop; lia).
  rewrite take_app_le in H3 by lia. exact H3.
Qed.

Lemma scan_starts_spec fuel html idx :
  (length html < fuel + idx)%nat ->
  (forall q, q ∈ scan_starts fuel html idx
             <-> occurs_at idNeedle html q /\ (idx <= q)%nat)
  /\ spaced (scan_starts fuel html idx).
Proof.
  pose proof idNeedle_length as HL.
  revert idx. induction fuel as [|fuel IH]; intros idx Hlt.
  - cbn [scan_starts spaced]. split; [|exact I]. intros q. split.
    + intros H. inversion H.
    + intros [Ho Hq]. apply occurs_at_bound in Ho. lia.
  - cbn [scan_starts].
    destruct (indexOf html idNeedle idx) as [k|] eqn:E.
    + destruct (indexOf_Some _ _ _ _ E) as (Hle & Ho & Hmin).
      pose proof (occurs_at_bound _ _ _ Ho) as Hb.
      assert (Hidx : (idx <= k)%nat) by lia.
      destruct (IH (k + length idNeedle)%nat) as [IHm IHs]; [lia|].
      split.
      * intros q. rewrite elem_of_cons, IHm. split.
        { intros [->|[Hq Hk]]; [auto|]. split; [exact Hq|lia]. }
        intros [Hq Hi]. pose proof (Hmin q Hi Hq) as Hkq.
        destruct (decide (q = k)) as [|Hne]; [auto|]. right.
        split; [exact Hq|]. apply (needle_no_overlap html); auto. lia.
      * cbn [spaced]. split; [|exact IHs].
        apply Forall_forall. intros q Hq. apply IHm in Hq as [_ Hq].
        exact Hq.
    + cbn [spaced]. split; [|exact I]. intros q. split.
      * intros H. inversion H.
      * intros [Ho Hq]. exfalso. exact (indexOf_None _ _ _ E q Hq Ho).
Qed.

(** X3: the loop of lines 82-87 finds every occurrence of the anchor and
    nothing else, in increasing order, two consecutive offsets being at
    least the length of the anchor apart. *)
Theorem starts_are_the_anchors (html : jsstring) :
  (forall q, q ∈ starts_of html <-> occurs_at idNeedle html q)
  /\ spaced (starts_of html).
Proof.
  unfold starts_of.
  destruct (scan_starts_spec (S (length html)) html 0 ltac:(lia)) as [Hm Hs].
  split; [|exact Hs]. intros q. rewrite Hm. split; [tauto|].
  intros H. split; [exact H|lia].
Qed.

Lemma spaced_tail_ge a b rest q :
  spaced (a :: b :: rest) -> q ∈ b :: rest -> (b <= q)%nat.
Proof.
  cbn [spaced]. intros (_ & Hb & _) [->|Hq]%elem_of_cons; [lia|].
  rewrite Forall_forall in Hb. specialize (Hb q Hq). lia.
Qed.

Lemma chunks_of_length html l : length (chunks_of html l) = length l.
Proof. induction l as [|a l IH]; cbn; [|rewrite IH]; reflexivity. Qed.

Lemma chunks_of_concat (html : jsstring) a rest :
  spaced (a :: rest) ->
  Forall (fun q => (q + length idNeedle <= length html)%nat) (a :: rest) ->
  concat (chunks_of html (a :: rest)) = drop a html.
Proof.
  revert a. induction rest as [|b rest IH]; intros a Hs Hb.
  - cbn. rewrite app_nil_r. unfold slice.
    apply take_ge. rewrite length_drop. lia.
  - change (chunks_of html (a :: b :: rest))
      with (slice html a b :: chunks_of html (b :: rest)).
    cbn [concat]. rewrite IH.
    + unfold slice. apply Forall_cons in Hb as [_ Hb].
      apply Forall_cons in Hb as [Hb _].
      destruct Hs as [Ha _]. apply Forall_cons in Ha as [Ha _].
      replace (drop b html) with (drop (b - a) (drop a html)).
      * apply take_drop.
      * rewrite drop_drop. f_equal. lia.
    + destruct Hs as [_ Hs]. exact Hs.
    + apply Forall_cons in Hb as [_ Hb]. exact Hb.
Qed.

Lemma chunks_of_anchored (html : jsstring) l :
  spaced l ->
  Forall (occurs_at idNeedle html) l ->
  (forall q, occurs_at idNeedle html q ->
             (default 0%nat (head l) <= q)%nat -> q ∈ l) ->
  Forall anchored (chunks_of html l).
Proof.
  pose proof idNeedle_length as HL.
  induction l as [|a rest IH]; intros Hs Ho Hall; [constructor|].
  cbn [chunks_of]. apply Forall_cons in Ho as [Ha Ho].
  set (e := match rest with b :: _ => b | [] => length html end).
  pose proof (occurs_at_bound _ _ _ Ha) as Hba.
  assert (He : (a + length idNeedle <= e /\ e <= length html)%nat).
  { unfold e. destruct rest as [|b rest']; [lia|].
    destruct Hs as [Hf _]. apply Forall_cons in Hf as [Hf _].
    apply Forall_cons in Ho as [Hob _]. apply occurs_at_bound in Hob. lia. }
  constructor.
  - unfold anchored, slice. split.
    + destruct Ha as (pre & post & -> & <-).
      rewrite drop_app_length.
      exists (take (e - length pre - length idNeedle) post).
      rewrite take_app_ge by lia. reflexivity.
    + intros q Hq. pose proof (occurs_at_bound _ _ _ Hq) as Hbq.
      rewrite length_take, length_drop in Hbq.
      assert (Hq' : occurs_at idNeedle html (a + q)).
      { apply occurs_at_drop; [lia|].
        destruct Hq as (pre & post & Hc & Hl).
        exists pre, (post ++ drop (e - a) (drop a html)). split; [|exact Hl].
        rewrite <- (take_drop (e - a) (drop a html)) at 1.
        rewrite Hc, <- !app_assoc. reflexivity. }
      specialize (Hall _ Hq' ltac:(cbn; lia)).
      apply elem_of_cons in Hall as [Hall|Hall]; [lia|].
      exfalso. destruct rest as [|b rest']; [inversion Hall|].
      pose proof (spaced_tail_ge _ _ _ _ Hs Hall). unfold e in *. lia.
  - destruct rest as [|b rest']; [constructor|].
    apply IH; [destruct Hs; assumption|exact Ho|].
    intros q Hq Hge. cbn in Hge.
    destruct Hs as [Hf _]. apply Forall_cons in Hf as [Hf _].
    specialize (Hall q Hq ltac:(cbn; lia)).
    apply elem_of_cons in Hall as [->|Hall]; [lia|exact Hall].
Qed.

Lemma starts_of_anchored html :
  Forall anchored (chunks_of html (starts_of html)).
Proof.
  destruct (scan_starts_spec (S (length html)) html 0 ltac:(lia)) as [Hm Hs].
  apply chunks_of_anchored; [exact Hs| |].
  - apply Forall_forall. intros q Hq. apply Hm in Hq as [Hq _]. exact Hq.
  - intros q Hq _. apply Hm. split; [exact Hq|lia].
Qed.

(** X4: the spans are as many as the anchors; from the first anchor on
    they tile the document, nothing being skipped or read twice; and every
    span starts with the anchor and holds no second one. *)
Theorem spans_tile_document (html : jsstring) :
  length (chunks_of html (starts_of html)) = length (starts_of html)
  /\ (forall a rest,
        starts_of html = a :: rest ->
        take a html ++ concat (chunks_of html (starts_of html)) = html
        /\ forall q, occurs_at idNeedle html q -> (a <= q)%nat)
  /\ Forall anchored (chunks_of html (starts_of html)).
Proof.
  split; [apply chunks_of_length|]. split; [|apply starts_of_anchored].
  intros a rest E.
  destruct (scan_starts_spec (S (length html)) html 0 ltac:(lia)) as [Hm Hs].
  fold (starts_of html) in Hm, Hs. rewrite E in *. split.
  - rewrite chunks_of_concat; [apply take_drop|exact Hs|].
    apply Forall_forall. intros q Hq. apply Hm in Hq as [Hq _].
    apply occurs_at_bound, Hq.
  - intros q Hq. assert (Hin : q ∈ a :: rest) by (apply Hm; split; [auto|lia]).
    apply elem_of_cons in Hin as [->|Hin]; [lia|].
    destruct Hs as [Hf _]. rewrite Forall_forall in Hf.
    specialize (Hf q Hin). lia.
Qed.

Lemma spans_tile_document_witness :
  starts_of listing = [10; 80]%nat
  /\ take 10 listing ++ concat (chunks_of listing (starts_of listing))
     = listing.
Proof.
  assert (H : starts_of listing = [10; 80]%nat) by (vm_compute; reflexivity).
  split; [exact H|].
  exact (proj1 (proj1 (proj2 (spans_tile_document listing)) 10%nat [80%nat] H)).
Defined.

Lemma chunks_part_of (html : jsstring) l chunk :
  chunk ∈ chunks_of html l -> part_of chunk html.
Proof.
  induction l as [|a rest IH]; cbn [chunks_of]; [intros H; inversion H|].
  intros [->|H]%elem_of_cons; [|exact (IH H)].
  unfold slice, part_of.
  set (e := match rest with b :: _ => b | [] => length html end).
  exists (take a html), (drop (e - a) (drop a html)).
  rewrite take_drop, take_drop. reflexivity.
Qed.

(** A text without backslash is determined by what follows up to the
    first backslash. *)
Lemma plain_prefix_unique (x y r r' : jsstring) :
  forallb (in_set false true [BACKSLASH; DQUOTE]) x = true ->
  forallb (in_set false true [BACKSLASH; DQUOTE]) y = true ->
  x ++ BACKSLASH :: r = y ++ BACKSLASH :: r' -> x = y.
Proof.
  assert (Hbs : in_set false true [BACKSLASH; DQUOTE] BACKSLASH = false)
    by reflexivity.
  revert y. induction x as [|a x IH]; intros [|b y] Hx Hy E;
    cbn [forallb app] in Hx, Hy, E.
  - reflexivity.
  - inversion E; subst b. rewrite Hbs in Hy. discriminate.
  - inversion E; subst a. rewrite Hbs in Hx. discriminate.
  - inversion E; subst b. f_equal.
    apply andb_prop in Hx as [_ Hx]. apply andb_prop in Hy as [_ Hy].
    eapply IH; eauto.
Qed.

(** X5: the identifier and the slug of every record the extractor returns
    are written in the document at an anchor, the slug field directly
    after the identifier field: the record is never assembled from an
    identifier and a slug that lie apart. *)
Theorem record_written_at_anchor (html : jsstring) (n : NadeSummary) :
  n ∈ extractNadesFromMapHtml html ->
  exists pre x rest,
    html = pre ++ idNeedle ++ x
           ++ (EQUOTE ++ js "," ++ key_open "slug") ++ slug n ++ EQUOTE
           ++ rest
    /\ id n = js "nade_" ++ x
    /\ plain_value x
    /\ plain_value (slug n).
Proof.
  intros Hin. apply extracted_from_chunk in Hin as (chunk & Hc & Hp).
  pose proof (starts_of_anchored html) as Ha.
  rewrite Forall_forall in Ha. destruct (Ha chunk Hc) as [_ Honly].
  destruct (chunks_part_of _ _ _ Hc) as (hpre & hpost & Hhtml).
  unfold parse_chunk in Hp.
  destruct (str_match false chunk idRe) as [mi|] eqn:Ei; [|discriminate].
  destruct (str_match false chunk slugRe) as [ms|] eqn:Es; [|discriminate].
  destruct (str_match false chunk typeRe) as [mt|] eqn:Et; [|discriminate].
  inversion Hp; subst n; clear Hp. cbn [id slug].
  apply str_match_sound in Ei as [Hi (prei & posti & Hci)].
  apply str_match_sound in Es as [Hs (pres & posts & Hcs)].
  apply idRe_matches in Hi as (x & Hx & Hgi & Hwi).
  apply slugRe_matches in Hs as (y & v & Hy & Hv & Hgs & Hws).
  unfold group1. rewrite Hgi, Hgs. cbn [nth].
  rewrite Hwi in Hci. rewrite Hws in Hcs.
  assert (Hpi : prei = []).
  { apply length_zero_iff_nil, Honly.
    exists prei, (x ++ EQUOTE ++ posti). split; [|reflexivity].
    rewrite Hci. unfold idNeedle. repeat rewrite <- app_assoc. reflexivity. }
  assert (Hps : pres = []).
  { apply length_zero_iff_nil, Honly.
    exists pres, (y ++ (EQUOTE ++ js "," ++ key_open "slug") ++ v ++ EQUOTE
                  ++ posts).
    split; [|reflexivity].
    rewrite Hcs. unfold idNeedle. repeat rewrite <- app_assoc. reflexivity. }
  subst prei pres. cbn [app] in Hci, Hcs.
  assert (Hxy : x = y).
  { destruct Hx as [_ Hx]. destruct Hy as [_ Hy].
    apply (plain_prefix_unique x y
             (DQUOTE :: posti)
             (DQUOTE :: (js "," ++ key_open "slug") ++ v ++ EQUOTE ++ posts)
             Hx Hy).
    rewrite Hci in Hcs. unfold idNeedle in Hcs.
    repeat rewrite <- app_assoc in Hcs.
    apply app_inv_head in Hcs. apply app_inv_head in Hcs.
    unfold EQUOTE in Hcs. cbn [app] in Hcs.
    repeat rewrite <- app_assoc. exact Hcs. }
  subst y.
  exists hpre, x, (posts ++ hpost).
  split; [|split; [reflexivity|split; assumption]].
  rewrite Hhtml, Hcs. unfold idNeedle. repeat rewrite <- app_assoc.
  reflexivity.
Qed.

Lemma record_written_at_anchor_witness :
  nade_b ∈ extractNadesFromMapHtml listing
  /\ exists pre x rest,
       listing = pre ++ idNeedle ++ x
                 ++ (EQUOTE ++ js "," ++ key_open "slug") ++ js "b" ++ EQUOTE
                 ++ rest
       /\ js "nade_02" = js "nade_" ++ x.
Proof.
  assert (H : nade_b ∈ extractNadesFromMapHtml listing).
  { vm_compute. apply elem_of_cons. right. apply elem_of_cons. left.
    reflexivity. }
  split; [exact H|].
  destruct (record_written_at_anchor listing nade_b H)
    as (pre & x & rest & H1 & H2 & _).
  exists pre, x, rest. split; [exact H1|exact H2].
Defined.

Lemma dedupe_from_length (seen : gset jsstring) (l : list NadeSummary) :
  (length (dedupe_from seen l) <= length l)%nat.
Proof.
  revert seen. induction l as [|n l IH]; intros seen; cbn [dedupe_from].
  - cbn. lia.
  - destruct (decide (key_of n ∈ seen)).
    + specialize (IH seen). cbn. lia.
    + specialize (IH ({[key_of n]} ∪ seen)). cbn. lia.
Qed.

Lemma collect_length chunks : (length (collect chunks) <= length chunks)%nat.
Proof.
  induction chunks as [|c chunks IH]; cbn; [lia|].
  destruct (parse_chunk c); cbn; lia.
Qed.

Lemma spaced_count (l : list nat) lo total :
  spaced l ->
  Forall (fun a => (lo <= a /\ a + length idNeedle <= total)%nat) l ->
  (length idNeedle * length l <= total - lo)%nat.
Proof.
  revert lo. induction l as [|a rest IH]; intros lo Hs Hb; cbn [length].
  - lia.
  - destruct Hs as [Hf Hs]. apply Forall_cons in Hb as [[Hlo Ha] Hb].
    assert (Hrest : Forall (fun b => (a + length idNeedle <= b
                                      /\ b + length idNeedle <= total)%nat)
                      rest).
    { rewrite Forall_forall in *. intros b Hin.
      split; [apply Hf, Hin|apply Hb, Hin]. }
    specialize (IH (a + length idNeedle)%nat Hs Hrest). lia.
Qed.

(** X6: the extractor returns at most one record per anchor, and a
    document holds at most one anchor per fourteen code units. *)
Theorem at_most_one_record_per_anchor (html : jsstring) :
  (length (extractNadesFromMapHtml html) <= length (starts_of html))%nat
  /\ (14 * length (starts_of html) <= length html)%nat.
Proof.
  split.
  - unfold extractNadesFromMapHtml, dedupe.
    pose proof (dedupe_from_length ∅
                  (collect (chunks_of html (starts_of html)))) as H1.
    pose proof (collect_length (chunks_of html (starts_of html))) as H2.
    rewrite chunks_of_length in H2. lia.
  - destruct (scan_starts_spec (S (length html)) html 0 ltac:(lia))
      as [Hm Hs].
    fold (starts_of html) in Hm, Hs.
    pose proof (spaced_count (starts_of html) 0 (length html) Hs) as H.
    rewrite idNeedle_length in H. rewrite Nat.sub_0_r in H. apply H.
    apply Forall_forall. intros q Hq. apply Hm in Hq as [Hq _].
    apply occurs_at_bound in Hq. rewrite idNeedle_length in Hq. lia.
Qed.

(** ** The console value *)

Lemma eat_false_spec l s r : eat false l s = Some r <-> s = l ++ r.
Proof.
  split.
  - intros H. destruct (eat_split _ _ _ _ H) as (w & -> & Hw).
    apply eat_exact in Hw. subst w. reflexivity.
  - intros ->. apply eat_join, eat_literal.
Qed.

Lemma in_set_any c : in_set false true [] c = true.
Proof. reflexivity. Qed.

(** The lazy repetition stops at the first place where what follows
    matches. *)
Lemma star_lazy_minimal {R : Type} p s (k : jsstring -> option R) x :
  star_lazy p s k = Some x ->
  exists w s',
    s = w ++ s' /\ forallb p w = true /\ k s' = Some x
    /\ forall w1 w2, w = w1 ++ w2 -> w2 <> [] -> k (w2 ++ s') = None.
Proof.
  induction s as [|c s IH]; cbn [star_lazy]; intros H.
  - exists [], []. destruct (k []) eqn:E; [|discriminate].
    repeat split; auto.
    intros w1 w2 Hw Hne. symmetry in Hw.
    apply app_eq_nil in Hw as [_ ->]. contradiction.
  - destruct (k (c :: s)) eqn:E.
    + exists [], (c :: s). inversion H; subst. repeat split; auto.
      intros w1 w2 Hw Hne. symmetry in Hw.
      apply app_eq_nil in Hw as [_ ->]. contradiction.
    + destruct (p c) eqn:Hp; [|discriminate].
      destruct (IH H) as (w & s' & -> & Hw & Hk & Hmin).
      exists (c :: w), s'. cbn [forallb]. rewrite Hp, Hw.
      repeat split; auto.
      intros [|d w1] w2 Hc Hne; cbn [app] in Hc.
      * subst w2. exact E.
      * inversion Hc; subst. eapply Hmin; eauto.
Qed.

Lemma star_lazy_first {R : Type} p v rest (k : jsstring -> option R) x :
  forallb p v = true ->
  (forall v1 v2, v = v1 ++ v2 -> v2 <> [] -> k (v2 ++ rest) = None) ->
  k rest = Some x ->
  star_lazy p (v ++ rest) k = Some x.
Proof.
  induction v as [|c v IH]; intros Hp Hmin Hk.
  - cbn [app]. destruct rest; cbn [star_lazy]; rewrite Hk; reflexivity.
  - cbn [app star_lazy].
    pose proof (Hmin [] (c :: v) eq_refl ltac:(discriminate)) as E.
    cbn [app] in E. rewrite E.
    cbn [forallb] in Hp. apply andb_prop in Hp as [Hc Hp]. rewrite Hc.
    apply IH; auto.
    intros v1 v2 -> Hne. apply (Hmin (c :: v1) v2); auto.
Qed.

(** The matcher on the console pattern, written out. *)
Lemma match_here_consoleRe s pos :
  match_here false consoleRe s pos
  = match eat false (key_open "console") s with
    | Some s1 =>
        star_lazy (in_set false true []) s1
          (fun s2 =>
             match eat false EQUOTE s2 with
             | Some s3 =>
                 Some {| index := pos;
                         whole := take (length s - length s3) s;
                         groups := [take (length s1 - length s2) s1] |}
             | None => None
             end)
    | None => None
    end.
Proof.
  unfold match_here, consoleRe, DotStarLazy. cbn [m].
  destruct (eat false (key_open "console") s); reflexivity.
Qed.

Lemma exec_from_here ic r s pos mt :
  match_here ic r s pos = Some mt -> exec_from ic r s pos = Some mt.
Proof. intros H. destruct s; cbn [exec_from]; rewrite H; reflexivity. Qed.

Lemma exec_from_skip ic r pre s pos :
  (forall pre1 pre2 p,
      pre = pre1 ++ pre2 -> pre2 <> [] ->
      match_here ic r (pre2 ++ s) p = None) ->
  exec_from ic r (pre ++ s) pos = exec_from ic r s (pos + length pre).
Proof.
  revert pos. induction pre as [|c pre IH]; intros pos Hno.
  - cbn. rewrite Nat.add_0_r. reflexivity.
  - cbn [app exec_from length].
    pose proof (Hno [] (c :: pre) pos eq_refl ltac:(discriminate)) as E.
    cbn [app] in E. rewrite E, IH.
    + f_equal. lia.
    + intros pre1 pre2 p -> Hne. apply (Hno (c :: pre1) pre2); auto.
Qed.

(** A text that starts with the escaped quote once [post] is appended
    starts with it already. *)
Lemma starts_with_equote (t post r : jsstring) :
  (2 <= length t)%nat -> t ++ post = EQUOTE ++ r ->
  exists r', t = EQUOTE ++ r'.
Proof.
  intros Hl E. destruct t as [|a [|b t]]; cbn in Hl; try lia.
  cbn in E. inversion E; subst. exists t. reflexivity.
Qed.

(** The match of the console pattern, when the key first occurs after
    [pre] and the first escaped quote after it ends the value [v]. *)
Lemma console_match_first (html pre v post : jsstring) :
  html = pre ++ key_open "console" ++ v ++ EQUOTE ++ post ->
  (forall q, occurs_at (key_open "console") html q ->
             (length pre <= q)%nat) ->
  (forall q, occurs_at EQUOTE (v ++ EQUOTE) q -> q = length v) ->
  exists mt, str_match false html consoleRe = Some mt /\ group1 mt = v.
Proof.
  intros Hhtml Hfirst Hquote.
  unfold str_match. rewrite Hhtml, exec_from_skip.
  - eexists. split.
    + apply exec_from_here. rewrite match_here_consoleRe.
      rewrite (proj2 (eat_false_spec _ _ _) eq_refl).
      apply star_lazy_first.
      * clear. induction v as [|c v IH]; [reflexivity|].
        cbn [forallb]. rewrite in_set_any, IH. reflexivity.
      * intros v1 v2 -> Hne.
        destruct (eat false EQUOTE (v2 ++ EQUOTE ++ post)) as [r|] eqn:E;
          [|reflexivity].
        exfalso. apply eat_false_spec in E. rewrite app_assoc in E.
        apply starts_with_equote in E as [r' E].
        2:{ rewrite length_app. cbn. lia. }
        assert (Ho : occurs_at EQUOTE ((v1 ++ v2) ++ EQUOTE) (length v1)).
        { exists v1, r'. split; [|reflexivity].
          rewrite <- app_assoc, E. reflexivity. }
        apply Hquote in Ho. rewrite length_app in Ho.
        destruct v2; [contradiction|]. cbn in Ho. lia.
      * rewrite (proj2 (eat_false_spec _ _ _) eq_refl). reflexivity.
    + unfold group1. cbn [groups nth].
      rewrite take_consumed. reflexivity.
  - intros pre1 pre2 p -> Hne. rewrite match_here_consoleRe.
    destruct (eat false (key_open "console") (pre2 ++ _)) as [r|] eqn:E;
      [|reflexivity].
    exfalso. apply eat_false_spec in E.
    assert (Ho : occurs_at (key_open "console") html (length pre1)).
    { exists pre1, r. split; [|reflexivity].
      rewrite Hhtml, <- app_assoc, E. reflexivity. }
    apply Hfirst in Ho. rewrite length_app in Ho.
    destruct pre2; [contradiction|]. cbn in Ho. lia.
Qed.

(** X7: when the document holds the console key, a value and an escaped
    quote, the key not occurring earlier and the value holding no escaped
    quote that ends before its own end, the console text is that value,
    returned as it is written if it has no control character, and the
    extraction throws if it has one. *)
Theorem console_value_up_to_first_quote (html pre v post : jsstring) :
  html = pre ++ key_open "console" ++ v ++ EQUOTE ++ post ->
  (forall q, occurs_at (key_open "console") html q ->
             (length pre <= q)%nat) ->
  (forall q, occurs_at EQUOTE (v ++ EQUOTE) q -> q = length v) ->
  extractConsoleFromNadeHtml html
  = if existsb is_control v then Throw SyntaxError else Ok (Some v).
Proof.
  intros Hhtml Hfirst Hquote.
  destruct (console_match_first _ _ _ _ Hhtml Hfirst Hquote)
    as (mt & Hmt & Hg).
  unfold extractConsoleFromNadeHtml. rewrite Hmt, Hg.
  rewrite decodeJsEscapedString_spec.
  destruct (existsb is_control v); reflexivity.
Qed.

Lemma console_value_up_to_first_quote_witness :
  extractConsoleFromNadeHtml detail_a
  = Ok (Some (js "setpos 1 2 3;setang 4 5 6")).
Proof.
  refine (console_value_up_to_first_quote detail_a (js "<script>{")
            (js "setpos 1 2 3;setang 4 5 6") (js "}</script>") eq_refl _ _).
  - intros q Hq.
    destruct (find_from_Some (key_open "console") detail_a 0 9) as (_ & _ & H).
    + vm_compute. reflexivity.
    + specialize (H q Hq). exact H.
  - intros q Hq.
    assert (H1 : find_from EQUOTE (js "setpos 1 2 3;setang 4 5 6" ++ EQUOTE) 0
                 = Some 25%nat) by (vm_compute; reflexivity).
    destruct (find_from_Some _ _ _ _ H1) as (_ & _ & Hmin).
    specialize (Hmin q Hq). apply occurs_at_bound in Hq.
    assert (L : length (js "setpos 1 2 3;setang 4 5 6" ++ EQUOTE) = 27%nat)
      by (vm_compute; reflexivity).
    assert (L1 : length (js "setpos 1 2 3;setang 4 5 6") = 25%nat)
      by (vm_compute; reflexivity).
    assert (L2 : length EQUOTE = 2%nat) by reflexivity.
    rewrite L, L2 in Hq. rewrite L1. lia.
Defined.

Lemma exec_from_match_here ic r s pos mt :
  exec_from ic r s pos = Some mt ->
  exists pre s',
    s = pre ++ s' /\ match_here ic r s' (pos + length pre) = Some mt.
Proof.
  revert pos. induction s as [|c s IH]; intros pos; cbn [exec_from].
  - destruct (match_here ic r [] pos) eqn:E; [|discriminate].
    intros [= <-]. exists [], []. cbn [length]. rewrite Nat.add_0_r. auto.
  - destruct (match_here ic r (c :: s) pos) eqn:E.
    + intros [= <-]. exists [], (c :: s). cbn [length].
      rewrite Nat.add_0_r. auto.
    + intros H. destruct (IH _ H) as (pre & s' & -> & Hm).
      exists (c :: pre), s'. split; [reflexivity|].
      cbn [length]. rewrite <- Hm. f_equal. lia.
Qed.

(** What a match of the console pattern found by the matcher looks like. *)
Lemma console_match_shape html mt :
  str_match false html consoleRe = Some mt ->
  exists pre post,
    html = pre ++ key_open "console" ++ group1 mt ++ EQUOTE ++ post
    /\ ~ part_of EQUOTE (group1 mt).
Proof.
  unfold str_match. intros H.
  apply exec_from_match_here in H as (pre & s' & -> & Hm).
  rewrite match_here_consoleRe in Hm.
  destruct (eat false (key_open "console") s') as [s1|] eqn:E1;
    [|discriminate].
  apply eat_false_spec in E1. subst s'.
  apply star_lazy_minimal in Hm as (w & s2 & -> & _ & Hk & Hmin).
  destruct (eat false EQUOTE s2) as [s3|] eqn:E2; [|discriminate].
  apply eat_false_spec in E2. subst s2.
  inversion Hk; subst mt; clear Hk.
  unfold group1. cbn [groups nth]. rewrite take_consumed.
  exists pre, s3. split; [reflexivity|].
  intros (a & b & ->).
  specialize (Hmin a (EQUOTE ++ b) eq_refl ltac:(discriminate)).
  rewrite <- app_assoc in Hmin.
  rewrite (proj2 (eat_false_spec _ _ _) eq_refl) in Hmin. discriminate.
Qed.

Lemma consoleRe_matches_value v :
  matches false consoleRe (key_open "console" ++ v ++ EQUOTE) [v].
Proof.
  unfold consoleRe.
  change [v] with ([] ++ ([] ++ [v]) ++ []).
  apply M_Cat; [apply M_Lit, eat_literal|].
  apply M_Cat; [|apply M_Lit, eat_literal].
  apply M_Group, M_Star.
  induction v as [|c v IH]; [reflexivity|].
  cbn [forallb]. rewrite in_set_any, IH. reflexivity.
Qed.

(** X8: a console text that is extracted stands in the page between the
    console key and an escaped quote, holds no escaped quote itself and
    no control character. *)
Theorem console_text_shape (html c : jsstring) :
  extractConsoleFromNadeHtml html = Ok (Some c) ->
  (exists pre post,
      html = pre ++ key_open "console" ++ c ++ EQUOTE ++ post)
  /\ ~ part_of EQUOTE c
  /\ existsb is_control c = false.
Proof.
  unfold extractConsoleFromNadeHtml.
  destruct (str_match false html consoleRe) as [mt|] eqn:E; [|discriminate].
  rewrite decodeJsEscapedString_spec.
  destruct (existsb is_control (group1 mt)) eqn:Ec; [discriminate|].
  cbn. intros [= <-].
  destruct (console_match_shape _ _ E) as (pre & post & Hh & Hq).
  split; [exists pre, post; exact Hh|]. split; auto.
Qed.

Lemma console_text_shape_witness :
  (exists pre post,
      detail_a
      = pre ++ key_open "console" ++ js "setpos 1 2 3;setang 4 5 6"
            ++ EQUOTE ++ post)
  /\ ~ part_of EQUOTE (js "setpos 1 2 3;setang 4 5 6")
  /\ existsb is_control (js "setpos 1 2 3;setang 4 5 6") = false.
Proof.
  apply (console_text_shape detail_a). vm_compute. reflexivity.
Defined.

(** X9: the extraction returns no console text exactly when the page holds
    no console key followed, anywhere later, by an escaped quote; this
    is the only case in which it returns without a text. *)
Theorem no_console_iff (html : jsstring) :
  extractConsoleFromNadeHtml html = Ok None
  <-> ~ exists v, part_of (key_open "console" ++ v ++ EQUOTE) html.
Proof.
  unfold extractConsoleFromNadeHtml. split.
  - intros H (v & pre & post & Hh).
    destruct (str_match false html consoleRe) as [mt|] eqn:E.
    + rewrite decodeJsEscapedString_spec in H.
      destruct (existsb is_control (group1 mt)); discriminate.
    + assert (Hy : yields consoleRe html).
      { exists (key_open "console" ++ v ++ EQUOTE), [v].
        split; [exists pre, post; exact Hh|apply consoleRe_matches_value]. }
      apply str_match_yields in Hy as [mt Hmt]. congruence.
  - intros Hno.
    destruct (str_match false html consoleRe) as [mt|] eqn:E; [|reflexivity].
    exfalso. apply Hno.
    destruct (console_match_shape _ _ E) as (pre & post & Hh & _).
    exists (group1 mt), pre, post. rewrite Hh, <- !app_assoc. reflexivity.
Qed.

(** ** Command lines *)

Lemma trim_start_suffix (s : jsstring) : exists pre, s = pre ++ trim_start s.
Proof.
  induction s as [|c s [pre IH]]; cbn [trim_start].
  - exists []. reflexivity.
  - destruct (is_space c).
    + exists (c :: pre). cbn [app]. f_equal. exact IH.
    + exists []. reflexivity.
Qed.

Lemma trim_part_of (s : jsstring) : part_of (trim s) s.
Proof.
  unfold trim.
  destruct (trim_start_suffix s) as [pre Hs].
  destruct (trim_start_suffix (rev (trim_start s))) as [pre' Hr].
  apply (f_equal (@rev N)) in Hr. rewrite rev_involutive, rev_app_distr in Hr.
  exists pre, (rev pre'). rewrite <- Hr. exact Hs.
Qed.

(** X10: the line written for a console text is a contiguous part of that
    text: nothing is added to it or reordered, and a text without
    control characters gives a line without them. *)
Theorem command_line_is_part (c : jsstring) :
  part_of (command_line c) c
  /\ (existsb is_control c = false ->
      existsb is_control (command_line c) = false).
Proof.
  assert (Hp : part_of (command_line c) c).
  { unfold command_line.
    destruct (str_match true c pairRe) as [mt|] eqn:E.
    - apply str_match_sound in E as [_ (pre & post & Hc)].
      exists pre, post. exact Hc.
    - apply trim_part_of. }
  split; [exact Hp|].
  destruct Hp as (pre & post & Hc). intros Hctl.
  rewrite Hc, !existsb_app in Hctl.
  apply orb_false_elim in Hctl as [_ Hctl].
  apply orb_false_elim in Hctl as [Hctl _]. exact Hctl.
Qed.

(** ** Comment texts *)

Lemma collapse_tight b s : tight b (collapse_spaces b s) = true.
Proof.
  revert b. induction s as [|c s IH]; intros b; [reflexivity|].
  cbn [collapse_spaces]. destruct (is_space c) eqn:Hc.
  - destruct b; [apply IH|].
    cbn [tight]. change (is_space 32) with true. cbn iota.
    rewrite IH. reflexivity.
  - cbn [tight]. rewrite Hc. apply IH.
Qed.

Lemma collapse_fix b s : tight b s = true -> collapse_spaces b s = s.
Proof.
  revert b. induction s as [|c s IH]; intros b; [reflexivity|].
  cbn [tight collapse_spaces]. destruct (is_space c) eqn:Hc.
  - intros H. apply andb_prop in H as [H Hs]. apply andb_prop in H as [H32 Hb].
    apply N.eqb_eq in H32. subst c. destruct b; [discriminate|].
    rewrite (IH _ Hs). reflexivity.
  - intros H. rewrite (IH _ H). reflexivity.
Qed.

Lemma tight_after_space s : tight true s = true -> trim_start s = s.
Proof.
  destruct s as [|c s]; [reflexivity|]. cbn [tight trim_start].
  destruct (is_space c); [|reflexivity].
  intros H. apply andb_prop in H as [H _]. apply andb_prop in H as [_ H].
  discriminate.
Qed.

Lemma tight_trim_start b s :
  tight b s = true -> tight true (trim_start s) = true.
Proof.
  revert b. induction s as [|c s IH]; intros b; [reflexivity|].
  cbn [tight trim_start]. destruct (is_space c) eqn:Hc.
  - intros H. apply andb_prop in H as [_ H]. apply (IH _ H).
  - intros H. cbn [tight]. rewrite Hc. exact H.
Qed.

Lemma tight_app_inv b s t : tight b (s ++ t) = true -> tight b s = true.
Proof.
  revert b. induction s as [|c s IH]; intros b; [reflexivity|].
  cbn [app tight]. destruct (is_space c).
  - intros H. apply andb_prop in H as [H Hs]. rewrite H. apply (IH _ Hs).
  - apply IH.
Qed.

Lemma trim_end_space (s : jsstring) c :
  is_space c = true ->
  rev (trim_start (rev (s ++ [c]))) = rev (trim_start (rev s)).
Proof. intros H. rewrite rev_unit. cbn [trim_start]. rewrite H. reflexivity. Qed.

Lemma trim_end_letter (s : jsstring) c :
  is_space c = false -> rev (trim_start (rev (s ++ [c]))) = s ++ [c].
Proof.
  intros H. rewrite rev_unit. cbn [trim_start]. rewrite H.
  rewrite <- rev_unit. apply rev_involutive.
Qed.

Lemma tight_trim_end b s :
  tight b s = true -> tight b (rev (trim_start (rev s))) = true.
Proof.
  induction s as [|c s IH] using rev_ind; [reflexivity|]. intros H.
  destruct (is_space c) eqn:Hc.
  - rewrite (trim_end_space _ _ Hc). apply IH. exact (tight_app_inv _ _ _ H).
  - rewrite (trim_end_letter _ _ Hc). exact H.
Qed.

Lemma trim_end_last (s t : jsstring) c :
  rev (trim_start (rev s)) = t ++ [c] -> is_space c = false.
Proof.
  induction s as [|x s IH] using rev_ind.
  - cbn. intros H. destruct t; discriminate.
  - destruct (is_space x) eqn:Hx.
    + rewrite (trim_end_space _ _ Hx). exact IH.
    + rewrite (trim_end_letter _ _ Hx). intros H.
      apply app_inj_tail in H as [_ ->]. exact Hx.
Qed.

Lemma trim_end_fix (s : jsstring) :
  (forall t c, s = t ++ [c] -> is_space c = false) ->
  rev (trim_start (rev s)) = s.
Proof.
  destruct s as [|c s _] using rev_ind; [reflexivity|].
  intros H. apply trim_end_letter, (H s c eq_refl).
Qed.

Lemma tight_spaces b s c :
  tight b s = true -> c ∈ s -> is_space c = true -> c = 32%N.
Proof.
  revert b. induction s as [|d s IH]; intros b Ht Hin Hc.
  - inversion Hin.
  - cbn [tight] in Ht. apply elem_of_cons in Hin as [->|Hin].
    + rewrite Hc in Ht. apply andb_prop in Ht as [Ht _].
      apply andb_prop in Ht as [Ht _]. apply N.eqb_eq, Ht.
    + destruct (is_space d).
      * apply andb_prop in Ht as [_ Ht]. exact (IH _ Ht Hin Hc).
      * exact (IH _ Ht Hin Hc).
Qed.

Lemma tight_no_double b (pre post : jsstring) :
  tight b (pre ++ [32%N; 32%N] ++ post) = false.
Proof.
  revert b. induction pre as [|c pre IH]; intros b.
  - cbn [app tight]. change (is_space 32) with true. cbn iota.
    cbn [negb andb]. rewrite !andb_false_r. reflexivity.
  - cbn [app tight]. destruct (is_space c).
    + rewrite IH. apply andb_false_r.
    + apply IH.
Qed.

Lemma comment_form_tight b (s : jsstring) :
  (forall c, c ∈ s -> is_space c = true -> c = 32%N) ->
  ~ part_of [32%N; 32%N] s ->
  (b = true -> forall t, s <> 32%N :: t) ->
  tight b s = true.
Proof.
  revert b. induction s as [|c s IH]; intros b H32 Hdd Hfirst; [reflexivity|].
  assert (Hs : forall c0, c0 ∈ s -> is_space c0 = true -> c0 = 32%N).
  { intros c0 Hin. apply H32, elem_of_cons. auto. }
  assert (Hd : ~ part_of [32%N; 32%N] s).
  { intros (pre & post & ->). apply Hdd. exists (c :: pre), post. reflexivity. }
  cbn [tight]. destruct (is_space c) eqn:Hc.
  - assert (c = 32%N) as -> by (apply H32; [apply elem_of_cons; auto|exact Hc]).
    destruct b.
    + exfalso. exact (Hfirst eq_refl s eq_refl).
    + cbn. apply IH; auto.
      intros _ t ->. apply Hdd. exists [], t. reflexivity.
  - apply IH; auto.
Qed.

Lemma comment_form_spec (s : jsstring) :
  comment_form s
  <-> tight true s = true
      /\ forall t c, s = t ++ [c] -> is_space c = false.
Proof.
  split.
  - intros (H32 & Hdd & Hfirst & Hlast). split.
    + apply comment_form_tight; auto.
    + intros t c -> . destruct (is_space c) eqn:Hc; [|reflexivity].
      exfalso. apply (Hlast t). f_equal. f_equal.
      apply H32; [|exact Hc]. apply elem_of_app. right. constructor.
  - intros [Ht Hlast]. repeat split.
    + intros c. apply (tight_spaces _ _ _ Ht).
    + intros (pre & post & ->). rewrite tight_no_double in Ht. discriminate.
    + intros t ->. cbn [tight] in Ht. change (is_space 32) with true in Ht.
      cbn in Ht. discriminate.
    + intros t ->. specialize (Hlast t 32%N eq_refl). discriminate.
Qed.

Lemma filter_trim_start (s : jsstring) :
  List.filter (fun c => negb (is_space c)) (trim_start s)
  = List.filter (fun c => negb (is_space c)) s.
Proof.
  induction s as [|c s IH]; [reflexivity|].
  cbn [trim_start]. destruct (is_space c) eqn:Hc; [|reflexivity].
  cbn [List.filter]. rewrite Hc. exact IH.
Qed.

Lemma filter_collapse b (s : jsstring) :
  List.filter (fun c => negb (is_space c)) (collapse_spaces b s)
  = List.filter (fun c => negb (is_space c)) s.
Proof.
  revert b. induction s as [|c s IH]; intros b; [reflexivity|].
  cbn [collapse_spaces]. destruct (is_space c) eqn:Hc.
  - destruct b; cbn [List.filter]; rewrite ?Hc;
      change (is_space 32) with true; cbn [negb]; apply IH.
  - cbn [List.filter]. rewrite Hc. cbn [negb]. f_equal. apply IH.
Qed.

(** X11: a sanitized comment text is in comment form, whatever the input;
    the texts the function leaves unchanged are exactly those in comment
    form, so that sanitizing twice is sanitizing once; and the characters
    that are not white space are kept, all of them and in their order. *)
Theorem sanitizeComment_normal_form :
  (forall s, comment_form (sanitizeComment s))
  /\ (forall s, sanitizeComment (Some s) = s <-> comment_form s)
  /\ (forall s, sanitizeComment (Some (sanitizeComment s)) = sanitizeComment s)
  /\ (forall s,
        List.filter (fun c => negb (is_space c)) (sanitizeComment s)
        = List.filter (fun c => negb (is_space c)) (default [] s)).
Proof.
  assert (Hform : forall s, comment_form (sanitizeComment s)).
  { intros s. apply comment_form_spec. unfold sanitizeComment, trim. split.
    - apply tight_trim_end. eapply tight_trim_start. apply collapse_tight.
    - intros t c. apply trim_end_last. }
  assert (Hfix : forall s, comment_form s -> sanitizeComment (Some s) = s).
  { intros s Hs. apply comment_form_spec in Hs as [Ht Hlast].
    unfold sanitizeComment, trim. change (default [] (Some s)) with s.
    rewrite collapse_fix.
    - rewrite (tight_after_space _ Ht). apply trim_end_fix, Hlast.
    - destruct s as [|c s]; [reflexivity|]. cbn [tight] in *.
      destruct (is_space c); [|exact Ht].
      apply andb_prop in Ht as [Ht _]. apply andb_prop in Ht as [_ Ht].
      discriminate. }
  split; [exact Hform|]. split; [|split].
  - intros s. split; [|apply Hfix].
    intros E. rewrite <- E. apply Hform.
  - intros s. apply Hfix, Hform.
  - intros s. unfold sanitizeComment, trim.
    rewrite filter_rev, filter_trim_start, filter_rev, rev_involutive.
    rewrite filter_trim_start. apply filter_collapse.
Qed.

(** ** The order in which the limiter starts jobs *)

Section LimiterOrder.
Context {A : Type}.
Variable limit : Z.

Lemma pLimit_fifo : fifo (@pLimit A).
Proof.
  unfold fifo. cbn. repeat split; constructor.
Qed.

Lemma next_fifo (st : sched A) : fifo st -> fifo (next limit st).
Proof.
  unfold next. destruct (limit <=? active st)%Z; [auto|].
  destruct (queue st) as [|j q] eqn:Eq; [auto|].
  unfold fifo. rewrite Eq. cbn [queue running promises length fmap list_fmap].
  intros (Hlen & Hq & Hs & Hr).
  cbn [length] in Hlen.
  change (slot j :: (slot <$> q)
          = seq (length (promises st) - S (length q)) (S (length q))) in Hq.
  cbn [seq] in Hq. injection Hq as Hj Hq.
  replace (length (promises st) - length q)%nat
    with (S (length (promises st) - S (length q))) by lia.
  repeat split.
  - lia.
  - exact Hq.
  - rewrite fmap_app. apply StronglySorted_app. repeat split.
    + intros x y Hx Hy. apply list_elem_of_fmap in Hx as (jx & -> & Hx).
      cbn in Hy. apply list_elem_of_singleton in Hy. subst y.
      rewrite Forall_forall in Hr. specialize (Hr jx Hx). cbn in Hr. lia.
    + exact Hs.
    + repeat constructor.
  - apply Forall_app. split.
    + eapply Forall_impl; [exact Hr|]. cbn. intros; lia.
    + constructor; [lia|constructor].
Qed.

Lemma limiter_fifo f (st : sched A) : fifo st -> fifo (limiter limit f st).
Proof.
  intros (Hlen & Hq & Hs & Hr). unfold limiter. apply next_fifo.
  unfold fifo. cbn [queue running promises].
  rewrite !length_app. cbn [length].
  replace (length (promises st) + 1 - (length (queue st) + 1))%nat
    with (length (promises st) - length (queue st))%nat by lia.
  repeat split.
  - lia.
  - rewrite fmap_app, Hq, Nat.add_1_r, seq_S. cbn. do 2 f_equal. lia.
  - exact Hs.
  - exact Hr.
Qed.

Lemma settle_fifo k (st st' : sched A) :
  fifo st -> settle limit k st = Some st' -> fifo st'.
Proof.
  intros (Hlen & Hq & Hs & Hr). unfold settle.
  destruct (running st !! k) as [j|] eqn:Ek; [|discriminate].
  intros [= <-]. apply next_fifo.
  unfold fifo. cbn [queue running promises].
  rewrite length_insert. repeat split; auto.
  - rewrite list_fmap_delete, delete_take_drop.
    rewrite <- (take_drop k (slot <$> running st)) in Hs.
    apply StronglySorted_app in Hs as (H1 & H2 & H3).
    apply StronglySorted_app. repeat split.
    + intros x y Hx Hy. apply H1; [exact Hx|].
      apply list_elem_of_lookup in Hy as [i Hi].
      rewrite lookup_drop in Hi.
      apply list_elem_of_lookup. exists (S i).
      rewrite lookup_drop, <- Hi. f_equal. lia.
    + exact H2.
    + replace (S k) with (k + 1)%nat by lia. rewrite <- drop_drop.
      destruct (drop k (slot <$> running st)); [constructor|].
      cbn [drop]. apply StronglySorted_cons in H3 as [_ H3]. exact H3.
  - apply Forall_delete, Hr.
Qed.

Lemma step_fifo e (st st' : sched A) :
  fifo st -> step limit e st = Some st' -> fifo st'.
Proof.
  destruct e as [f|k]; cbn [step].
  - intros H [= <-]. apply limiter_fifo, H.
  - apply settle_fifo.
Qed.

Lemma run_fifo evs (st st' : sched A) :
  fifo st -> run limit evs st = Some st' -> fifo st'.
Proof.
  revert st. induction evs as [|e evs IH]; intros st H; cbn [run].
  - intros [= <-]. exact H.
  - destruct (step limit e st) as [st1|] eqn:E; [|discriminate].
    apply IH. exact (step_fifo _ _ _ H E).
Qed.

Lemma pLimit_pending : pending_jobs (@pLimit A).
Proof. intros j Hj. cbn in Hj. inversion Hj. Qed.

Lemma next_pending (st : sched A) :
  pending_jobs st -> pending_jobs (next limit st).
Proof.
  unfold next. destruct (limit <=? active st)%Z; [auto|].
  destruct (queue st) as [|j q] eqn:Eq; [auto|].
  unfold pending_jobs. rewrite Eq. cbn [queue running promises].
  intros H j' Hj. apply H. rewrite <- app_assoc in Hj. exact Hj.
Qed.

Lemma fifo_slot_bound (st : sched A) j :
  fifo st -> j ∈ running st ++ queue st ->
  (slot j < length (promises st))%nat.
Proof.
  intros (Hlen & Hq & _ & Hr) Hj. apply elem_of_app in Hj as [Hj|Hj].
  - rewrite Forall_forall in Hr. specialize (Hr j Hj). cbn in Hr. lia.
  - assert (Hs : slot j ∈ slot <$> queue st)
      by (apply list_elem_of_fmap; eauto).
    rewrite Hq in Hs. apply elem_of_seq in Hs. lia.
Qed.

Lemma limiter_pending f (st : sched A) :
  fifo st -> pending_jobs st -> pending_jobs (limiter limit f st).
Proof.
  intros Hf Hp. unfold limiter. apply next_pending.
  intros j Hj. cbn [queue running promises] in *.
  rewrite app_assoc in Hj. apply elem_of_app in Hj as [Hj|Hj].
  - rewrite lookup_app_l by (eapply fifo_slot_bound; eauto). apply Hp, Hj.
  - apply list_elem_of_singleton in Hj. subst j. cbn [slot].
    rewrite lookup_app_r by lia. rewrite Nat.sub_diag. reflexivity.
Qed.

(** Two jobs that run or wait have different slots. *)
Lemma fifo_other_slot (st : sched A) k j j' :
  fifo st -> running st !! k = Some j ->
  j' ∈ delete k (running st) ++ queue st -> slot j' <> slot j.
Proof.
  intros (Hlen & Hq & Hs & Hr) Hk Hj.
  apply elem_of_app in Hj as [Hj|Hj].
  - rewrite <- (take_drop_middle _ _ _ Hk), fmap_app in Hs.
    apply StronglySorted_app in Hs as (H1 & _ & H3).
    cbn [fmap list_fmap] in *.
    apply StronglySorted_cons in H3 as [H3 _].
    rewrite delete_take_drop in Hj. apply elem_of_app in Hj as [Hj|Hj].
    + assert (slot j' < slot j)%nat; [|lia].
      apply H1; [apply list_elem_of_fmap; eauto|left].
    + rewrite Forall_forall in H3.
      assert (slot j < slot j')%nat; [|lia].
      apply H3, list_elem_of_fmap. eauto.
  - assert (Hs' : slot j' ∈ slot <$> queue st)
      by (apply list_elem_of_fmap; eauto).
    rewrite Hq in Hs'. apply elem_of_seq in Hs'.
    rewrite Forall_forall in Hr.
    assert (Hin : j ∈ running st) by (eapply list_elem_of_lookup_2; eauto).
    specialize (Hr j Hin). cbn in Hr. lia.
Qed.

Lemma settle_pending k (st st' : sched A) :
  fifo st -> pending_jobs st -> settle limit k st = Some st' ->
  pending_jobs st'.
Proof.
  intros Hf Hp. unfold settle.
  destruct (running st !! k) as [j|] eqn:Ek; [|discriminate].
  intros [= <-]. apply next_pending.
  intros j' Hj. cbn [queue running promises] in *.
  rewrite list_lookup_insert_ne.
  - apply Hp. apply elem_of_app in Hj as [Hj|Hj]; apply elem_of_app.
    + left. eapply list_elem_of_delete_inv, Hj.
    + right. exact Hj.
  - intros E. symmetry in E. revert E. eapply fifo_other_slot; eauto.
Qed.

Lemma step_keeps_settled e (st st' : sched A) i r :
  fifo st -> pending_jobs st -> step limit e st = Some st' ->
  promises st !! i = Some (Some r) -> promises st' !! i = Some (Some r).
Proof.
  intros Hf Hp. destruct e as [f|k]; cbn [step].
  - intros [= <-] Hi. unfold limiter. rewrite next_promises.
    cbn [promises]. rewrite lookup_app_l; [exact Hi|].
    eapply lookup_lt_Some, Hi.
  - unfold settle. destruct (running st !! k) as [j|] eqn:Ek; [|discriminate].
    intros [= <-] Hi. rewrite next_promises. cbn [promises].
    rewrite list_lookup_insert_ne; [exact Hi|].
    intros E. subst i.
    assert (Hj : j ∈ running st ++ queue st).
    { apply elem_of_app. left. eapply list_elem_of_lookup_2, Ek. }
    rewrite (Hp j Hj) in Hi. discriminate.
Qed.

Lemma run_pending evs (st st' : sched A) :
  fifo st -> pending_jobs st -> run limit evs st = Some st' ->
  pending_jobs st'.
Proof.
  revert st. induction evs as [|e evs IH]; intros st Hf Hp; cbn [run].
  - intros [= <-]. exact Hp.
  - destruct (step limit e st) as [st1|] eqn:E; [|discriminate].
    apply IH; [exact (step_fifo _ _ _ Hf E)|].
    destruct e as [f|k]; cbn [step] in E.
    + inversion E; subst. apply limiter_pending; auto.
    + eapply settle_pending; eauto.
Qed.

Lemma run_keeps_settled evs (st st' : sched A) i r :
  fifo st -> pending_jobs st -> run limit evs st = Some st' ->
  promises st !! i = Some (Some r) -> promises st' !! i = Some (Some r).
Proof.
  revert st. induction evs as [|e evs IH]; intros st Hf Hp; cbn [run].
  - intros [= <-]. auto.
  - destruct (step limit e st) as [st1|] eqn:E; [|discriminate].
    intros Hrun Hi. apply (IH st1); auto.
    + exact (step_fifo _ _ _ Hf E).
    + apply (run_pending [e] st); auto. cbn [run]. rewrite E. reflexivity.
    + eapply step_keeps_settled; eauto.
Qed.

(** X12: first in, first out.  Whatever was submitted and whichever jobs
    completed, in any order and for any limit, the jobs that wait are the
    last ones submitted, in the order of submission, and every job that
    runs was submitted before every job that waits: a job never starts
    before one submitted earlier. *)
Theorem limiter_starts_in_submission_order (evs : list (event A))
    (st : sched A) :
  run limit evs pLimit = Some st ->
  fifo st
  /\ forall j j', j ∈ running st -> j' ∈ queue st -> (slot j < slot j')%nat.
Proof.
  intros H. pose proof (run_fifo _ _ _ pLimit_fifo H) as Hf.
  split; [exact Hf|].
  destruct Hf as (Hlen & Hq & _ & Hr). intros j j' Hj Hj'.
  rewrite Forall_forall in Hr. specialize (Hr j Hj). cbn in Hr.
  assert (Hs : slot j' ∈ slot <$> queue st)
    by (apply list_elem_of_fmap; eauto).
  rewrite Hq in Hs. apply elem_of_seq in Hs. lia.
Qed.

(** X13: a promise of the limiter settles once.  After any history of
    submissions and completions, a promise that holds an outcome holds the
    same outcome after any further history. *)
Theorem settled_promise_is_final (evs evs' : list (event A))
    (st st' : sched A) i r :
  run limit evs pLimit = Some st ->
  run limit evs' st = Some st' ->
  promises st !! i = Some (Some r) ->
  promises st' !! i = Some (Some r).
Proof.
  intros H H'. eapply run_keeps_settled; [| |exact H'].
  - exact (run_fifo _ _ _ pLimit_fifo H).
  - exact (run_pending _ _ _ pLimit_fifo pLimit_pending H).
Qed.

(** A limiter whose limit is not positive: its state after submissions. *)
Lemma idle_submit (fns : list (res A)) (st : sched A) :
  (limit <= 0)%Z ->
  active st = 0%Z -> running st = [] -> Forall (eq None) (promises st) ->
  let st' := fold_left (fun st f => limiter limit f st) fns st in
  active st' = 0%Z /\ running st' = []
  /\ Forall (eq None) (promises st')
  /\ length (promises st') = (length (promises st) + length fns)%nat.
Proof.
  intros Hl. revert st. induction fns as [|f fns IH]; intros st Ha Hr Hp.
  - cbn. repeat split; auto.
  - cbn [fold_left length].
    assert (E : limiter limit f st
                = {| active := active st;
                     queue := queue st
                              ++ [{| slot := length (promises st); fn := f |}];
                     running := running st;
                     promises := promises st ++ [None] |}).
    { unfold limiter, next. cbn [active]. rewrite Ha.
      destruct (Z.leb_spec limit 0); [reflexivity|lia]. }
    rewrite E. 
    destruct (IH {| active := active st;
                    queue := queue st
                             ++ [{| slot := length (promises st); fn := f |}];
                    running := running st;
                    promises := promises st ++ [None] |})
      as (H1 & H2 & H3 & H4); cbn [active running promises]; auto.
    { apply Forall_app. split; [exact Hp|repeat constructor]. }
    repeat split; auto. rewrite H4. cbn [promises].
    rewrite length_app. cbn [length]. lia.
Qed.

(** X14: a limiter whose limit is zero or negative starts nothing: the
    aggregate promise over one or more submitted functions stays pending,
    whatever the environment does. *)
Theorem nonpositive_limit_starts_nothing (fns : list (res A))
    (choices : list nat) :
  (limit <= 0)%Z -> fns <> [] ->
  promise_all limit fns choices = Pending
  /\ running (submit_all limit fns) = []
  /\ length (queue (submit_all limit fns)) = length fns.
Proof.
  intros Hl Hne.
  destruct (idle_submit fns pLimit Hl eq_refl eq_refl (Forall_nil_2 _))
    as (Ha & Hr & Hp & Hlen).
  fold (submit_all limit fns) in Ha, Hr, Hp, Hlen.
  split; [|split].
  - unfold promise_all.
    assert (Hf : fulfilled (promises (submit_all limit fns)) = None).
    { destruct (promises (submit_all limit fns)) as [|p ps] eqn:E.
      - cbn in Hlen. destruct fns; [contradiction|discriminate].
      - apply Forall_cons in Hp as [<- _]. reflexivity. }
    destruct choices as [|c cs]; cbn [await_all]; rewrite Hf; [reflexivity|].
    rewrite Hr. reflexivity.
  - exact Hr.
  - pose proof (submit_all_count limit fns) as Hc. rewrite Hr in Hc.
    cbn [length] in Hc. lia.
Qed.
End LimiterOrder.

Lemma limiter_starts_in_submission_order_witness :
  let st := {| active := 2; queue := [{| slot := 3; fn := Ok 4%nat |}];
               running := [{| slot := 1; fn := Ok 2%nat |};
                           {| slot := 2; fn := Ok 3%nat |}];
               promises := [Some (Ok 1%nat); None; None; None] |} in
  fifo st
  /\ forall j j', j ∈ running st -> j' ∈ queue st -> (slot j < slot j')%nat.
Proof.
  apply (limiter_starts_in_submission_order 2
           [Submit (Ok 1%nat); Submit (Ok 2%nat); Submit (Ok 3%nat);
            Submit (Ok 4%nat); Settle 0%nat]).
  reflexivity.
Defined.

Lemma settled_promise_is_final_witness :
  promises
    {| active := 1; queue := [];
       running := [{| slot := 2; fn := Throw SyntaxError |}];
       promises := [Some (Ok 1%nat); Some (Ok 2%nat); None] |} !! 0%nat
  = Some (Some (Ok 1%nat)).
Proof.
  apply (settled_promise_is_final 2
           [Submit (Ok 1%nat); Submit (Ok 2%nat); Settle 0%nat]
           [Submit (Throw SyntaxError); Settle 0%nat]
           {| active := 1; queue := [];
              running := [{| slot := 1; fn := Ok 2%nat |}];
              promises := [Some (Ok 1%nat); None] |});
    reflexivity.
Defined.

Lemma nonpositive_limit_starts_nothing_witness :
  promise_all 0 [Ok 1%nat; Ok 2%nat] [0%nat; 1%nat] = Pending
  /\ running (submit_all 0 [Ok 1%nat; Ok 2%nat]) = []
  /\ length (queue (submit_all 0 [Ok 1%nat; Ok 2%nat])) = 2%nat.
Proof.
  apply (nonpositive_limit_starts_nothing 0); [lia|discriminate].
Defined.

(** ** Runs of [main] *)

(** X15: the output does not depend on the order in which the fetches
    complete.  When a run writes an output, every run over the same
    network and command line in which every fetch completes writes the
    same output. *)
Theorem output_is_schedule_independent fetchText cfg nades
    (choices choices' : list nat) out :
  discover fetchText cfg = Ok nades ->
  main fetchText cfg choices = Some (Ok out) ->
  (length nades <= length choices')%nat ->
  main fetchText cfg choices' = Some (Ok out).
Proof.
  intros Hd Hm Hlen. unfold main in *. rewrite Hd in *.
  destruct (promise_all (the_limit cfg) (map (fetch_job fetchText cfg) nades)
              choices) as [results| |] eqn:E; try discriminate.
  injection Hm as <-.
  assert (Hfns : map (fetch_job fetchText cfg) nades = Ok <$> results).
  { unfold promise_all in E.
    eapply await_all_resolved; [apply submit_all_tracks|exact E]. }
  destruct (promise_all (the_limit cfg) (map (fetch_job fetchText cfg) nades)
              choices') as [results'|e|] eqn:E'.
  - assert (Hfns' : map (fetch_job fetchText cfg) nades = Ok <$> results').
    { unfold promise_all in E'.
      eapply await_all_resolved; [apply submit_all_tracks|exact E']. }
    rewrite Hfns in Hfns'. apply Ok_fmap_inj in Hfns'. subst. reflexivity.
  - exfalso. unfold promise_all in E'.
    assert (Hin : Throw e ∈ map (fetch_job fetchText cfg) nades).
    { eapply await_all_rejected; [apply submit_all_tracks|exact E']. }
    rewrite Hfns in Hin. apply list_elem_of_fmap in Hin as (v & Hv & _).
    discriminate.
  - exfalso. eapply (promise_all_settles _ (the_limit_pos cfg)); [|exact E'].
    rewrite length_map. exact Hlen.
Qed.

Lemma output_is_schedule_independent_witness :
  exists out,
    main net_ok sample_cfg [0%nat; 0%nat] = Some (Ok out)
    /\ main net_ok sample_cfg [1%nat; 0%nat] = Some (Ok out).
Proof.
  eexists. split; [vm_compute; reflexivity|].
  apply (output_is_schedule_independent net_ok sample_cfg [nade_a; nade_b]
           [0%nat; 0%nat] [1%nat; 0%nat]).
  - vm_compute. reflexivity.
  - vm_compute. reflexivity.
  - cbn. lia.
Defined.

(** X16: a listing page without the anchor ends the run before any detail
    page is asked for: [main] throws the error that names the listing
    address, whatever the environment does. *)
Theorem no_anchor_no_run fetchText cfg m page (choices : list nat) :
  encode (mapSlug cfg) = Ok m ->
  fetchText (baseUrl cfg ++ js "/" ++ m) = Ok page ->
  (forall q, ~ occurs_at idNeedle page q) ->
  main fetchText cfg choices
  = Some (Throw (Error (js "Could not find any nades on "
                        ++ (baseUrl cfg ++ js "/" ++ m)
                        ++ js ". The site layout may have changed."))).
Proof.
  intros Hm Hp Hno.
  assert (E : extractNadesFromMapHtml page = []).
  { unfold extractNadesFromMapHtml. rewrite (starts_of_no_anchor _ Hno).
    reflexivity. }
  unfold main, discover. rewrite Hm. cbn [res_bind]. rewrite Hp.
  cbn [res_bind]. rewrite E.
  destruct (the_max cfg) as [mx|]; [rewrite take_nil|]; reflexivity.
Qed.

Lemma no_anchor_no_run_witness :
  main (fun _ => Ok detail_b) sample_cfg []
  = Some (Throw (Error (js "Could not find any nades on "
                        ++ (js "https://csnades.gg" ++ js "/" ++ js "mirage")
                        ++ js ". The site layout may have changed."))).
Proof.
  apply (no_anchor_no_run (fun _ => Ok detail_b) sample_cfg (js "mirage")
           detail_b []).
  - vm_compute. reflexivity.
  - reflexivity.
  - apply (find_from_None idNeedle detail_b 0). vm_compute. reflexivity.
Defined.

(** X17: the records that are scheduled.  When discovery succeeds there is
    at least one record; the records are the first ones of those extracted
    from the listing page, all of them when no cap was given and at most
    the cap otherwise, the cap being at least one; and no two of them have
    the same type and slug. *)
Theorem discovered_records fetchText cfg nades :
  discover fetchText cfg = Ok nades ->
  nades <> []
  /\ NoDup (key_of <$> nades)
  /\ exists m page,
       encode (mapSlug cfg) = Ok m
       /\ fetchText (baseUrl cfg ++ js "/" ++ m) = Ok page
       /\ nades `prefix_of` extractNadesFromMapHtml page
       /\ match the_max cfg with
          | None => nades = extractNadesFromMapHtml page
          | Some mx =>
              (1 <= mx)%Z
              /\ length nades
                 = Nat.min (Z.to_nat mx)
                     (length (extractNadesFromMapHtml page))
          end.
Proof.
  unfold discover.
  destruct (encode (mapSlug cfg)) as [m|] eqn:Hm; [|discriminate].
  cbn [res_bind].
  destruct (fetchText (baseUrl cfg ++ js "/" ++ m)) as [page|] eqn:Hp;
    [|discriminate].
  cbn [res_bind].
  set (all := extractNadesFromMapHtml page).
  assert (Hall : NoDup (key_of <$> all)) by apply dedupe_NoDup.
  destruct (the_max cfg) as [mx|] eqn:Hmx.
  - destruct (take (Z.to_nat mx) all) as [|n l] eqn:Et; [discriminate|].
    intros [= <-]. split; [discriminate|]. rewrite <- Et. split.
    + rewrite fmap_take. eapply sublist_NoDup; [exact Hall|apply sublist_take].
    + exists m, page. repeat split; auto.
      * apply prefix_take.
      * unfold the_max in Hmx. destruct (maxArg cfg); [|discriminate].
        cbn in Hmx. injection Hmx as <-. lia.
      * apply length_take.
  - destruct all as [|n l] eqn:Ea; [discriminate|].
    intros [= <-]. split; [discriminate|]. split; [exact Hall|].
    exists m, page. repeat split; auto.
    change (extractNadesFromMapHtml page) with all. rewrite Ea.
    exists []. symmetry. apply app_nil_r.
Qed.

Lemma discovered_records_witness :
  [nade_a; nade_b] <> []
  /\ NoDup (key_of <$> [nade_a; nade_b])
  /\ exists m page,
       encode (mapSlug sample_cfg) = Ok m
       /\ net_ok (baseUrl sample_cfg ++ js "/" ++ m) = Ok page
       /\ [nade_a; nade_b] `prefix_of` extractNadesFromMapHtml page
       /\ match the_max sample_cfg with
          | None => [nade_a; nade_b] = extractNadesFromMapHtml page
          | Some mx =>
              (1 <= mx)%Z
              /\ length [nade_a; nade_b]
                 = Nat.min (Z.to_nat mx)
                     (length (extractNadesFromMapHtml page))
          end.
Proof.
  apply (discovered_records net_ok sample_cfg). vm_compute. reflexivity.
Defined.

Lemma missing_count_zero (results : list NadeResult) :
  missing_count results = 0%nat
  <-> Forall (fun r => truthy (console r) = true) results.
Proof.
  unfold missing_count. induction results as [|r rs IH].
  - split; [constructor|reflexivity].
  - rewrite filter_cons. destruct (truthy (console r)) eqn:E.
    + rewrite decide_False by discriminate. rewrite IH. split.
      * intros H. constructor; auto.
      * intros H. apply Forall_cons in H as [_ H]. exact H.
    + rewrite decide_True by reflexivity. split; [discriminate|].
      intros H. apply Forall_cons in H as [H _]. congruence.
Qed.

(** X18: the report of missing console texts is made exactly when some
    result has no console text or an empty one; then it gives their
    number, which is never more than the number of results. *)
Theorem report_iff_some_missing cfg (results : list NadeResult) :
  (out_missing (render cfg results) = None
   <-> Forall (fun r => truthy (console r) = true) results)
  /\ (forall line,
        out_missing (render cfg results) = Some line ->
        line = js "Missing console: " ++ string_of_nat (missing_count results)
        /\ (0 < missing_count results <= length results)%nat).
Proof.
  unfold render. rewrite render_loop_spec. cbn [out_missing Nat.add].
  split.
  - rewrite <- missing_count_zero.
    destruct (missing_count results); split; congruence.
  - intros line. pose proof (length_filter
      (fun r => truthy (console r) = false) results) as Hle.
    fold (missing_count results) in Hle.
    destruct (missing_count results) as [|k]; [discriminate|].
    intros [= <-]. split; [reflexivity|lia].
Qed.

(** ** The command line *)

Lemma is_flag_dashes k : is_flag (js "--" ++ k) = true.
Proof. apply starts_with_spec. exists k. reflexivity. Qed.

Lemma drop_dashes (k : jsstring) : drop 2 (js "--" ++ k) = k.
Proof. reflexivity. Qed.

Lemma is_flag_key token :
  is_flag token = true -> token = js "--" ++ drop 2 token.
Proof.
  intros H. apply starts_with_spec in H as [post ->].
  rewrite drop_dashes. reflexivity.
Qed.

Lemma parseArgs_from_positional t rest o :
  is_flag t = false ->
  parseArgs_from (t :: rest) o = push_positional t o ≫= parseArgs_from rest.
Proof.
  intros H. cbn [parseArgs_from]. rewrite H. unfold push_positional.
  destruct (o !! js "_") as [[| |l]|]; reflexivity.
Qed.

Lemma parseArgs_from_flag_value f v rest o :
  is_flag f = true -> is_flag v = false ->
  parseArgs_from (f :: v :: rest) o
  = parseArgs_from rest (set_prop (drop 2 f) (VStr v) o).
Proof. intros Hf Hv. cbn [parseArgs_from]. rewrite Hf, Hv. reflexivity. Qed.

Lemma parseArgs_from_flag_flag f g rest o :
  is_flag f = true -> is_flag g = true ->
  parseArgs_from (f :: g :: rest) o
  = parseArgs_from (g :: rest) (set_prop (drop 2 f) VTrue o).
Proof. intros Hf Hg. cbn [parseArgs_from]. rewrite Hf, Hg. reflexivity. Qed.

Lemma parseArgs_from_flag_end f o :
  is_flag f = true ->
  parseArgs_from [f] o = Some (set_prop (drop 2 f) VTrue o).
Proof. intros Hf. cbn [parseArgs_from]. rewrite Hf. reflexivity. Qed.

Lemma clean_cut_tail t (a b : list jsstring) :
  clean_cut (t :: a) b -> clean_cut a b.
Proof.
  intros H f v Hl. apply H. destruct a; [discriminate|exact Hl].
Qed.

Lemma parseArgs_from_app_bounded n (a b : list jsstring) o :
  (length a <= n)%nat -> clean_cut a b ->
  parseArgs_from (a ++ b) o = parseArgs_from a o ≫= parseArgs_from b.
Proof.
  revert a o. induction n as [|n IH]; intros a o Hn Hc.
  - destruct a; [reflexivity|cbn in Hn; lia].
  - destruct a as [|t a]; [reflexivity|]. cbn [length] in Hn.
    destruct (is_flag t) eqn:Ht.
    + destruct a as [|u a].
      * rewrite (parseArgs_from_flag_end _ _ Ht). cbn [app mbind option_bind].
        destruct b as [|v b].
        -- cbn [parseArgs_from]. rewrite Ht. reflexivity.
        -- assert (Hv : is_flag v = true) by (apply (Hc t v); auto).
           apply parseArgs_from_flag_flag; auto.
      * cbn [app]. destruct (is_flag u) eqn:Hu.
        -- rewrite !(parseArgs_from_flag_flag _ _ _ _ Ht Hu).
           apply (IH (u :: a)); [cbn [length] in *; lia|].
           exact (clean_cut_tail _ _ _ Hc).
        -- rewrite !(parseArgs_from_flag_value _ _ _ _ Ht Hu).
           apply IH; [cbn [length] in *; lia|].
           exact (clean_cut_tail _ _ _ (clean_cut_tail _ _ _ Hc)).
    + cbn [app]. rewrite !(parseArgs_from_positional _ _ _ Ht).
      destruct (push_positional t o) as [o'|]; [|reflexivity].
      cbn [mbind option_bind]. apply IH; [lia|].
      exact (clean_cut_tail _ _ _ Hc).
Qed.

Lemma parseArgs_from_app (a b : list jsstring) o :
  clean_cut a b ->
  parseArgs_from (a ++ b) o = parseArgs_from a o ≫= parseArgs_from b.
Proof. apply (parseArgs_from_app_bounded (length a)). lia. Qed.

Lemma clean_cut_flag (a b : list jsstring) g :
  is_flag g = true -> clean_cut a (g :: b).
Proof. intros Hg f v _ [= <-] _. exact Hg. Qed.

Lemma clean_cut_after_value (a b : list jsstring) :
  (forall f, last a = Some f -> is_flag f = false) -> clean_cut a b.
Proof. intros H f v Hl _ Hf. rewrite (H f Hl) in Hf. discriminate. Qed.

Lemma parseArgs_flag_value argv k v :
  is_flag v = false ->
  parseArgs (argv ++ [js "--" ++ k; v]) = set_prop k (VStr v) <$> parseArgs argv.
Proof.
  intros Hv. unfold parseArgs.
  rewrite parseArgs_from_app by apply clean_cut_flag, is_flag_dashes.
  destruct (parseArgs_from argv _) as [o|]; [|reflexivity].
  cbn [mbind option_bind fmap option_fmap option_map].
  rewrite (parseArgs_from_flag_value _ _ _ _ (is_flag_dashes k) Hv).
  rewrite drop_dashes. reflexivity.
Qed.

Lemma parseArgs_flag_alone argv k :
  parseArgs (argv ++ [js "--" ++ k]) = set_prop k VTrue <$> parseArgs argv.
Proof.
  unfold parseArgs.
  rewrite parseArgs_from_app by apply clean_cut_flag, is_flag_dashes.
  destruct (parseArgs_from argv _) as [o|]; [|reflexivity].
  cbn [mbind option_bind fmap option_fmap option_map].
  rewrite (parseArgs_from_flag_end _ _ (is_flag_dashes k)).
  rewrite drop_dashes. reflexivity.
Qed.

Lemma parseArgs_from_positionals (argv l : list jsstring) o :
  Forall (fun t => is_flag t = false) argv ->
  o !! js "_" = Some (VArr l) ->
  parseArgs_from argv o = Some (<[js "_" := VArr (l ++ argv)]> o).
Proof.
  intros H. revert l o. induction H as [|t argv Ht _ IH]; intros l o Ho.
  - cbn [parseArgs_from]. rewrite app_nil_r, insert_id by exact Ho.
    reflexivity.
  - rewrite (parseArgs_from_positional _ _ _ Ht). unfold push_positional.
    rewrite Ho. cbn [mbind option_bind].
    rewrite (IH (l ++ [t])) by apply lookup_insert_eq.
    rewrite insert_insert_eq, <- app_assoc. reflexivity.
Qed.

Lemma parseArgs_positionals (argv : list jsstring) :
  Forall (fun t => is_flag t = false) argv ->
  parseArgs argv = Some {[ js "_" := VArr argv ]}.
Proof.
  intros H. unfold parseArgs.
  rewrite (parseArgs_from_positionals argv [] _ H)
    by apply lookup_singleton_eq.
  rewrite insert_singleton_eq. reflexivity.
Qed.

(** X19: parsing a command line is parsing it piece by piece, the second
    piece starting from the object the first one left, wherever the cut
    is made except between an option and its value; and a TypeError in
    the first piece is the outcome of the whole. *)
Theorem parse_in_pieces (a b : list jsstring) :
  clean_cut a b ->
  parseArgs (a ++ b) = parseArgs a ≫= parseArgs_from b.
Proof. intros H. unfold parseArgs. apply parseArgs_from_app, H. Qed.

Lemma parse_in_pieces_witness :
  parseArgs ([js "mirage"; js "--limit"; js "3"] ++ [js "--out"; js "m.cfg"])
  = parseArgs [js "mirage"; js "--limit"; js "3"]
      ≫= parseArgs_from [js "--out"; js "m.cfg"].
Proof.
  apply parse_in_pieces. intros f v _ [= <-] _. vm_compute. reflexivity.
Defined.

(** X20: the four laws of [parseArgs].  Tokens that are not options are
    collected in [_] in their order; an option followed by a token that
    is not an option takes it as its value, whatever was parsed before,
    so that the last occurrence of an option wins; an option at the end
    is set to [true]; and a last token that is neither an option nor the
    value of one is pushed on [_], with a TypeError when [_] is no longer
    the array. *)
Theorem parseArgs_laws :
  (forall argv,
      Forall (fun t => is_flag t = false) argv ->
      parseArgs argv = Some {[ js "_" := VArr argv ]})
  /\ (forall argv k v,
        is_flag v = false ->
        parseArgs (argv ++ [js "--" ++ k; v])
        = set_prop k (VStr v) <$> parseArgs argv)
  /\ (forall argv k,
        parseArgs (argv ++ [js "--" ++ k])
        = set_prop k VTrue <$> parseArgs argv)
  /\ (forall argv t,
        is_flag t = false ->
        (forall f, last argv = Some f -> is_flag f = false) ->
        parseArgs (argv ++ [t]) = parseArgs argv ≫= push_positional t).
Proof.
  split; [exact parseArgs_positionals|].
  split; [exact parseArgs_flag_value|].
  split; [exact parseArgs_flag_alone|].
  intros argv t Ht Hlast. unfold parseArgs.
  rewrite parseArgs_from_app by apply clean_cut_after_value, Hlast.
  destruct (parseArgs_from argv _) as [o|]; [|reflexivity].
  cbn [mbind option_bind]. rewrite (parseArgs_from_positional _ _ _ Ht).
  destruct (push_positional t o); reflexivity.
Qed.

Lemma set_prop_keeps_positionals f v o :
  is_flag f = true -> f <> js "--_" ->
  set_prop (drop 2 f) v o !! js "_" = o !! js "_".
Proof.
  intros Hf Hne. unfold set_prop.
  destruct (bool_decide (drop 2 f = js "__proto__")); [reflexivity|].
  apply lookup_insert_ne. intros E. apply Hne.
  rewrite (is_flag_key _ Hf), E. reflexivity.
Qed.

Lemma parseArgs_from_array n (argv l : list jsstring) o :
  (length argv <= n)%nat ->
  js "--_" ∉ argv ->
  o !! js "_" = Some (VArr l) ->
  exists o' l',
    parseArgs_from argv o = Some o'
    /\ o' !! js "_" = Some (VArr (l ++ l'))
    /\ l' `sublist_of` argv
    /\ Forall (fun t => is_flag t = false) l'.
Proof.
  revert argv l o. induction n as [|n IH]; intros argv l o Hn Hno Ho.
  - destruct argv; [|cbn in Hn; lia].
    exists o, []. rewrite app_nil_r. repeat split; auto; constructor.
  - destruct argv as [|t argv].
    { exists o, []. rewrite app_nil_r. repeat split; auto; constructor. }
    cbn [length] in Hn.
    apply not_elem_of_cons in Hno as [Ht Hno].
    destruct (is_flag t) eqn:Hf.
    + destruct argv as [|u argv].
      * rewrite (parseArgs_from_flag_end _ _ Hf).
        exists (set_prop (drop 2 t) VTrue o), []. rewrite app_nil_r.
        repeat split; auto.
        -- rewrite set_prop_keeps_positionals; auto.
        -- apply sublist_nil_l.
      * destruct (is_flag u) eqn:Hu.
        -- rewrite (parseArgs_from_flag_flag _ _ _ _ Hf Hu).
           destruct (IH (u :: argv) l (set_prop (drop 2 t) VTrue o))
             as (o' & l' & H1 & H2 & H3 & H4); auto.
           { cbn [length] in *. lia. }
           { rewrite set_prop_keeps_positionals; auto. }
           exists o', l'. repeat split; auto. apply sublist_cons, H3.
        -- rewrite (parseArgs_from_flag_value _ _ _ _ Hf Hu).
           apply not_elem_of_cons in Hno as [_ Hno].
           destruct (IH argv l (set_prop (drop 2 t) (VStr u) o))
             as (o' & l' & H1 & H2 & H3 & H4); auto.
           { cbn [length] in *. lia. }
           { rewrite set_prop_keeps_positionals; auto. }
           exists o', l'. repeat split; auto.
           apply sublist_cons, sublist_cons, H3.
    + rewrite (parseArgs_from_positional _ _ _ Hf). unfold push_positional.
      rewrite Ho. cbn [mbind option_bind].
      destruct (IH argv (l ++ [t]) (<[js "_" := VArr (l ++ [t])]> o))
        as (o' & l' & H1 & H2 & H3 & H4); auto.
      { lia. }
      { apply lookup_insert_eq. }
      exists o', (t :: l'). rewrite <- app_assoc in H2.
      repeat split; auto. apply sublist_skip, H3.
Qed.

(** X21: [parseArgs] throws only through the option [--_].  A command
    line without the token [--_] is parsed, and [_] is then an array of
    tokens of the command line that are not options, in their order.  A
    command line in which [--_] is followed by two tokens that are not
    options is not parsed: the TypeError of [args._.push] is thrown. *)
Theorem parseArgs_throws_only_through_underscore :
  (forall argv,
      js "--_" ∉ argv ->
      exists o l,
        parseArgs argv = Some o
        /\ o !! js "_" = Some (VArr l)
        /\ l `sublist_of` argv
        /\ Forall (fun t => is_flag t = false) l)
  /\ (forall a v t b,
        is_flag v = false -> is_flag t = false ->
        parseArgs (a ++ js "--_" :: v :: t :: b) = None).
Proof.
  split.
  - intros argv Hno.
    destruct (parseArgs_from_array (length argv) argv []
                {[ js "_" := VArr [] ]} (le_n _) Hno
                (lookup_singleton_eq _ _))
      as (o' & l' & H1 & H2 & H3 & H4).
    exists o', l'. auto.
  - intros a v t b Hv Ht. unfold parseArgs.
    rewrite parseArgs_from_app by (apply clean_cut_flag; reflexivity).
    destruct (parseArgs_from a _) as [o|]; [|reflexivity].
    cbn [mbind option_bind].
    rewrite (parseArgs_from_flag_value (js "--_") _ _ _ eq_refl Hv).
    rewrite (parseArgs_from_positional _ _ _ Ht). unfold push_positional.
    change (drop 2 (js "--_")) with (js "_"). unfold set_prop.
    rewrite bool_decide_eq_false_2 by (vm_compute; discriminate).
    rewrite lookup_insert_eq. reflexivity.
Qed.

(** X22: which map is scraped.  Without options the map is the first
    token, if there is one and it is not empty; a last [--map] with a
    value that is not empty overrides everything before it; and a last
    [--map] without a value ends the script with the usage text, even when
    a map was named before. *)
Theorem map_slug_selection :
  (forall argv,
      Forall (fun t => is_flag t = false) argv ->
      mapSlug_of <$> parseArgs argv
      = Some (match argv with
              | s :: _ => if nonempty s then Started s else UsageExit
              | [] => UsageExit
              end))
  /\ (forall argv s,
        is_flag s = false ->
        mapSlug_of <$> parseArgs (argv ++ [js "--map"; s])
        = (fun _ => if nonempty s then Started s else UsageExit)
            <$> parseArgs argv)
  /\ (forall argv,
        mapSlug_of <$> parseArgs (argv ++ [js "--map"])
        = (fun _ => UsageExit) <$> parseArgs argv).
Proof.
  split; [|split].
  - intros argv H. rewrite (parseArgs_positionals _ H).
    cbn [fmap option_fmap option_map]. unfold mapSlug_of.
    rewrite lookup_singleton_ne by (vm_compute; discriminate).
    rewrite lookup_singleton_eq. destruct argv; reflexivity.
  - intros argv s Hs.
    change (js "--map") with (js "--" ++ js "map").
    rewrite (parseArgs_flag_value _ _ _ Hs).
    destruct (parseArgs argv) as [o|]; [|reflexivity].
    cbn [fmap option_fmap option_map]. f_equal. unfold mapSlug_of, set_prop.
    rewrite bool_decide_eq_false_2 by (vm_compute; discriminate).
    rewrite lookup_insert_eq. reflexivity.
  - intros argv.
    change (js "--map") with (js "--" ++ js "map").
    rewrite parseArgs_flag_alone.
    destruct (parseArgs argv) as [o|]; [|reflexivity].
    cbn [fmap option_fmap option_map]. f_equal. unfold mapSlug_of, set_prop.
    rewrite bool_decide_eq_false_2 by (vm_compute; discriminate).
    rewrite lookup_insert_eq. reflexivity.
Qed.

(** ** The addresses of the detail pages *)

Lemma hex_digit_unreserved n : (n < 16)%N -> unreserved (hex_digit n) = true.
Proof.
  intros H.
  assert (Hall : forallb (fun k => unreserved (hex_digit (N.of_nat k)))
                   (seq 0 16) = true) by (vm_compute; reflexivity).
  rewrite forallb_forall in Hall.
  rewrite <- (N2Nat.id n). apply Hall, in_seq. lia.
Qed.

Lemma percent_safe b : (b < 256)%N -> Forall url_safe (percent b).
Proof.
  intros H. unfold percent.
  apply Forall_cons. split; [right; reflexivity|].
  apply Forall_cons. split.
  { left. apply hex_digit_unreserved, N.Div0.div_lt_upper_bound. lia. }
  apply Forall_cons. split; [|constructor].
  left. apply hex_digit_unreserved, N.mod_lt. lia.
Qed.

Lemma utf8_bytes cp : (cp < 1114112)%N -> Forall (fun b => (b < 256)%N) (utf8 cp).
Proof.
  intros H. unfold utf8.
  pose proof (N.mod_lt cp 64 ltac:(lia)).
  pose proof (N.mod_lt (cp / 64) 64 ltac:(lia)).
  pose proof (N.mod_lt (cp / 4096) 64 ltac:(lia)).
  destruct (N.ltb_spec cp 128); [repeat constructor; lia|].
  destruct (N.ltb_spec cp 2048).
  { assert (cp / 64 < 32)%N by (apply N.Div0.div_lt_upper_bound; lia).
    repeat constructor; lia. }
  destruct (N.ltb_spec cp 65536).
  { assert (cp / 4096 < 16)%N by (apply N.Div0.div_lt_upper_bound; lia).
    repeat constructor; lia. }
  assert (cp / 262144 < 5)%N by (apply N.Div0.div_lt_upper_bound; lia).
  repeat constructor; lia.
Qed.

Lemma utf8_safe cp :
  (cp < 1114112)%N -> Forall url_safe (flat_map percent (utf8 cp)).
Proof.
  intros H. pose proof (utf8_bytes cp H) as Hb.
  induction Hb as [|b l Hb _ IH]; [constructor|].
  cbn [flat_map]. apply Forall_app. split; [apply percent_safe, Hb|exact IH].
Qed.

Lemma encodeURIComponent_safe n (s e : jsstring) :
  (length s <= n)%nat -> code_units s ->
  encodeURIComponent s = Some e -> Forall url_safe e.
Proof.
  revert s e. induction n as [|n IH]; intros s e Hn Hs.
  - destruct s; [|cbn in Hn; lia]. intros [= <-]. constructor.
  - destruct s as [|c s]; [intros [= <-]; constructor|].
    cbn [length] in Hn. apply Forall_cons in Hs as [Hc Hs].
    cbn [encodeURIComponent].
    destruct (unreserved c) eqn:Hu.
    { destruct (encodeURIComponent s) as [e'|] eqn:E; [|discriminate].
      intros [= <-]. constructor; [left; exact Hu|].
      apply (IH s); auto. lia. }
    destruct (is_low c) eqn:Hl; [discriminate|].
    destruct (is_high c) eqn:Hh.
    + destruct s as [|d s]; [discriminate|].
      destruct (is_low d) eqn:Hd; [|discriminate].
      apply Forall_cons in Hs as [_ Hs].
      destruct (encodeURIComponent s) as [e'|] eqn:E; [|discriminate].
      intros [= <-]. apply Forall_app. split.
      * apply utf8_safe. unfold is_high, is_low in Hh, Hd.
        apply andb_prop in Hh as [H1 H2]. apply andb_prop in Hd as [H3 H4].
        apply N.leb_le in H1, H2, H3, H4. lia.
      * apply (IH s); auto. cbn [length] in Hn. lia.
    + destruct (encodeURIComponent s) as [e'|] eqn:E; [|discriminate].
      intros [= <-]. apply Forall_app. split.
      * apply utf8_safe. lia.
      * apply (IH s); auto. lia.
Qed.

Lemma encode_safe (s e : jsstring) :
  code_units s -> encode s = Ok e -> Forall url_safe e.
Proof.
  unfold encode. intros Hs.
  destruct (encodeURIComponent s) as [e'|] eqn:E; [|discriminate].
  intros [= <-]. exact (encodeURIComponent_safe (length s) s e' (le_n _) Hs E).
Qed.

(** X23: the map and the slug cannot change the shape of the address of a
    detail page.  The address a job fetches is the base address followed
    by three segments, and the first and the third, which come from the
    command line and from the listing page, hold only characters that
    [encodeURIComponent] leaves alone and percent signs: no slash,
    question mark, hash sign or white space. *)
Theorem detail_url_segments fetchText cfg (n : NadeSummary)
    (r : NadeResult) (u : jsstring) :
  code_units (mapSlug cfg) -> code_units (slug n) ->
  fetch_job fetchText cfg n = Ok r -> url r = Some u ->
  exists m t s,
    u = baseUrl cfg ++ js "/" ++ m ++ js "/" ++ t ++ js "/" ++ s
    /\ typeToPath (type n) = Some t
    /\ Forall url_safe m /\ Forall url_safe s
    /\ forall c, c ∈ m ++ s -> c ∉ js "/?# ".
Proof.
  intros Hm Hs. unfold fetch_job.
  destruct (typeToPath (type n)) as [t|] eqn:Ht.
  2:{ intros [= <-]. discriminate. }
  destruct (encode (mapSlug cfg)) as [m|] eqn:Em; [|discriminate].
  cbn [res_bind].
  destruct (encode (slug n)) as [s|] eqn:Es; [|discriminate].
  cbn [res_bind].
  destruct (fetchText _) as [page|]; [|discriminate]. cbn [res_bind].
  destruct (extractConsoleFromNadeHtml page) as [txt|]; [|discriminate].
  cbn [res_bind]. intros [= <-]. cbn [url]. intros [= <-].
  pose proof (encode_safe _ _ Hm Em) as Sm.
  pose proof (encode_safe _ _ Hs Es) as Ss.
  exists m, t, s. repeat split; auto.
  intros c Hc Hbad.
  assert (Hsafe : url_safe c).
  { apply elem_of_app in Hc as [Hc|Hc];
      [rewrite Forall_forall in Sm; auto|rewrite Forall_forall in Ss; auto]. }
  assert (Hc4 : c = 47%N \/ c = 63%N \/ c = 35%N \/ c = 32%N).
  { change (js "/?# ") with [47%N; 63%N; 35%N; 32%N] in Hbad.
    repeat (apply elem_of_cons in Hbad as [Hbad|Hbad]; [auto|]).
    inversion Hbad. }
  destruct Hsafe as [Hu|Hp];
    destruct Hc4 as [->|[->|[->| ->]]]; try discriminate Hu;
    discriminate Hp.
Qed.

Lemma detail_url_segments_witness :
  exists m t s,
    js "https://csnades.gg/mirage/smokes/a"
    = baseUrl sample_cfg ++ js "/" ++ m ++ js "/" ++ t ++ js "/" ++ s
    /\ typeToPath (type nade_a) = Some t
    /\ Forall url_safe m /\ Forall url_safe s
    /\ forall c, c ∈ m ++ s -> c ∉ js "/?# ".
Proof.
  apply (detail_url_segments net_ok sample_cfg nade_a
           {| nade := nade_a;
              console := Some (js "setpos 1 2 3;setang 4 5 6");
              error := None;
              url := Some (js "https://csnades.gg/mirage/smokes/a") |}).
  - unfold code_units. vm_compute. repeat constructor.
  - unfold code_units. vm_compute. repeat constructor.
  - vm_compute. reflexivity.
  - reflexivity.
Defined.

(** ** Nothing is lost but duplicates *)

Lemma collect_intro chunks chunk n :
  chunk ∈ chunks -> parse_chunk chunk = Some n -> n ∈ collect chunks.
Proof.
  intros Hin Hp. induction Hin as [chunk rest|chunk c rest _ IH];
    cbn [collect].
  - rewrite Hp. left.
  - destruct (parse_chunk c); [right|]; exact (IH Hp).
Qed.

Lemma dedupe_from_covers (seen : gset jsstring) (l : list NadeSummary) n :
  n ∈ l ->
  key_of n ∈ seen
  \/ exists n', n' ∈ dedupe_from seen l /\ key_of n' = key_of n.
Proof.
  revert seen. induction l as [|x l IH]; intros seen Hin; [inversion Hin|].
  cbn [dedupe_from]. apply elem_of_cons in Hin as [->|Hin].
  - destruct (decide (key_of x ∈ seen)); [left; assumption|].
    right. exists x. split; [left|reflexivity].
  - destruct (decide (key_of x ∈ seen)) as [Hx|Hx].
    + apply IH, Hin.
    + destruct (IH ({[key_of x]} ∪ seen) Hin) as [Hs|(n' & Hn' & Hk)].
      * apply elem_of_union in Hs as [Hs|Hs]; [|left; exact Hs].
        apply elem_of_singleton in Hs.
        right. exists x. split; [left|symmetry; exact Hs].
      * right. exists n'. split; [right; exact Hn'|exact Hk].
Qed.

(** For the types of the enumeration the key determines type and slug. *)
Lemma key_of_known (n n' : NadeSummary) :
  known_type (type n) -> known_type (type n') ->
  key_of n = key_of n' -> type n = type n' /\ slug n = slug n'.
Proof.
  unfold key_of. intros Hk Hk' H.
  destruct Hk as [E|[E|[E|E]]], Hk' as [E'|[E'|[E'|E']]];
    rewrite E, E' in H |- *; vm_compute in H; try discriminate H;
    (split; [reflexivity|]); injection H; auto.
Qed.

(** X24: nothing is lost but duplicates.  Every span in which the three
    mandatory fields are found is represented in the result: the extractor
    returns a record with the type and the slug read in that span.  The
    key of line 117 never merges records that differ in type or slug. *)
Theorem every_parsed_span_is_represented (html chunk : jsstring)
    (n : NadeSummary) :
  chunk ∈ chunks_of html (starts_of html) ->
  parse_chunk chunk = Some n ->
  exists n',
    n' ∈ extractNadesFromMapHtml html
    /\ type n' = type n /\ slug n' = slug n.
Proof.
  intros Hin Hp. pose proof (collect_intro _ _ _ Hin Hp) as Hc.
  destruct (dedupe_from_covers ∅ _ _ Hc) as [He|(n' & Hn' & Hk)].
  - apply elem_of_empty in He. contradiction.
  - exists n'. split; [exact Hn'|].
    apply key_of_known; [| |exact Hk].
    + apply extracted_from_chunk in Hn' as (c & _ & Hc').
      destruct (parse_chunk_fields _ _ Hc') as (_ & _ & [Ht _] & _).
      exact Ht.
    + destruct (parse_chunk_fields _ _ Hp) as (_ & _ & [Ht _] & _).
      exact Ht.
Qed.

Lemma every_parsed_span_is_represented_witness :
  exists n',
    n' ∈ extractNadesFromMapHtml listing
    /\ type n' = type nade_a /\ slug n' = slug nade_a.
Proof.
  apply (every_parsed_span_is_represented listing (slice listing 10 80)).
  - apply list_elem_of_In. vm_compute. left. reflexivity.
  - vm_compute. reflexivity.
Defined.

(* ===================================================================== *)
(** * Part IV: console values, spans, command lines and labels           *)
(* ===================================================================== *)

(** ** A console value that cannot be decoded *)

(** C2, as the code behaves: when the detail page of a scheduled record
    holds a console value with a control character, the extraction throws
    the syntax error of the decoder instead of returning no console text,
    the job of that record throws it, the aggregate promise is rejected
    and [main] ends with an exception: no result sequence is rendered and
    nothing is written, whatever the order of completion.  By contrast a
    page without a console value gives no console text in band. *)
Theorem undecodable_console_aborts_run fetchText cfg nades n typePath m s
    (page pre v post : jsstring) (choices : list nat) :
  discover fetchText cfg = Ok nades ->
  n ∈ nades ->
  typeToPath (type n) = Some typePath ->
  encode (mapSlug cfg) = Ok m ->
  encode (slug n) = Ok s ->
  fetchText (baseUrl cfg ++ js "/" ++ m ++ js "/" ++ typePath ++ js "/" ++ s)
  = Ok page ->
  page = pre ++ key_open "console" ++ v ++ EQUOTE ++ post ->
  (forall q, occurs_at (key_open "console") page q ->
             (length pre <= q)%nat) ->
  (forall q, occurs_at EQUOTE (v ++ EQUOTE) q -> q = length v) ->
  existsb is_control v = true ->
  extractConsoleFromNadeHtml page = Throw SyntaxError
  /\ fetch_job fetchText cfg n = Throw SyntaxError
  /\ (forall out, main fetchText cfg choices <> Some (Ok out))
  /\ ((length nades <= length choices)%nat ->
      exists e', main fetchText cfg choices = Some (Throw e'))
  /\ (forall page',
        ~ (exists v', part_of (key_open "console" ++ v' ++ EQUOTE) page') ->
        extractConsoleFromNadeHtml page' = Ok None).
Proof.
  intros Hd Hn Ht Hm Hs Hf Hpage Hfirst Hquote Hctl.
  assert (Hx : extractConsoleFromNadeHtml page = Throw SyntaxError).
  { destruct (console_match_first _ _ _ _ Hpage Hfirst Hquote)
      as (mt & Hmt & Hg).
    unfold extractConsoleFromNadeHtml. rewrite Hmt, Hg.
    rewrite decodeJsEscapedString_spec, Hctl. reflexivity. }
  assert (Hj : fetch_job fetchText cfg n = Throw SyntaxError).
  { unfold fetch_job. rewrite Ht, Hm. cbn [res_bind]. rewrite Hs.
    cbn [res_bind]. rewrite Hf. cbn [res_bind]. rewrite Hx. reflexivity. }
  split; [exact Hx|]. split; [exact Hj|]. split; [|split].
  - intros out. eapply main_not_ok; eauto.
  - intros Hlen.
    destruct (main_throws fetchText cfg nades n SyntaxError choices
                Hd Hn Hj Hlen) as (e' & He' & _).
    eauto.
  - intros page' Hno. unfold extractConsoleFromNadeHtml.
    destruct (str_match false page' consoleRe) as [mt|] eqn:E;
      [|reflexivity].
    exfalso. apply Hno.
    destruct (console_match_shape _ _ E) as (pre' & post' & Hh & _).
    exists (group1 mt), pre', post'. rewrite Hh, <- !app_assoc. reflexivity.
Qed.

Lemma undecodable_console_aborts_run_witness :
  extractConsoleFromNadeHtml detail_raw_lf = Throw SyntaxError
  /\ fetch_job net_a_raw_lf sample_cfg nade_a = Throw SyntaxError
  /\ (forall out, main net_a_raw_lf sample_cfg [0; 0]%nat <> Some (Ok out))
  /\ main net_a_raw_lf sample_cfg [0; 0]%nat = Some (Throw SyntaxError).
Proof.
  destruct (undecodable_console_aborts_run net_a_raw_lf sample_cfg
              [nade_a; nade_b] nade_a (js "smokes") (js "mirage") (js "a")
              detail_raw_lf (js "<script>{")
              (js "setpos 1 2 3;" ++ [LF] ++ js "setang 4 5 6")
              (js "}</script>") [0; 0]%nat) as (H1 & H2 & H3 & _).
  - vm_compute. reflexivity.
  - left.
  - vm_compute. reflexivity.
  - vm_compute. reflexivity.
  - vm_compute. reflexivity.
  - vm_compute. reflexivity.
  - vm_compute. reflexivity.
  - intros q Hq.
    destruct (find_from_Some (key_open "console") detail_raw_lf 0 9)
      as (_ & _ & H).
    + vm_compute. reflexivity.
    + exact (H q Hq).
  - intros q Hq.
    assert (H1 : find_from EQUOTE
                   ((js "setpos 1 2 3;" ++ [LF] ++ js "setang 4 5 6")
                    ++ EQUOTE) 0
                 = Some 26%nat) by (vm_compute; reflexivity).
    destruct (find_from_Some _ _ _ _ H1) as (_ & _ & Hmin).
    specialize (Hmin q Hq). apply occurs_at_bound in Hq.
    assert (L : length ((js "setpos 1 2 3;" ++ [LF] ++ js "setang 4 5 6")
                        ++ EQUOTE) = 28%nat) by (vm_compute; reflexivity).
    assert (L1 : length (js "setpos 1 2 3;" ++ [LF] ++ js "setang 4 5 6")
                 = 26%nat) by (vm_compute; reflexivity).
    assert (L2 : length EQUOTE = 2%nat) by reflexivity.
    rewrite L, L2 in Hq. rewrite L1. lia.
  - vm_compute. reflexivity.
  - split; [exact H1|]. split; [exact H2|]. split; [exact H3|].
    vm_compute. reflexivity.
Defined.

(** ** The spans of the extractor *)









(** ** The command line of a console text *)











(** ** The label of a record *)




















